(** * Invasion percolation (OpenPNM [Algorithms/__InvasionPercolation__.py])

    A shallow embedding of the invasion-percolation engine: the per-cluster
    frontier lists and heaps, the cluster registry ([_cluster_data]), the
    event loop ([_do_inner_iteration_stage], [_do_one_inner_iteration],
    [_condition_update]), the post-run saturation pass and the occupancy
    query ([update_results]).

    Conventions
    - pore, throat and cluster numbers and sequence numbers are [nat];
    - the physical inputs (volumes, diameters, entry pressures, flow) are
      given by their values, as rationals [Q], and the time arithmetic of
      the engine is done on them exactly (no rounding);
    - the saturation pass and the saturation cutoff of [update_results],
      where the rounding of a sum decides a comparison, work on binary64
      floats ([float64]), on the doubles nearest to the given volumes;
    - a Python exception (IndexError on an empty heap or a bad index,
      KeyError on a missing dictionary key) is [None] in the option monad;
    - [while] loops run on fuel, with lemmas showing how much fuel is enough.
*)

From Stdlib Require Import QArith Qround Lqa.
From Stdlib Require Import Floats.SpecFloat.
From stdpp Require Import base option list.

Open Scope nat_scope.

(** ** Python indexing *)

Section PyIndex.
Context {A : Type}.

(** [l[i] = v] on a list or array: IndexError when out of range. *)
Definition seti (l : list A) (i : nat) (v : A) : option (list A) :=
  if decide (i < length l) then Some (<[i := v]> l) else None.

(** Index [c - 1] for a cluster number [c]; for [c = 0] Python's [-1]
    addresses the last entry. *)
Definition pyix (l : list A) (c : nat) : nat :=
  match c with
  | 0 => length l - 1
  | S c' => c'
  end.

(** [l[c-1]] *)
Definition getc (l : list A) (c : nat) : option A := l !! pyix l c.

(** [l[c-1] = v] *)
Definition setc (l : list A) (c : nat) (v : A) : option (list A) :=
  seti l (pyix l c) v.

(** [arr[idxs] = v] with a list of indices (numpy fancy assignment). *)
Fixpoint set_many (l : list A) (idxs : list nat) (v : A) : option (list A) :=
  match idxs with
  | [] => Some l
  | i :: idxs' => l' ← seti l i v; set_many l' idxs' v
  end.

(** [arr[idxs]] with a list of indices. *)
Fixpoint get_many (l : list A) (idxs : list nat) : option (list A) :=
  match idxs with
  | [] => Some []
  | i :: idxs' => x ← l !! i; xs ← get_many l idxs'; Some (x :: xs)
  end.
End PyIndex.

(** [arr[arr == a] = b] (numpy boolean-mask assignment). *)
Definition relabel (a b : nat) (l : list nat) : list nat :=
  (λ v, if decide (v = a) then b else v) <$> l.

(** [np.where(arr == c)[0]] *)
Fixpoint where_eq_from (i : nat) (c : nat) (l : list nat) : list nat :=
  match l with
  | [] => []
  | v :: l' =>
      if decide (v = c) then i :: where_eq_from (S i) c l'
      else where_eq_from (S i) c l'
  end.
Definition where_eq (c : nat) (l : list nat) : list nat := where_eq_from 0 c l.

(** [len(np.nonzero(arr)[0])] *)
Definition count_nonzero (l : list nat) : nat :=
  length (filter (λ v, v ≠ 0) l).

Definition Qsum (l : list Q) : Q := foldr Qplus 0%Q l.

(** ** [np.float64]

    IEEE 754 binary64 numbers with the operations rounding to nearest, ties
    to even; division by zero gives an infinity or [nan], as numpy's does
    (with a warning, not an exception). *)

Definition float64 : Type := spec_float.

Definition f64_add : float64 → float64 → float64 := SFadd 53 1024.
Definition f64_div : float64 → float64 → float64 := SFdiv 53 1024.

(** [x <= y]; false when one of them is [nan]. *)
Definition f64_le (x y : float64) : bool := SFleb x y.

(** The double of an integer, and the double nearest to a rational with
    numerator and denominator below [2^53]: what a decimal literal such as
    [0.2] denotes. *)
Definition f64_of_Z (z : Z) : float64 := binary_normalize 53 1024 z 0 false.
Definition np_float64 (q : Q) : float64 :=
  f64_div (f64_of_Z (Qnum q)) (f64_of_Z (Zpos (Qden q))).

(** Python's builtin [sum] over float64 scalars: from the integer 0, one
    addition per entry, left to right. *)
Definition py_sum (l : list float64) : float64 :=
  foldl f64_add (f64_of_Z 0) l.

(** ** The [heapq] module on Python lists

    Entries are [(pressure, throat)] tuples, compared as Python compares
    tuples: first component, then second. *)

Definition item : Type := Q * nat.

Definition item_lt (a b : item) : bool :=
  match Qcompare a.1 b.1 with
  | Lt => true
  | Gt => false
  | Eq => a.2 <? b.2
  end.

Module heapq.

(** The [while pos > startpos] loop of [_siftdown]; returns the heap and
    the final [pos]. Every round moves [pos] to its parent, so [pos]
    rounds of fuel are enough. *)
Fixpoint siftdown_loop (fuel : nat) (heap : list item) (startpos pos : nat)
    (newitem : item) : list item * nat :=
  match fuel with
  | 0 => (heap, pos)
  | S fuel' =>
      if decide (startpos < pos) then
        let parentpos := (pos - 1) / 2 in
        match heap !! parentpos with
        | Some parent =>
            if item_lt newitem parent
            then siftdown_loop fuel' (<[pos := parent]> heap) startpos
                   parentpos newitem
            else (heap, pos)
        | None => (heap, pos)
        end
      else (heap, pos)
  end.

Definition _siftdown (heap : list item) (startpos pos : nat) : list item :=
  match heap !! pos with
  | Some newitem =>
      let '(h, p) := siftdown_loop pos heap startpos pos newitem in
      <[p := newitem]> h
  | None => heap
  end.

(** The [while childpos < endpos] loop of [_siftup]: bubble the smaller
    child up until a leaf is reached. *)
Fixpoint siftup_loop (fuel : nat) (heap : list item) (pos : nat)
    : list item * nat :=
  match fuel with
  | 0 => (heap, pos)
  | S fuel' =>
      let endpos := length heap in
      let childpos := 2 * pos + 1 in
      if decide (childpos < endpos) then
        let rightpos := childpos + 1 in
        let childpos :=
          match heap !! childpos, heap !! rightpos with
          | Some c, Some r => if item_lt c r then childpos else rightpos
          | _, _ => childpos
          end in
        match heap !! childpos with
        | Some c => siftup_loop fuel' (<[pos := c]> heap) childpos
        | None => (heap, pos)
        end
      else (heap, pos)
  end.

Definition _siftup (heap : list item) (pos : nat) : list item :=
  match heap !! pos with
  | Some newitem =>
      let '(h, p) := siftup_loop (length heap) heap pos in
      _siftdown (<[p := newitem]> h) pos p
  | None => heap
  end.

(** [heapq.heappush(heap, item)] *)
Definition heappush (heap : list item) (x : item) : list item :=
  _siftdown (heap ++ [x]) 0 (length heap).

(** [heapq.heappop(heap)]: the popped item and the heap left; IndexError
    on an empty heap. *)
Definition heappop (heap : list item) : option (item * list item) :=
  match heap with
  | [] => None
  | top :: _ =>
      match last heap with
      | None => None
      | Some lastelt =>
          let rest := take (length heap - 1) heap in
          match rest with
          | [] => Some (lastelt, [])
          | _ :: _ => Some (top, _siftup (<[0 := lastelt]> rest) 0)
          end
      end
  end.

(** [heapq.heapify(x)]: [_siftup] at positions [n/2 - 1] down to [0]. *)
Fixpoint heapify_from (k : nat) (x : list item) : list item :=
  match k with
  | 0 => x
  | S k' => heapify_from k' (_siftup x k')
  end.
Definition heapify (x : list item) : list item :=
  heapify_from (length x / 2) x.

(** [list(heapq.merge(a, b))]: repeatedly emit the smaller head, the first
    list winning ties; the inputs are taken as they are. *)
Fixpoint merge (a : list item) : list item → list item :=
  fix merge_b (b : list item) : list item :=
    match a, b with
    | [], _ => b
    | _, [] => a
    | x :: a', y :: b' =>
        if item_lt y x then y :: merge_b b' else x :: merge a' b
    end.

End heapq.

(** ** The network and the run configuration

    The network object itself is an external collaborator; the engine reads
    the throat connections, the property arrays and the run arguments. *)

Inductive EndCondition := breakthrough | total.

Record Inputs : Type := mkInputs {
  num_pores : nat;
  throat_conns : list (nat * nat);      (* net['throat.conns'] *)
  net_pore_volume : list Q;             (* net['pore.volume'] *)
  net_throat_volume : list Q;           (* net['throat.volume'] *)
  pore_volumes : list Q;                (* net['pore.'+pore_volume_name] *)
  throat_volumes : list Q;              (* net['throat.'+throat_volume_name] *)
  tdia : list Q;                        (* net['throat.'+throat_diameter_name] *)
  Pc_entry : list Q;                    (* phase['throat.'+capillary_pressure] *)
  inlets : list (list nat);             (* one group of pores per cluster *)
  outlets : list nat;
  end_condition : EndCondition;
  timing : bool;
  inlet_flow : Q
}.

Definition num_throats (I : Inputs) : nat := length (throat_conns I).

(** [net.find_connected_pores(t)] *)
Definition find_connected_pores (I : Inputs) (t : nat) : option (nat * nat) :=
  throat_conns I !! t.

Fixpoint neighbor_scan (cs : list (nat * nat)) (t : nat) (pores : list nat)
    : list nat :=
  match cs with
  | [] => []
  | (a, b) :: cs' =>
      if bool_decide (a ∈ pores ∨ b ∈ pores)
      then t :: neighbor_scan cs' (S t) pores
      else neighbor_scan cs' (S t) pores
  end.

(** Modelled from the spec: the Graph Accessor's
    [neighbor_throats(pore_ids) -> set<throat_id>] (the network class is not
    part of the sources): the throats with an end in [pores], each once, in
    ascending order. *)
Definition find_neighbor_throats (I : Inputs) (pores : list nat) : list nat :=
  neighbor_scan (throat_conns I) 0 pores.

(** [np.pi] as the double it is. *)
Definition np_pi : Q := 884279719003555 # 281474976710656.

(** [self._Tvol_coef = tdia*tdia*tdia*np.pi/12/Pc_entry] *)
Definition _Tvol_coef (I : Inputs) : list Q :=
  zip_with (λ d pc, (d * d * d * np_pi / 12 / pc)%Q) (tdia I) (Pc_entry I).

(** The literal [100000000000000000000000000000000], as the double that a
    float array stores for it: the time of a cluster that is finished. *)
Definition sentinel : Q := 100000000000000005366162204393472 # 1.

(** ** The state of the algorithm object *)

Inductive elem := Pore (p : nat) | Throat (t : nat).

Record IP : Type := mkIP {
  pore_IP_cluster_final : list nat;
  pore_IP_cluster_original : list nat;
  throat_IP_cluster_final : list nat;
  pore_IP_inv_seq : list nat;
  throat_IP_inv_seq : list nat;
  pore_IP_inv_time : list Q;
  throat_IP_inv_time : list Q;
  flow_rate : list Q;
  haines_pressure : list Q;
  haines_time : list Q;
  vol_coef : list Q;
  cap_volume : list Q;
  pore_volume : list Q;
  haines_throat : list nat;
  active : list nat;
  transform : list nat;
  _tlists : list (list nat);
  _tpoints : list (list item);
  _clusterCount : nat;
  _tseq : nat;
  _pseq : nat;
  _current_cluster : nat;
  _NewPore : option nat;
  _sim_time : Q;
  _condition : bool;
  _counter : nat;
  _brkevent : list nat;
  seq_log : list (elem * nat)
}.

Definition set_pore_IP_cluster_final (v : list nat) (s : IP) : IP :=
  mkIP v (pore_IP_cluster_original s) (throat_IP_cluster_final s)
    (pore_IP_inv_seq s) (throat_IP_inv_seq s) (pore_IP_inv_time s)
    (throat_IP_inv_time s) (flow_rate s) (haines_pressure s) (haines_time s)
    (vol_coef s) (cap_volume s) (pore_volume s) (haines_throat s) (active s)
    (transform s) (_tlists s) (_tpoints s) (_clusterCount s) (_tseq s)
    (_pseq s) (_current_cluster s) (_NewPore s) (_sim_time s) (_condition s)
    (_counter s) (_brkevent s) (seq_log s).
Definition set_pore_IP_cluster_original (v : list nat) (s : IP) : IP :=
  mkIP (pore_IP_cluster_final s) v (throat_IP_cluster_final s)
    (pore_IP_inv_seq s) (throat_IP_inv_seq s) (pore_IP_inv_time s)
    (throat_IP_inv_time s) (flow_rate s) (haines_pressure s) (haines_time s)
    (vol_coef s) (cap_volume s) (pore_volume s) (haines_throat s) (active s)
    (transform s) (_tlists s) (_tpoints s) (_clusterCount s) (_tseq s)
    (_pseq s) (_current_cluster s) (_NewPore s) (_sim_time s) (_condition s)
    (_counter s) (_brkevent s) (seq_log s).
Definition set_throat_IP_cluster_final (v : list nat) (s : IP) : IP :=
  mkIP (pore_IP_cluster_final s) (pore_IP_cluster_original s) v
    (pore_IP_inv_seq s) (throat_IP_inv_seq s) (pore_IP_inv_time s)
    (throat_IP_inv_time s) (flow_rate s) (haines_pressure s) (haines_time s)
    (vol_coef s) (cap_volume s) (pore_volume s) (haines_throat s) (active s)
    (transform s) (_tlists s) (_tpoints s) (_clusterCount s) (_tseq s)
    (_pseq s) (_current_cluster s) (_NewPore s) (_sim_time s) (_condition s)
    (_counter s) (_brkevent s) (seq_log s).
Definition set_pore_IP_inv_seq (v : list nat) (s : IP) : IP :=
  mkIP (pore_IP_cluster_final s) (pore_IP_cluster_original s)
    (throat_IP_cluster_final s) v (throat_IP_inv_seq s) (pore_IP_inv_time s)
    (throat_IP_inv_time s) (flow_rate s) (haines_pressure s) (haines_time s)
    (vol_coef s) (cap_volume s) (pore_volume s) (haines_throat s) (active s)
    (transform s) (_tlists s) (_tpoints s) (_clusterCount s) (_tseq s)
    (_pseq s) (_current_cluster s) (_NewPore s) (_sim_time s) (_condition s)
    (_counter s) (_brkevent s) (seq_log s).
Definition set_throat_IP_inv_seq (v : list nat) (s : IP) : IP :=
  mkIP (pore_IP_cluster_final s) (pore_IP_cluster_original s)
    (throat_IP_cluster_final s) (pore_IP_inv_seq s) v (pore_IP_inv_time s)
    (throat_IP_inv_time s) (flow_rate s) (haines_pressure s) (haines_time s)
    (vol_coef s) (cap_volume s) (pore_volume s) (haines_throat s) (active s)
    (transform s) (_tlists s) (_tpoints s) (_clusterCount s) (_tseq s)
    (_pseq s) (_current_cluster s) (_NewPore s) (_sim_time s) (_condition s)
    (_counter s) (_brkevent s) (seq_log s).
Definition set_pore_IP_inv_time (v : list Q) (s : IP) : IP :=
  mkIP (pore_IP_cluster_final s) (pore_IP_cluster_original s)
    (throat_IP_cluster_final s) (pore_IP_inv_seq s) (throat_IP_inv_seq s) v
    (throat_IP_inv_time s) (flow_rate s) (haines_pressure s) (haines_time s)
    (vol_coef s) (cap_volume s) (pore_volume s) (haines_throat s) (active s)
    (transform s) (_tlists s) (_tpoints s) (_clusterCount s) (_tseq s)
    (_pseq s) (_current_cluster s) (_NewPore s) (_sim_time s) (_condition s)
    (_counter s) (_brkevent s) (seq_log s).
Definition set_throat_IP_inv_time (v : list Q) (s : IP) : IP :=
  mkIP (pore_IP_cluster_final s) (pore_IP_cluster_original s)
    (throat_IP_cluster_final s) (pore_IP_inv_seq s) (throat_IP_inv_seq s)
    (pore_IP_inv_time s) v (flow_rate s) (haines_pressure s) (haines_time s)
    (vol_coef s) (cap_volume s) (pore_volume s) (haines_throat s) (active s)
    (transform s) (_tlists s) (_tpoints s) (_clusterCount s) (_tseq s)
    (_pseq s) (_current_cluster s) (_NewPore s) (_sim_time s) (_condition s)
    (_counter s) (_brkevent s) (seq_log s).
Definition set_flow_rate (v : list Q) (s : IP) : IP :=
  mkIP (pore_IP_cluster_final s) (pore_IP_cluster_original s)
    (throat_IP_cluster_final s) (pore_IP_inv_seq s) (throat_IP_inv_seq s)
    (pore_IP_inv_time s) (throat_IP_inv_time s) v (haines_pressure s)
    (haines_time s) (vol_coef s) (cap_volume s) (pore_volume s)
    (haines_throat s) (active s) (transform s) (_tlists s) (_tpoints s)
    (_clusterCount s) (_tseq s) (_pseq s) (_current_cluster s) (_NewPore s)
    (_sim_time s) (_condition s) (_counter s) (_brkevent s) (seq_log s).
Definition set_haines_pressure (v : list Q) (s : IP) : IP :=
  mkIP (pore_IP_cluster_final s) (pore_IP_cluster_original s)
    (throat_IP_cluster_final s) (pore_IP_inv_seq s) (throat_IP_inv_seq s)
    (pore_IP_inv_time s) (throat_IP_inv_time s) (flow_rate s) v (haines_time
    s) (vol_coef s) (cap_volume s) (pore_volume s) (haines_throat s) (active
    s) (transform s) (_tlists s) (_tpoints s) (_clusterCount s) (_tseq s)
    (_pseq s) (_current_cluster s) (_NewPore s) (_sim_time s) (_condition s)
    (_counter s) (_brkevent s) (seq_log s).
Definition set_haines_time (v : list Q) (s : IP) : IP :=
  mkIP (pore_IP_cluster_final s) (pore_IP_cluster_original s)
    (throat_IP_cluster_final s) (pore_IP_inv_seq s) (throat_IP_inv_seq s)
    (pore_IP_inv_time s) (throat_IP_inv_time s) (flow_rate s)
    (haines_pressure s) v (vol_coef s) (cap_volume s) (pore_volume s)
    (haines_throat s) (active s) (transform s) (_tlists s) (_tpoints s)
    (_clusterCount s) (_tseq s) (_pseq s) (_current_cluster s) (_NewPore s)
    (_sim_time s) (_condition s) (_counter s) (_brkevent s) (seq_log s).
Definition set_vol_coef (v : list Q) (s : IP) : IP :=
  mkIP (pore_IP_cluster_final s) (pore_IP_cluster_original s)
    (throat_IP_cluster_final s) (pore_IP_inv_seq s) (throat_IP_inv_seq s)
    (pore_IP_inv_time s) (throat_IP_inv_time s) (flow_rate s)
    (haines_pressure s) (haines_time s) v (cap_volume s) (pore_volume s)
    (haines_throat s) (active s) (transform s) (_tlists s) (_tpoints s)
    (_clusterCount s) (_tseq s) (_pseq s) (_current_cluster s) (_NewPore s)
    (_sim_time s) (_condition s) (_counter s) (_brkevent s) (seq_log s).
Definition set_cap_volume (v : list Q) (s : IP) : IP :=
  mkIP (pore_IP_cluster_final s) (pore_IP_cluster_original s)
    (throat_IP_cluster_final s) (pore_IP_inv_seq s) (throat_IP_inv_seq s)
    (pore_IP_inv_time s) (throat_IP_inv_time s) (flow_rate s)
    (haines_pressure s) (haines_time s) (vol_coef s) v (pore_volume s)
    (haines_throat s) (active s) (transform s) (_tlists s) (_tpoints s)
    (_clusterCount s) (_tseq s) (_pseq s) (_current_cluster s) (_NewPore s)
    (_sim_time s) (_condition s) (_counter s) (_brkevent s) (seq_log s).
Definition set_pore_volume (v : list Q) (s : IP) : IP :=
  mkIP (pore_IP_cluster_final s) (pore_IP_cluster_original s)
    (throat_IP_cluster_final s) (pore_IP_inv_seq s) (throat_IP_inv_seq s)
    (pore_IP_inv_time s) (throat_IP_inv_time s) (flow_rate s)
    (haines_pressure s) (haines_time s) (vol_coef s) (cap_volume s) v
    (haines_throat s) (active s) (transform s) (_tlists s) (_tpoints s)
    (_clusterCount s) (_tseq s) (_pseq s) (_current_cluster s) (_NewPore s)
    (_sim_time s) (_condition s) (_counter s) (_brkevent s) (seq_log s).
Definition set_haines_throat (v : list nat) (s : IP) : IP :=
  mkIP (pore_IP_cluster_final s) (pore_IP_cluster_original s)
    (throat_IP_cluster_final s) (pore_IP_inv_seq s) (throat_IP_inv_seq s)
    (pore_IP_inv_time s) (throat_IP_inv_time s) (flow_rate s)
    (haines_pressure s) (haines_time s) (vol_coef s) (cap_volume s)
    (pore_volume s) v (active s) (transform s) (_tlists s) (_tpoints s)
    (_clusterCount s) (_tseq s) (_pseq s) (_current_cluster s) (_NewPore s)
    (_sim_time s) (_condition s) (_counter s) (_brkevent s) (seq_log s).
Definition set_active (v : list nat) (s : IP) : IP :=
  mkIP (pore_IP_cluster_final s) (pore_IP_cluster_original s)
    (throat_IP_cluster_final s) (pore_IP_inv_seq s) (throat_IP_inv_seq s)
    (pore_IP_inv_time s) (throat_IP_inv_time s) (flow_rate s)
    (haines_pressure s) (haines_time s) (vol_coef s) (cap_volume s)
    (pore_volume s) (haines_throat s) v (transform s) (_tlists s) (_tpoints
    s) (_clusterCount s) (_tseq s) (_pseq s) (_current_cluster s) (_NewPore
    s) (_sim_time s) (_condition s) (_counter s) (_brkevent s) (seq_log s).
Definition set_transform (v : list nat) (s : IP) : IP :=
  mkIP (pore_IP_cluster_final s) (pore_IP_cluster_original s)
    (throat_IP_cluster_final s) (pore_IP_inv_seq s) (throat_IP_inv_seq s)
    (pore_IP_inv_time s) (throat_IP_inv_time s) (flow_rate s)
    (haines_pressure s) (haines_time s) (vol_coef s) (cap_volume s)
    (pore_volume s) (haines_throat s) (active s) v (_tlists s) (_tpoints s)
    (_clusterCount s) (_tseq s) (_pseq s) (_current_cluster s) (_NewPore s)
    (_sim_time s) (_condition s) (_counter s) (_brkevent s) (seq_log s).
Definition set_tlists (v : list (list nat)) (s : IP) : IP :=
  mkIP (pore_IP_cluster_final s) (pore_IP_cluster_original s)
    (throat_IP_cluster_final s) (pore_IP_inv_seq s) (throat_IP_inv_seq s)
    (pore_IP_inv_time s) (throat_IP_inv_time s) (flow_rate s)
    (haines_pressure s) (haines_time s) (vol_coef s) (cap_volume s)
    (pore_volume s) (haines_throat s) (active s) (transform s) v (_tpoints
    s) (_clusterCount s) (_tseq s) (_pseq s) (_current_cluster s) (_NewPore
    s) (_sim_time s) (_condition s) (_counter s) (_brkevent s) (seq_log s).
Definition set_tpoints (v : list (list item)) (s : IP) : IP :=
  mkIP (pore_IP_cluster_final s) (pore_IP_cluster_original s)
    (throat_IP_cluster_final s) (pore_IP_inv_seq s) (throat_IP_inv_seq s)
    (pore_IP_inv_time s) (throat_IP_inv_time s) (flow_rate s)
    (haines_pressure s) (haines_time s) (vol_coef s) (cap_volume s)
    (pore_volume s) (haines_throat s) (active s) (transform s) (_tlists s) v
    (_clusterCount s) (_tseq s) (_pseq s) (_current_cluster s) (_NewPore s)
    (_sim_time s) (_condition s) (_counter s) (_brkevent s) (seq_log s).
Definition set_clusterCount (v : nat) (s : IP) : IP :=
  mkIP (pore_IP_cluster_final s) (pore_IP_cluster_original s)
    (throat_IP_cluster_final s) (pore_IP_inv_seq s) (throat_IP_inv_seq s)
    (pore_IP_inv_time s) (throat_IP_inv_time s) (flow_rate s)
    (haines_pressure s) (haines_time s) (vol_coef s) (cap_volume s)
    (pore_volume s) (haines_throat s) (active s) (transform s) (_tlists s)
    (_tpoints s) v (_tseq s) (_pseq s) (_current_cluster s) (_NewPore s)
    (_sim_time s) (_condition s) (_counter s) (_brkevent s) (seq_log s).
Definition set_tseq (v : nat) (s : IP) : IP :=
  mkIP (pore_IP_cluster_final s) (pore_IP_cluster_original s)
    (throat_IP_cluster_final s) (pore_IP_inv_seq s) (throat_IP_inv_seq s)
    (pore_IP_inv_time s) (throat_IP_inv_time s) (flow_rate s)
    (haines_pressure s) (haines_time s) (vol_coef s) (cap_volume s)
    (pore_volume s) (haines_throat s) (active s) (transform s) (_tlists s)
    (_tpoints s) (_clusterCount s) v (_pseq s) (_current_cluster s)
    (_NewPore s) (_sim_time s) (_condition s) (_counter s) (_brkevent s)
    (seq_log s).
Definition set_pseq (v : nat) (s : IP) : IP :=
  mkIP (pore_IP_cluster_final s) (pore_IP_cluster_original s)
    (throat_IP_cluster_final s) (pore_IP_inv_seq s) (throat_IP_inv_seq s)
    (pore_IP_inv_time s) (throat_IP_inv_time s) (flow_rate s)
    (haines_pressure s) (haines_time s) (vol_coef s) (cap_volume s)
    (pore_volume s) (haines_throat s) (active s) (transform s) (_tlists s)
    (_tpoints s) (_clusterCount s) (_tseq s) v (_current_cluster s)
    (_NewPore s) (_sim_time s) (_condition s) (_counter s) (_brkevent s)
    (seq_log s).
Definition set_current_cluster (v : nat) (s : IP) : IP :=
  mkIP (pore_IP_cluster_final s) (pore_IP_cluster_original s)
    (throat_IP_cluster_final s) (pore_IP_inv_seq s) (throat_IP_inv_seq s)
    (pore_IP_inv_time s) (throat_IP_inv_time s) (flow_rate s)
    (haines_pressure s) (haines_time s) (vol_coef s) (cap_volume s)
    (pore_volume s) (haines_throat s) (active s) (transform s) (_tlists s)
    (_tpoints s) (_clusterCount s) (_tseq s) (_pseq s) v (_NewPore s)
    (_sim_time s) (_condition s) (_counter s) (_brkevent s) (seq_log s).
Definition set_NewPore (v : option nat) (s : IP) : IP :=
  mkIP (pore_IP_cluster_final s) (pore_IP_cluster_original s)
    (throat_IP_cluster_final s) (pore_IP_inv_seq s) (throat_IP_inv_seq s)
    (pore_IP_inv_time s) (throat_IP_inv_time s) (flow_rate s)
    (haines_pressure s) (haines_time s) (vol_coef s) (cap_volume s)
    (pore_volume s) (haines_throat s) (active s) (transform s) (_tlists s)
    (_tpoints s) (_clusterCount s) (_tseq s) (_pseq s) (_current_cluster s)
    v (_sim_time s) (_condition s) (_counter s) (_brkevent s) (seq_log s).
Definition set_sim_time (v : Q) (s : IP) : IP :=
  mkIP (pore_IP_cluster_final s) (pore_IP_cluster_original s)
    (throat_IP_cluster_final s) (pore_IP_inv_seq s) (throat_IP_inv_seq s)
    (pore_IP_inv_time s) (throat_IP_inv_time s) (flow_rate s)
    (haines_pressure s) (haines_time s) (vol_coef s) (cap_volume s)
    (pore_volume s) (haines_throat s) (active s) (transform s) (_tlists s)
    (_tpoints s) (_clusterCount s) (_tseq s) (_pseq s) (_current_cluster s)
    (_NewPore s) v (_condition s) (_counter s) (_brkevent s) (seq_log s).
Definition set_condition (v : bool) (s : IP) : IP :=
  mkIP (pore_IP_cluster_final s) (pore_IP_cluster_original s)
    (throat_IP_cluster_final s) (pore_IP_inv_seq s) (throat_IP_inv_seq s)
    (pore_IP_inv_time s) (throat_IP_inv_time s) (flow_rate s)
    (haines_pressure s) (haines_time s) (vol_coef s) (cap_volume s)
    (pore_volume s) (haines_throat s) (active s) (transform s) (_tlists s)
    (_tpoints s) (_clusterCount s) (_tseq s) (_pseq s) (_current_cluster s)
    (_NewPore s) (_sim_time s) v (_counter s) (_brkevent s) (seq_log s).
Definition set_counter (v : nat) (s : IP) : IP :=
  mkIP (pore_IP_cluster_final s) (pore_IP_cluster_original s)
    (throat_IP_cluster_final s) (pore_IP_inv_seq s) (throat_IP_inv_seq s)
    (pore_IP_inv_time s) (throat_IP_inv_time s) (flow_rate s)
    (haines_pressure s) (haines_time s) (vol_coef s) (cap_volume s)
    (pore_volume s) (haines_throat s) (active s) (transform s) (_tlists s)
    (_tpoints s) (_clusterCount s) (_tseq s) (_pseq s) (_current_cluster s)
    (_NewPore s) (_sim_time s) (_condition s) v (_brkevent s) (seq_log s).
Definition set_brkevent (v : list nat) (s : IP) : IP :=
  mkIP (pore_IP_cluster_final s) (pore_IP_cluster_original s)
    (throat_IP_cluster_final s) (pore_IP_inv_seq s) (throat_IP_inv_seq s)
    (pore_IP_inv_time s) (throat_IP_inv_time s) (flow_rate s)
    (haines_pressure s) (haines_time s) (vol_coef s) (cap_volume s)
    (pore_volume s) (haines_throat s) (active s) (transform s) (_tlists s)
    (_tpoints s) (_clusterCount s) (_tseq s) (_pseq s) (_current_cluster s)
    (_NewPore s) (_sim_time s) (_condition s) (_counter s) v (seq_log s).
Definition set_seq_log (v : list (elem * nat)) (s : IP) : IP :=
  mkIP (pore_IP_cluster_final s) (pore_IP_cluster_original s)
    (throat_IP_cluster_final s) (pore_IP_inv_seq s) (throat_IP_inv_seq s)
    (pore_IP_inv_time s) (throat_IP_inv_time s) (flow_rate s)
    (haines_pressure s) (haines_time s) (vol_coef s) (cap_volume s)
    (pore_volume s) (haines_throat s) (active s) (transform s) (_tlists s)
    (_tpoints s) (_clusterCount s) (_tseq s) (_pseq s) (_current_cluster s)
    (_NewPore s) (_sim_time s) (_condition s) (_counter s) (_brkevent s) v.

(** The ghost field [seq_log] records every assignment to an [IP_inv_seq]
    array, in the order the code makes them; nothing reads it. *)

Definition Qle_dec (x y : Q) : {(x <= y)%Q} + {¬ (x <= y)%Q}.
Proof.
  destruct (Qlt_le_dec y x) as [H|H]; [right|left; exact H].
  apply Qlt_not_le, H.
Defined.

(** Python's [min] over a float array: the first smallest entry;
    ValueError when empty. *)
Definition py_min (l : list Q) : option Q :=
  match l with
  | [] => None
  | x :: l' => Some (foldl (λ m y, if Qlt_le_dec y m then y else m) x l')
  end.

(** [l.index(x)]: position of the first entry equal to [x]. *)
Fixpoint py_index (x : Q) (l : list Q) : option nat :=
  match l with
  | [] => None
  | y :: l' => if Qeq_bool y x then Some 0 else S <$> py_index x l'
  end.

(** ** [_setup_for_IP] *)

Section Engine.
Variable I : Inputs.

(** Body of [for i in self._inlets], for cluster number [cn]. *)
Definition setup_cluster (cn : nat) (i : list nat) (s : IP) : option IP :=
  s ← (if timing I then
         pv ← get_many (pore_volumes I) i;
         l ← setc (pore_volume s) cn (Qsum pv);
         Some (set_pore_volume l s)
       else Some s);
  f ← set_many (pore_IP_cluster_final s) i cn;
  o ← set_many (pore_IP_cluster_original s) i cn;
  q ← set_many (pore_IP_inv_seq s) i (_tseq s);
  let s := set_pore_IP_cluster_final f s in
  let s := set_pore_IP_cluster_original o s in
  let s := set_pore_IP_inv_seq q s in
  let s := set_seq_log (seq_log s ++ ((λ p, (Pore p, _tseq s)) <$> i)) s in
  s ← (if timing I then
         t ← set_many (pore_IP_inv_time s) i (_sim_time s);
         Some (set_pore_IP_inv_time t s)
       else Some s);
  let interface_throat_numbers :=
    find_neighbor_throats I (where_eq cn (pore_IP_cluster_final s)) in
  s ← (if timing I then
         tv ← get_many (_Tvol_coef I) interface_throat_numbers;
         l ← setc (vol_coef s) cn (Qsum tv);
         Some (set_vol_coef l s)
       else Some s);
  interface_throat_pressures ← get_many (Pc_entry I) interface_throat_numbers;
  let Interface :=
    heapq.heapify (zip interface_throat_pressures interface_throat_numbers) in
  let s := set_tlists (_tlists s ++ [interface_throat_numbers]) s in
  let s := set_tpoints (_tpoints s ++ [Interface]) s in
  invaded_throat_info ← Interface !! 0;
  s ← (if timing I then
         hp ← setc (haines_pressure s) cn invaded_throat_info.1;
         vc ← getc (vol_coef s) cn;
         cv ← setc (cap_volume s) cn (invaded_throat_info.1 * vc)%Q;
         pv ← getc (pore_volume s) cn;
         fr ← getc (flow_rate s) cn;
         ht ← setc (haines_time s) cn
                ((pv + invaded_throat_info.1 * vc) / fr)%Q;
         Some (set_haines_time ht (set_cap_volume cv
                 (set_haines_pressure hp s)))
       else Some s);
  ht ← setc (haines_throat s) cn invaded_throat_info.2;
  Some (set_haines_throat ht s).

Fixpoint setup_clusters (cn : nat) (groups : list (list nat)) (s : IP)
    : option IP :=
  match groups with
  | [] => Some s
  | i :: groups' => s' ← setup_cluster cn i s; setup_clusters (S cn) groups' s'
  end.

(** The state when [_do_outer_iteration_stage] calls [_setup_for_IP]:
    [_pseq = _tseq = 1], [_NewPore = -1], [_sim_time = 0]; arrays not
    created yet. *)
Definition initial : IP :=
  mkIP [] [] [] [] [] [] [] [] [] [] [] [] [] [] [] [] [] [] 0 1 1 0 None
    0%Q true 0 [] [].

Definition _setup_for_IP (s : IP) : option IP :=
  let Np := num_pores I in
  let Nt := num_throats I in
  let s := set_pore_IP_cluster_final (replicate Np 0) s in
  let s := set_pore_IP_cluster_original (replicate Np 0) s in
  let s := set_throat_IP_cluster_final (replicate Nt 0) s in
  let s := set_pore_IP_inv_seq (replicate Np 0) s in
  let s := if timing I
           then set_pore_IP_inv_time (replicate Np (-1)%Q) s else s in
  let s := set_throat_IP_inv_seq (replicate Nt 0) s in
  let s := if timing I
           then set_throat_IP_inv_time (replicate Nt (-1)%Q) s else s in
  let n := length (inlets I) in
  let s := set_clusterCount n s in
  let s :=
    if timing I then
      set_flow_rate (replicate n (1 * inlet_flow I)%Q)
        (set_haines_pressure (replicate n 0%Q)
           (set_haines_time (replicate n 0%Q)
              (set_vol_coef (replicate n 0%Q)
                 (set_cap_volume (replicate n 0%Q)
                    (set_pore_volume (replicate n 0%Q) s)))))
    else s in
  let s := set_haines_throat (replicate n 0) s in
  let s := set_active (replicate n 1) s in
  let s := set_transform (seq 1 n) s in
  let s := set_tlists [] s in
  let s := set_tpoints [] s in
  s ← setup_clusters 1 (inlets I) s;
  let s := set_tseq (_tseq s + 1) s in
  let s := set_pseq (_pseq s + 1) s in
  Some (set_current_cluster 0 s).

(** ** [_do_one_inner_iteration] *)

(** Lines "Fill throat and connecting pore" to "Remove throat's
    contribution to the vol_coef": pop the current cluster's heap and
    mark the throat. Returns [tinvade] too. *)
Definition invade_throat (s : IP) : option (nat * IP) :=
  let cur := _current_cluster s in
  h ← getc (_tpoints s) cur;
  '(popped, h') ← heapq.heappop h;
  tp ← setc (_tpoints s) cur h';
  let tinvade := popped.2 in
  let s := set_tpoints tp s in
  ts ← seti (throat_IP_inv_seq s) tinvade (_tseq s);
  let s := set_throat_IP_inv_seq ts s in
  let s := set_seq_log (seq_log s ++ [(Throat tinvade, _tseq s)]) s in
  s ← (if timing I then
         tt ← seti (throat_IP_inv_time s) tinvade (_sim_time s);
         vc ← getc (vol_coef s) cur;
         tv ← _Tvol_coef I !! tinvade;
         l ← setc (vol_coef s) cur (vc - tv)%Q;
         Some (set_vol_coef l (set_throat_IP_inv_time tt s))
       else Some s);
  Some (tinvade, s).

(** The body of [if pores are from 2 different clusters]: merge cluster
    [maxCluster] into [_current_cluster]. *)
Definition merge_clusters (maxCluster : nat) (s : IP) : option IP :=
  let cur := _current_cluster s in
  (* update the cluster transform; relabel all pores and throats *)
  let s := set_transform (relabel maxCluster cur (transform s)) s in
  let s := set_pore_IP_cluster_final
             (relabel maxCluster cur (pore_IP_cluster_final s)) s in
  let s := set_throat_IP_cluster_final
             (relabel maxCluster cur (throat_IP_cluster_final s)) s in
  (* append the list of throats for the other cluster *)
  l1 ← getc (_tlists s) cur;
  l2 ← getc (_tlists s) maxCluster;
  tl ← setc (_tlists s) cur (l1 ++ l2);
  tl ← setc tl maxCluster [];
  let s := set_tlists tl s in
  (* merge the heaps of throat information *)
  h1 ← getc (_tpoints s) cur;
  h2 ← getc (_tpoints s) maxCluster;
  tp ← setc (_tpoints s) cur (heapq.merge h1 h2);
  let s := set_tpoints tp s in
  s ← (if timing I then
         a ← getc (vol_coef s) cur; b ← getc (vol_coef s) maxCluster;
         vc ← setc (vol_coef s) cur (a + b)%Q;
         vc ← setc vc maxCluster 0%Q;
         a ← getc (pore_volume s) cur; b ← getc (pore_volume s) maxCluster;
         pv ← setc (pore_volume s) cur (a + b)%Q;
         pv ← setc pv maxCluster 0%Q;
         a ← getc (flow_rate s) cur; b ← getc (flow_rate s) maxCluster;
         fr ← setc (flow_rate s) cur (a + b)%Q;
         fr ← setc fr maxCluster 0%Q;
         Some (set_flow_rate fr (set_pore_volume pv (set_vol_coef vc s)))
       else Some s);
  (* check if either was inactive (broke through already) *)
  am ← getc (active s) maxCluster;
  ac ← getc (active s) cur;
  s ← (if decide (am + ac < 2) then
         a ← setc (active s) maxCluster 0;
         a ← setc a cur 0;
         let s := set_active a s in
         if timing I then
           ht ← setc (haines_time s) cur sentinel;
           Some (set_haines_time ht s)
         else Some s
       else Some s);
  (* update the old cluster's activity and time *)
  s ← (if timing I then
         ht ← setc (haines_time s) maxCluster sentinel;
         Some (set_haines_time ht s)
       else Some s);
  a ← setc (active s) maxCluster 0;
  let s := set_active a s in
  tp ← setc (_tpoints s) maxCluster [];
  Some (set_tpoints tp s).

(** The branch [if both pores are already invaded]. *)
Definition both_invaded (tinvade p0 p1 : nat) (s : IP) : option IP :=
  let s := set_NewPore None s in
  c0 ← pore_IP_cluster_final s !! p0;
  c1 ← pore_IP_cluster_final s !! p1;
  k0 ← getc (transform s) c0;
  k1 ← getc (transform s) c1;
  let s := set_current_cluster (k0 `min` k1) s in
  tf ← seti (throat_IP_cluster_final s) tinvade (_current_cluster s);
  let s := set_throat_IP_cluster_final tf s in
  if decide (c0 ≠ c1) then merge_clusters (k0 `max` k1) s else Some s.

(** The loop [for j in neighbors] that grows the frontier of the current
    cluster. *)
Fixpoint push_neighbors (neighbors : list nat) (s : IP) : option IP :=
  match neighbors with
  | [] => Some s
  | j :: neighbors' =>
      let cur := _current_cluster s in
      tl ← getc (_tlists s) cur;
      if decide (j ∉ tl) then
        h ← getc (_tpoints s) cur;
        pc ← Pc_entry I !! j;
        tp ← setc (_tpoints s) cur (heapq.heappush h (pc, j));
        tl' ← setc (_tlists s) cur (tl ++ [j]);
        let s := set_tlists tl' (set_tpoints tp s) in
        s ← (if timing I then
               vc ← getc (vol_coef s) cur;
               tv ← _Tvol_coef I !! j;
               l ← setc (vol_coef s) cur (vc + tv)%Q;
               Some (set_vol_coef l s)
             else Some s);
        push_neighbors neighbors' s
      else push_neighbors neighbors' s
  end.

(** The [else] branch: one of the two pores is not invaded yet. *)
Definition invade_pore (tinvade p0 p1 : nat) (s : IP) : option IP :=
  let cur := _current_cluster s in
  tf ← seti (throat_IP_cluster_final s) tinvade cur;
  let s := set_throat_IP_cluster_final tf s in
  c0 ← pore_IP_cluster_final s !! p0;
  c1 ← pore_IP_cluster_final s !! p1;
  NewPore ← (if decide (c0 = 0) then Some p0
             else if decide (c1 = 0) then Some p1 else None);
  let s := set_NewPore (Some NewPore) s in
  f ← seti (pore_IP_cluster_final s) NewPore cur;
  o ← seti (pore_IP_cluster_original s) NewPore cur;
  let s := set_pore_IP_cluster_original o (set_pore_IP_cluster_final f s) in
  s ← (if timing I then
         t ← seti (pore_IP_inv_time s) NewPore (_sim_time s);
         Some (set_pore_IP_inv_time t s)
       else Some s);
  q ← seti (pore_IP_inv_seq s) NewPore (_tseq s);
  let s := set_pore_IP_inv_seq q s in
  let s := set_seq_log (seq_log s ++ [(Pore NewPore, _tseq s)]) s in
  s ← (if timing I then
         a ← getc (pore_volume s) cur;
         b ← pore_volumes I !! NewPore;
         pv ← setc (pore_volume s) cur (a + b)%Q;
         Some (set_pore_volume pv s)
       else Some s);
  push_neighbors (find_neighbor_throats I [NewPore]) s.

(** The loop [while self['throat.IP_cluster_final'][top throat] > 0]:
    pop stale entries off the current cluster's heap. It is entered with
    a heap that is not empty and leaves through [break] when the heap
    runs empty. *)
Fixpoint cleanup_loop (fuel : nat) (s : IP) : option IP :=
  match fuel with
  | 0 => None
  | S fuel' =>
      let cur := _current_cluster s in
      h ← getc (_tpoints s) cur;
      top ← h !! 0;
      tf ← throat_IP_cluster_final s !! top.2;
      if decide (0 < tf) then
        '(popped, h') ← heapq.heappop h;
        tp ← setc (_tpoints s) cur h';
        let s := set_tpoints tp s in
        let tremove := popped.2 in
        s ← (if timing I then
               vc ← getc (vol_coef s) cur;
               tv ← _Tvol_coef I !! tremove;
               l ← setc (vol_coef s) cur (vc - tv)%Q;
               Some (set_vol_coef l s)
             else Some s);
        h ← getc (_tpoints s) cur;
        if decide (h = []) then
          a ← setc (active s) cur 0;
          Some (set_active a s)
        else cleanup_loop fuel' s
      else Some s
  end.

(** "Find next Haines Jump info" to the end of the method. *)
Definition next_haines (s : IP) : option IP :=
  let cur := _current_cluster s in
  h ← getc (_tpoints s) cur;
  s ← (if decide (h ≠ []) then
         s ← cleanup_loop (length h) s;
         h ← getc (_tpoints s) cur;
         match h with
         | [] => Some s
         | top :: _ =>
             ht ← setc (haines_throat s) cur top.2;
             let s := set_haines_throat ht s in
             if timing I then
               hp ← setc (haines_pressure s) cur top.1;
               vc ← getc (vol_coef s) cur;
               cv ← setc (cap_volume s) cur (top.1 * vc)%Q;
               Some (set_cap_volume cv (set_haines_pressure hp s))
             else
               (* the debug call that follows reads
                  [self._cluster_data['haines_time']], a key the setup
                  creates only when timing is on: KeyError *)
               None
         end
       else Some s);
  h ← getc (_tpoints s) cur;
  s ← (if decide (h = []) then
         a ← setc (active s) cur 0;
         let s := set_active a s in
         if timing I then
           ht ← setc (haines_time s) cur sentinel;
           Some (set_haines_time ht s)
         else Some s
       else Some s);
  if timing I then
    a ← getc (active s) cur;
    s ← (if decide (a = 1) then
           pv ← getc (pore_volume s) cur;
           cv ← getc (cap_volume s) cur;
           fr ← getc (flow_rate s) cur;
           ht ← setc (haines_time s) cur ((pv + cv) / fr)%Q;
           Some (set_haines_time ht s)
         else Some s);
    t ← getc (haines_time s) cur;
    if Qlt_le_dec t (_sim_time s) then
      ht ← setc (haines_time s) cur (_sim_time s);
      Some (set_haines_time ht s)
    else Some s
  else Some s.

Definition _do_one_inner_iteration (s : IP) : option IP :=
  '(tinvade, s) ← invade_throat s;
  '(p0, p1) ← find_connected_pores I tinvade;
  let invaded p := match pore_IP_cluster_final s !! p with
                   | Some c => bool_decide (c ≠ 0)
                   | None => false
                   end in
  s ← (if invaded p0 && invaded p1
       then both_invaded tinvade p0 p1 s
       else invade_pore tinvade p0 p1 s);
  next_haines s.

(** ** [_do_inner_iteration_stage] *)

(** Outcome of the round-robin [while condition == 0] loop: it found an
    active cluster, it raised, or it is still going round when the fuel
    is spent. [errors] counts the calls of [self._logger.error]. *)
Inductive scan_result :=
| Found (cluster : nat) (errors : nat)
| ScanIndexError
| Scanning (cnum loop_count errors : nat).

Fixpoint scan_loop (fuel : nat) (act : list nat)
    (clusterCount original_cluster cnum loop_count errors : nat)
    : scan_result :=
  match fuel with
  | 0 => Scanning cnum loop_count errors
  | S fuel' =>
      let cnum := if decide (clusterCount < cnum) then 1 else cnum in
      match getc act cnum with
      | None => ScanIndexError
      | Some a =>
          let loop_count :=
            if decide (cnum = original_cluster)
            then loop_count + 1 else loop_count in
          let errors :=
            if decide (1 < loop_count) then errors + 1 else errors in
          if decide (a = 1) then Found cnum errors
          else scan_loop fuel' act clusterCount original_cluster
                 (cnum + 1) loop_count errors
      end
  end.

(** "Cycle to the next active cluster", started as the code starts it. *)
Definition next_active_cluster (fuel : nat) (s : IP) : scan_result :=
  scan_loop fuel (active s) (_clusterCount s) (_current_cluster s)
    (_current_cluster s + 1) 0 0.

(** The cluster selection at the head of the stage. In untimed mode one
    full cycle ([_clusterCount] rounds) finds the next active cluster when
    there is one ([next_active_cluster_finds]); when there is none the
    Python loop
    never ends ([scan_loop_all_inactive]), and the stage has no result. *)
Definition select_cluster (s : IP) : option IP :=
  if timing I then
    m ← py_min (haines_time s);
    i ← py_index m (haines_time s);
    Some (set_sim_time m (set_current_cluster (1 + i) s))
  else
    match next_active_cluster (_clusterCount s) s with
    | Found c _ => Some (set_current_cluster c s)
    | _ => None
    end.

Definition _do_inner_iteration_stage (s : IP) : option IP :=
  let _plast := count_nonzero (pore_IP_cluster_final s) in
  s ← select_cluster s;
  s ← _do_one_inner_iteration s;
  let _pnew := count_nonzero (pore_IP_cluster_final s) in
  let s := set_tseq (_tseq s + 1) s in
  Some (if decide (_plast < _pnew) then set_pseq (_pseq s + 1) s else s).

(** ** [_condition_update]

    The progress percentage it also maintains only drives the progress
    printout; it is modelled apart, in [Progress]. *)
Definition _condition_update (s : IP) : option IP :=
  s ← (match _NewPore s with
       | Some p =>
           if decide (p ∈ outlets I) then
             match end_condition I with
             | breakthrough =>
                 a ← setc (active s) (_current_cluster s) 0;
                 let s := set_active a s in
                 if timing I then
                   ht ← setc (haines_time s) (_current_cluster s) sentinel;
                   Some (set_haines_time ht s)
                 else Some s
             | total => Some (set_brkevent (_brkevent s ++ [p]) s)
             end
           else Some s
       | None => Some s
       end);
  Some (if decide (sum_list (active s) = 0)
        then set_condition false s else s).

Definition _do_one_outer_iteration (s : IP) : option IP :=
  s ← _do_inner_iteration_stage s;
  s ← _condition_update s;
  Some (set_counter (_counter s + 1) s).

(** [while self._condition: self._do_one_outer_iteration()], at most
    [fuel] rounds. *)
Fixpoint outer_loop (fuel : nat) (s : IP) : option IP :=
  match fuel with
  | 0 => Some s
  | S fuel' =>
      if _condition s then
        s' ← _do_one_outer_iteration s; outer_loop fuel' s'
      else Some s
  end.

(** [_do_outer_iteration_stage] up to the end of the [while] loop. *)
Definition run_events (fuel : nat) : option IP :=
  s ← _setup_for_IP initial;
  s ← _condition_update s;
  outer_loop fuel s.

End Engine.

(** ** The saturation pass ("Calculate Saturations") *)

Section SaturationPass.
Variable I : Inputs.

(** [sp.sum], numpy's sum of an array. The order in which it adds the
    entries depends on numpy's version and on the size of the array
    (pairwise summation), so it is left open here; on fewer than 8 entries
    it is [py_sum]. *)
Variable np_sum : list float64 → float64.

Definition v_total : float64 :=
  f64_add (np_sum (np_float64 <$> net_pore_volume I))
          (np_sum (np_float64 <$> net_throat_volume I)).

(** One round of [for i in range(1, self._tseq+1)], on
    [(sat, pore.IP_inv_sat, throat.IP_inv_sat)]. *)
Definition sat_step (pseq tseq : list nat) (i : nat)
    (acc : float64 * list float64 * list float64)
    : option (float64 * list float64 * list float64) :=
  let '(sat, psat, tsat) := acc in
  let inv_pores := where_eq i pseq in
  let inv_throats := where_eq i tseq in
  pv ← get_many (np_float64 <$> pore_volumes I) inv_pores;
  tv ← get_many (np_float64 <$> throat_volumes I) inv_throats;
  let new_sat := f64_div (f64_add (py_sum pv) (py_sum tv)) v_total in
  let sat := f64_add sat new_sat in
  psat ← set_many psat inv_pores sat;
  tsat ← set_many tsat inv_throats sat;
  Some (sat, psat, tsat).

Fixpoint sat_loop (pseq tseq : list nat) (rng : list nat)
    (acc : float64 * list float64 * list float64)
    : option (float64 * list float64 * list float64) :=
  match rng with
  | [] => Some acc
  | i :: rng' => acc' ← sat_step pseq tseq i acc; sat_loop pseq tseq rng' acc'
  end.

(** The arrays [pore.IP_inv_sat] and [throat.IP_inv_sat] the pass leaves. *)
Definition saturations (s : IP) : option (list float64 * list float64) :=
  r ← sat_loop (pore_IP_inv_seq s) (throat_IP_inv_seq s) (seq 1 (_tseq s))
        (f64_of_Z 0, replicate (num_pores I) (f64_of_Z 1),
         replicate (num_throats I) (f64_of_Z 1));
  Some (r.1.2, r.2).

End SaturationPass.

(** ** [update_results]: the occupancy query *)

(** [max] of a non-empty integer array; ValueError when empty. *)
Definition py_max (l : list nat) : option nat :=
  match l with
  | [] => None
  | x :: l' => Some (foldl Nat.max x l')
  end.

(** [arr[mask]] *)
Fixpoint select {A} (mask : list bool) (l : list A) : list A :=
  match mask, l with
  | b :: mask', x :: l' => if b then x :: select mask' l' else select mask' l'
  | _, _ => []
  end.

(** The sequence cutoff [update_results] works with, from its arguments
    [IPseq] and [IPsat]. *)
Definition cutoff (s : IP) (pore_IP_inv_sat : list float64)
    (IPseq : option nat) (IPsat : option float64) : option nat :=
  match IPseq with
  | Some n => Some n
  | None =>
      match IPsat with
      | Some x =>
          let sat_pores := (λ v, f64_le v x) <$> pore_IP_inv_sat in
          if decide (length (filter (λ b, b = true) sat_pores) = 0) then Some 0
          else py_max (select sat_pores (pore_IP_inv_seq s))
      | None => Some (_tseq s)
      end
  end.

(** The masks [pore.invaded] and [throat.invaded]. *)
Definition invaded_mask (IPseq : nat) (inv_seq : list nat) : list bool :=
  (λ q, bool_decide (0 < q) && bool_decide (q ≤ IPseq)) <$> inv_seq.

Definition update_results (s : IP) (pore_IP_inv_sat : list float64)
    (IPseq : option nat) (IPsat : option float64)
    : option (list bool * list bool) :=
  n ← cutoff s pore_IP_inv_sat IPseq IPsat;
  Some (invaded_mask n (pore_IP_inv_seq s),
        invaded_mask n (throat_IP_inv_seq s)).

(** ** The progress percentage

    The part of [_setup_for_IP] and [_condition_update] that keeps
    [_percent_complete] and decides when a progress line is printed. The
    distances come out of [np.sqrt]; they are taken here as given numbers.
    A numpy float division yields [nan] or an infinity when the divisor is
    zero, and every comparison with [nan] is false. *)
Module Progress.

Inductive npfloat := Fin (q : Q) | PInf | NInf | NaN.

(** [x / y] on numpy floats *)
Definition np_divide (x y : Q) : npfloat :=
  if Qeq_bool y 0 then
    if Qeq_bool x 0 then NaN
    else if Qle_bool 0 x then PInf else NInf
  else Fin (x / y).

(** round half to even, to an integer *)
Definition rint (q : Q) : Z :=
  let f := Qfloor q in
  match Qcompare (q - inject_Z f) (1 # 2) with
  | Lt => f
  | Gt => (f + 1)%Z
  | Eq => if Z.even f then f else (f + 1)%Z
  end.

(** [np.round(v * 100, decimals = 1)] *)
Definition percent (v : npfloat) : npfloat :=
  match v with
  | Fin q => Fin (inject_Z (rint (q * 100 * 10)) / 10)
  | other => other
  end.

(** [a > b] *)
Definition np_gt (a : npfloat) (b : Q) : bool :=
  match a with
  | Fin q => negb (Qle_bool q b)
  | PInf => true
  | NInf | NaN => false
  end.

Record state := mk {
  _initial_distance : Q;
  _current_distance : Q;
  _percent_complete : npfloat;
  _rough_complete : npfloat;
  reports : list npfloat      (* the percentages printed so far *)
}.

(** End of [_setup_for_IP]: "Calculate the distance between the inlet and
    outlet pores" onwards. *)
Definition setup (initial_distance : Q) : state :=
  let current := initial_distance in
  mk initial_distance current
     (percent (np_divide (initial_distance - current) initial_distance))
     (Fin 0) [Fin 0].

(** [np.floor(p / incr) * incr] *)
Definition rough (p : npfloat) (incr : Q) : npfloat :=
  match p with
  | Fin q =>
      match np_divide q incr with
      | Fin d => Fin (inject_Z (Qfloor d) * incr)
      | other => other
      end
  | other => other
  end.

(** The breakthrough branch of [_condition_update] and the report that
    follows it, for a new pore at distance [newpore_distance] from the
    outlets. *)
Definition condition_update (rough_increment : Q) (newpore_distance : Q)
    (st : state) : state :=
  let st :=
    if Qlt_le_dec newpore_distance (_current_distance st) then
      mk (_initial_distance st) newpore_distance
         (percent (np_divide (_initial_distance st - newpore_distance)
                     (_initial_distance st)))
         (_rough_complete st) (reports st)
    else st in
  match _rough_complete st with
  | Fin r =>
      if np_gt (_percent_complete st) (r + rough_increment) then
        let r' := rough (_percent_complete st) rough_increment in
        mk (_initial_distance st) (_current_distance st)
           (_percent_complete st) r' (reports st ++ [r'])
      else st
  | _ => st
  end.

End Progress.

(** ** Example networks *)

(** Three pores in a triangle, throats [0:(0,2)], [1:(1,2)], [2:(0,1)] with
    entry pressures 1, 2, 3; two inlet clusters, at pores 0 and 1; pore 2 is
    the outlet. Pore volumes 1, 1, 2; throats of diameter 1, without
    volume. *)
Definition triangle (tm : bool) (ec : EndCondition) : Inputs :=
  mkInputs 3 [(0, 2); (1, 2); (0, 1)]
    [1; 1; 2]%Q [0; 0; 0]%Q [1; 1; 2]%Q [0; 0; 0]%Q
    [1; 1; 1]%Q [1; 2; 3]%Q
    [[0]; [1]] [2] ec tm 1%Q.

(** A chain [0 - 2 - 3 - 1] for timed breakthrough runs: inlets at pores 0
    and 1, outlet pore 2, and inlet pores so large that the first event
    comes later than the stored time of a finished cluster. *)
Definition huge : Q := 324518553658426726783156020576256 # 1.  (* 2^108 *)
Definition chain : Inputs :=
  mkInputs 4 [(0, 2); (2, 3); (1, 3)]
    [huge; 3 * huge; 1; 1]%Q [0; 0; 0]%Q [huge; 3 * huge; 1; 1]%Q [0; 0; 0]%Q
    [0; 0; 0]%Q [1; 2; 3]%Q
    [[0]; [1]] [2] breakthrough true 1%Q.

(** A chain [0 - 1 - 2] with one inlet cluster at pore 0 and pore volumes
    0.2, 0.3, 0.2, for a timed run to the end. *)
Definition decimal_chain : Inputs :=
  mkInputs 3 [(0, 1); (1, 2)]
    [1 # 5; 3 # 10; 1 # 5]%Q [0; 0]%Q [1 # 5; 3 # 10; 1 # 5]%Q [0; 0]%Q
    [0; 0]%Q [1; 2]%Q
    [[0]] [2] total true 1%Q.

(** Three inlet clusters, at pores 0, 1 and 2, for a timed breakthrough
    run: throats [0:(0,3)], [1:(1,3)], [2:(3,4)], [3:(2,4)], outlet pore 3.
    Cluster 1 breaks through first, cluster 2 then merges with it, and the
    third cluster's first event is due at [huge], later than the stored
    time of a finished cluster. *)
Definition fork : Inputs :=
  mkInputs 5 [(0, 3); (1, 3); (3, 4); (2, 4)]
    [1; 2; huge; 1; 1]%Q [0; 0; 0; 0]%Q [1; 2; huge; 1; 1]%Q [0; 0; 0; 0]%Q
    [0; 0; 0; 0]%Q [1; 2; 3; 4]%Q
    [[0]; [1]; [2]] [3] breakthrough true 1%Q.

(** Two separate pairs of pores, [0 - 2] and [1 - 3], each with an inlet
    cluster, for an untimed run: every event empties the heap of its
    cluster. *)
Definition pairs : Inputs :=
  mkInputs 4 [(0, 2); (1, 3)]
    [1; 1; 1; 1]%Q [0; 0]%Q [1; 1; 1; 1]%Q [0; 0]%Q
    [1; 1]%Q [1; 2]%Q
    [[0]; [1]] [2; 3] total false 1%Q.

(** The second event of a run on the triangle, up to the point where
    [both_invaded] calls [merge_clusters]: cluster 2 has popped throat 1,
    whose two pores belong to clusters 2 and 1. *)
Definition at_merge (tm : bool) (ec : EndCondition) : option IP :=
  s ← run_events (triangle tm ec) 1;
  s ← select_cluster (triangle tm ec) s;
  '(t, s) ← invade_throat (triangle tm ec) s;
  let s := set_current_cluster 1 (set_NewPore None s) in
  tf ← seti (throat_IP_cluster_final s) t 1;
  Some (set_throat_IP_cluster_final tf s).

(** The same event right after the merge, before the cleanup. *)
Definition after_merge (tm : bool) (ec : EndCondition) : option IP :=
  s ← at_merge tm ec; merge_clusters (triangle tm ec) 2 s.

(** The states of the example runs that the lemmas below look at. *)
Definition the_state (o : option IP) : IP := default initial o.

Definition triangle_at_merge : IP :=
  Eval vm_compute in the_state (at_merge true breakthrough).
Definition triangle_after_merge : IP :=
  Eval vm_compute in the_state (after_merge true breakthrough).

Definition triangle_timed_setup : IP :=
  Eval vm_compute in the_state (_setup_for_IP (triangle true total) initial).
Definition triangle_timed_start : IP :=
  Eval vm_compute in the_state (run_events (triangle true total) 0).
Definition triangle_timed_first : IP :=
  Eval vm_compute in the_state (run_events (triangle true total) 1).

(** The first event of that run: cluster 1 selected, and its throat
    popped and marked. *)
Definition triangle_timed_selected : IP :=
  Eval vm_compute in
    the_state (select_cluster (triangle true total) triangle_timed_start).
Definition triangle_timed_popped : IP :=
  Eval vm_compute in
    the_state (snd <$> invade_throat (triangle true total)
                         triangle_timed_selected).

(** The second event of the timed run on the triangle, a merge: the state
    in which [_do_one_inner_iteration] starts, cluster 2 selected, and the
    state it leaves. *)
Definition triangle_before_merge : IP :=
  Eval vm_compute in
    the_state (select_cluster (triangle true total) triangle_timed_first).
Definition triangle_merged : IP :=
  Eval vm_compute in
    the_state (_do_one_inner_iteration (triangle true total)
                 triangle_before_merge).

(** The ends of the timed runs, and the saturations of the pass that
    follows them. *)
Definition triangle_total_end : IP :=
  Eval vm_compute in the_state (run_events (triangle true total) 10).
Definition triangle_breakthrough_end : IP :=
  Eval vm_compute in the_state (run_events (triangle true breakthrough) 10).
Definition triangle_total_sat : list float64 * list float64 :=
  Eval vm_compute in
    default ([], [])
      (saturations (triangle true total) py_sum triangle_total_end).
Definition decimal_chain_end : IP :=
  Eval vm_compute in the_state (run_events decimal_chain 10).
Definition decimal_chain_sat : list float64 * list float64 :=
  Eval vm_compute in
    default ([], []) (saturations decimal_chain py_sum decimal_chain_end).

(** The untimed run on the pairs after its first event. *)
Definition pairs_first : IP :=
  Eval vm_compute in the_state (run_events pairs 1).

(** ** Notions the properties are stated with *)

(** The largest sequence number assigned to a pore or a throat. *)
Definition max_seq (s : IP) : nat :=
  max_list (pore_IP_inv_seq s ++ throat_IP_inv_seq s).

(** [pops h discarded h']: successive [heappop]s on [h] return the entries
    [discarded], in this order, and leave [h']. *)
Inductive pops : list item → list item → list item → Prop :=
| pops_nil h : pops h [] h
| pops_cons h x h1 discarded h' :
    heapq.heappop h = Some (x, h1) → pops h1 discarded h' →
    pops h (x :: discarded) h'.

(** What the entries of the current cluster's heap [h] must be for the
    cleanup loop to index its arrays safely. *)
Definition cleanup_ready (I : Inputs) (s : IP) (h : list item) : Prop :=
  is_Some (getc (active s) (_current_cluster s))
  ∧ (timing I = true → is_Some (getc (vol_coef s) (_current_cluster s)))
  ∧ Forall (λ it : item,
              is_Some (throat_IP_cluster_final s !! it.2)
              ∧ (timing I = true → is_Some (_Tvol_coef I !! it.2))) h.

(** What the cleanup loop has done when it leaves state [s'], started in
    [s] on the heap [h]: it popped the entries [discarded], all of throats
    invaded already, and left [h'], empty or with a throat on top that is
    not invaded; with timing on, the volume coefficients of the discarded
    entries are gone from the cluster's [vol_coef]. *)
Definition cleaned (I : Inputs) (s : IP) (h : list item) (s' : IP)
    (discarded h' : list item) : Prop :=
  pops h discarded h'
  ∧ getc (_tpoints s') (_current_cluster s) = Some h'
  ∧ Forall (λ it : item, ∃ c, throat_IP_cluster_final s !! it.2 = Some c
                              ∧ 0 < c) discarded
  ∧ (h' = [] ∨ ∃ top, h' !! 0 = Some top
                      ∧ throat_IP_cluster_final s !! top.2 = Some 0)
  ∧ (if timing I then
       ∃ vc vc' tvs,
         getc (vol_coef s) (_current_cluster s) = Some vc
         ∧ getc (vol_coef s') (_current_cluster s) = Some vc'
         ∧ get_many (_Tvol_coef I) (discarded.*2) = Some tvs
         ∧ (vc' == vc - Qsum tvs)%Q
     else vol_coef s' = vol_coef s)
  ∧ throat_IP_cluster_final s' = throat_IP_cluster_final s
  ∧ _current_cluster s' = _current_cluster s.

(** [later I s s']: the run reaches [s'] from [s], through the rest of an
    event ([next_haines]), a termination check or whole iterations. *)
Inductive later (I : Inputs) : IP → IP → Prop :=
| later_refl s : later I s s
| later_next_haines s s' s'' :
    next_haines I s = Some s' → later I s' s'' → later I s s''
| later_condition_update s s' s'' :
    _condition_update I s = Some s' → later I s' s'' → later I s s''
| later_iteration s s' s'' :
    _do_one_outer_iteration I s = Some s' → later I s' s'' → later I s s''.

(** The sequence numbers in the order they were assigned. *)
Definition seq_numbers (s : IP) : list nat := (seq_log s).*2.

(** What one event appends to the log at sequence number [k]: its throat
    and, when a pore is invaded through it, that pore, with the same
    number. *)
Inductive event_entries (k : nat) : list (elem * nat) → Prop :=
| event_throat t : event_entries k [(Throat t, k)]
| event_throat_pore t p : event_entries k [(Throat t, k); (Pore p, k)].

(** [events_from k log k']: [log] holds the entries of successive events,
    numbered [k], [k + 1], ..., [k' - 1]. *)
Inductive events_from : nat → list (elem * nat) → nat → Prop :=
| events_nil k : events_from k [] k
| events_cons k es log k' :
    event_entries k es → events_from (S k) log k' →
    events_from k (es ++ log) k'.

(** A list of numbers that starts at 1 and goes on with equal or next
    numbers. *)
Definition climbing (l : list nat) : Prop :=
  (∀ x, l !! 0 = Some x → x = 1)
  ∧ ∀ i a b, l !! i = Some a → l !! S i = Some b → b = a ∨ b = S a.

(** Every cluster's frontier holds each throat at most once: in its throat
    list, and in its heap, whose throats are all in the list. *)
Definition frontier_inv (s : IP) : Prop :=
  length (_tlists s) = length (_tpoints s)
  ∧ ∀ i tl h, _tlists s !! i = Some tl → _tpoints s !! i = Some h →
      NoDup tl ∧ NoDup h.*2 ∧ h.*2 ⊆ tl.

(** The event that starts in [s] is a merge: the throat it pops joins two
    invaded pores that carry different cluster numbers. *)
Definition merge_event (I : Inputs) (s : IP) : Prop :=
  ∃ t s1 p0 p1 c0 c1,
    invade_throat I s = Some (t, s1)
    ∧ find_connected_pores I t = Some (p0, p1)
    ∧ pore_IP_cluster_final s1 !! p0 = Some c0
    ∧ pore_IP_cluster_final s1 !! p1 = Some c1
    ∧ c0 ≠ 0 ∧ c1 ≠ 0 ∧ c0 ≠ c1.

(** No event of the first [n] iterations of the run is a merge. *)
Definition no_merge_so_far (I : Inputs) (n : nat) : Prop :=
  ∀ k sk sk', k < n → run_events I k = Some sk → _condition sk = true →
    select_cluster I sk = Some sk' → ¬ merge_event I sk'.

(** [deactivated l l']: the flags [l'] are the flags [l] with some of them
    set to 0. *)
Definition deactivated (l l' : list nat) : Prop :=
  length l' = length l ∧ ∀ j a, l' !! j = Some a → a = 0 ∨ l !! j = Some a.

(** The active flags at the head of the event loop: one flag per cluster,
    0 or 1, and not all 0 when the loop goes on. *)
Definition active_inv (s : IP) : Prop :=
  length (active s) = _clusterCount s
  ∧ Forall (λ a, a = 0 ∨ a = 1) (active s)
  ∧ (_condition s = true → sum_list (active s) ≠ 0).

(** The clock is behind every pending event time and ahead of every time
    stamp written so far. *)
Definition clock_inv (s : IP) : Prop :=
  Forall (λ t, (_sim_time s <= t)%Q) (haines_time s)
  ∧ Forall (λ t, (t <= _sim_time s)%Q) (throat_IP_inv_time s)
  ∧ Forall (λ t, (t <= _sim_time s)%Q) (pore_IP_inv_time s).

(** * Properties *)

(** ** Inverting the option monad *)

Ltac inv_opt :=
  repeat match goal with
  | H : Some _ = Some _ |- _ => simplify_eq
  | H : None = Some _ |- _ => discriminate H
  | H : mbind _ ?e = Some _ |- _ =>
      let E := fresh "E" in destruct e eqn:E; simpl in H; [|discriminate H]
  | H : (match ?e with _ => _ end) = Some _ |- _ =>
      let E := fresh "E" in destruct e eqn:E; simpl in H; try discriminate H
  end.

(** ** Indexing *)

Section IndexLemmas.
Context {A : Type}.
Implicit Types (l : list A) (i c : nat) (v : A).

Lemma seti_Some l i v l' :
  seti l i v = Some l' → l' = <[i := v]> l ∧ i < length l.
Proof. unfold seti. case_decide; naive_solver. Qed.

Lemma seti_length l i v l' : seti l i v = Some l' → length l' = length l.
Proof. intros [-> _]%seti_Some. apply length_insert. Qed.

Lemma seti_is_Some l i v : i < length l → seti l i v = Some (<[i := v]> l).
Proof. intros. unfold seti. by rewrite decide_True. Qed.

Lemma seti_lookup l i v l' : seti l i v = Some l' → l' !! i = Some v.
Proof. intros [-> ?]%seti_Some. by apply list_lookup_insert_eq. Qed.

Lemma seti_lookup_ne l i j v l' :
  seti l i v = Some l' → i ≠ j → l' !! j = l !! j.
Proof. intros [-> ?]%seti_Some ?. by apply list_lookup_insert_ne. Qed.

Lemma pyix_length l l' c : length l' = length l → pyix l' c = pyix l c.
Proof. intros H. destruct c; simpl; congruence. Qed.

Lemma setc_length l c v l' : setc l c v = Some l' → length l' = length l.
Proof. apply seti_length. Qed.

Lemma setc_getc l c v l' : setc l c v = Some l' → getc l' c = Some v.
Proof.
  intros H. unfold getc. rewrite (pyix_length l l' c).
  - by eapply seti_lookup.
  - by eapply setc_length.
Qed.

Lemma setc_getc_ne l c d v l' :
  setc l c v = Some l' → pyix l c ≠ pyix l d → getc l' d = getc l d.
Proof.
  intros H Hne. unfold getc. rewrite (pyix_length l l' d).
  - by eapply seti_lookup_ne.
  - by eapply setc_length.
Qed.

Lemma getc_pos l c : 0 < c → getc l c = l !! (c - 1).
Proof. destruct c; [lia|]. intros _. unfold getc. simpl. f_equal. lia. Qed.

Lemma set_many_length l idxs v : ∀ l',
  set_many l idxs v = Some l' → length l' = length l.
Proof.
  revert l. induction idxs as [|i idxs IH]; intros l l' H; simpl in H.
  - by simplify_eq.
  - inv_opt. apply IH in H. apply seti_length in E. congruence.
Qed.

Lemma set_many_lookup_ne l idxs v j : ∀ l',
  set_many l idxs v = Some l' → j ∉ idxs → l' !! j = l !! j.
Proof.
  revert l. induction idxs as [|i idxs IH]; intros l l' H Hj; simpl in H.
  - by simplify_eq.
  - inv_opt. apply not_elem_of_cons in Hj as [? ?].
    rewrite (IH _ _ H) by done. by eapply seti_lookup_ne.
Qed.

Lemma set_many_Forall (P : A → Prop) l idxs v : ∀ l',
  set_many l idxs v = Some l' → P v → Forall P l → Forall P l'.
Proof.
  revert l. induction idxs as [|i idxs IH]; intros l l' H Hv Hl; simpl in H.
  - by simplify_eq.
  - inv_opt. eapply IH; [done..|].
    apply seti_Some in E as [-> _]. by apply Forall_insert.
Qed.

Lemma set_many_is_Some l idxs v :
  Forall (λ i, i < length l) idxs → is_Some (set_many l idxs v).
Proof.
  revert l. induction idxs as [|i idxs IH]; intros l H; simpl.
  - by eexists.
  - apply Forall_cons in H as [Hi H].
    rewrite seti_is_Some by done. simpl. apply IH.
    by rewrite length_insert.
Qed.

Lemma get_many_is_Some l idxs :
  Forall (λ i, i < length l) idxs → is_Some (get_many l idxs).
Proof.
  induction idxs as [|i idxs IH]; intros H; simpl.
  - by eexists.
  - apply Forall_cons in H as [Hi H].
    destruct (lookup_lt_is_Some_2 l i Hi) as [x ->]. simpl.
    destruct (IH H) as [xs ->]. by eexists.
Qed.
End IndexLemmas.

Lemma where_eq_from_spec c l : ∀ i j,
  j ∈ where_eq_from i c l ↔ i ≤ j ∧ l !! (j - i) = Some c.
Proof.
  induction l as [|v l IH]; intros i j; simpl.
  - rewrite elem_of_nil. split; [done|]. intros [_ H].
    by rewrite lookup_nil in H.
  - case_decide as Hv.
    + rewrite elem_of_cons, IH. subst v. split.
      * intros [->|[? Hl]].
        -- split; [lia|]. by replace (i - i) with 0 by lia.
        -- split; [lia|]. by replace (j - i) with (S (j - S i)) by lia.
      * intros [? Hl]. destruct (decide (j = i)) as [->|]; [by left|right].
        split; [lia|]. by replace (j - i) with (S (j - S i)) in Hl by lia.
    + rewrite IH. split.
      * intros [? Hl]. split; [lia|].
        by replace (j - i) with (S (j - S i)) by lia.
      * intros [? Hl]. destruct (decide (j = i)) as [->|].
        -- replace (i - i) with 0 in Hl by lia. simpl in Hl. congruence.
        -- split; [lia|]. by replace (j - i) with (S (j - S i)) in Hl by lia.
Qed.

Lemma where_eq_spec c l j : j ∈ where_eq c l ↔ l !! j = Some c.
Proof.
  unfold where_eq. rewrite where_eq_from_spec.
  replace (j - 0) with j by lia. intuition lia.
Qed.

Lemma where_eq_lt c l : Forall (λ j, j < length l) (where_eq c l).
Proof.
  apply Forall_forall. intros j Hj%where_eq_spec. by eapply lookup_lt_Some.
Qed.

(** ** The round-robin scan *)

Lemma scan_loop_all_inactive fuel act n orig : ∀ cnum lc errs,
  length act = n → 0 < n → Forall (λ a, a ≠ 1) act → 1 ≤ cnum →
  ∃ cnum' lc' errs',
    scan_loop fuel act n orig cnum lc errs = Scanning cnum' lc' errs'
    ∧ errs ≤ errs'.
Proof.
  induction fuel as [|fuel IH]; intros cnum lc errs Hlen Hn Hact Hc; simpl.
  - eauto.
  - set (cnum0 := if decide (n < cnum) then 1 else cnum).
    assert (1 ≤ cnum0 ≤ n) as Hr by (unfold cnum0; case_decide; lia).
    rewrite getc_pos by lia.
    destruct (lookup_lt_is_Some_2 act (cnum0 - 1)) as [a Ha]; [lia|].
    rewrite Ha.
    rewrite decide_False
      by (eapply (proj1 (Forall_forall _ _) Hact), list_elem_of_lookup_2, Ha).
    edestruct (IH (cnum0 + 1)) as (c' & l' & e' & -> & ?); [done..|lia|].
    do 3 eexists. split; [done|]. case_decide; lia.
Qed.

(** With an active cluster [k] places ahead, the scan settles on an active
    cluster within [k + 1] rounds. *)
Lemma scan_loop_finds_ahead fuel act n orig : ∀ cnum lc errs k,
  length act = n → 1 ≤ cnum ≤ n + 1 → k < fuel →
  act !! (((if decide (n < cnum) then 1 else cnum) - 1 + k) `mod` n) = Some 1 →
  ∃ c e, scan_loop fuel act n orig cnum lc errs = Found c e
         ∧ getc act c = Some 1.
Proof.
  induction fuel as [|fuel IH]; intros cnum lc errs k Hlen Hc Hk Hact; [lia|].
  simpl. set (cnum0 := if decide (n < cnum) then 1 else cnum) in *.
  assert (0 < n) as Hn.
  { destruct n; [|lia]. apply lookup_lt_Some in Hact. lia. }
  assert (1 ≤ cnum0 ≤ n) as Hr by (unfold cnum0; case_decide; lia).
  rewrite getc_pos by lia.
  destruct (lookup_lt_is_Some_2 act (cnum0 - 1)) as [a Ha]; [lia|].
  rewrite Ha. case_decide as Ha1.
  - subst a. do 2 eexists. split; [done|]. by rewrite getc_pos by lia.
  - destruct k as [|k].
    { rewrite Nat.add_0_r, Nat.mod_small in Hact by lia. congruence. }
    apply (IH _ _ _ k); [done|lia|lia|].
    rewrite <- Hact. case_decide.
    + assert (cnum0 = n) as -> by lia.
      replace (n - 1 + S k) with (1 - 1 + k + 1 * n) by lia.
      by rewrite Nat.Div0.mod_add.
    + by replace (cnum0 + 1 - 1 + k) with (cnum0 - 1 + S k) by lia.
Qed.

(** A start beyond the last cluster is taken back to cluster 1 by the first
    round. *)
Lemma scan_loop_wrap fuel act n orig cnum lc errs :
  0 < fuel → n < cnum →
  scan_loop fuel act n orig cnum lc errs
  = scan_loop fuel act n orig (n + 1) lc errs.
Proof.
  intros Hf Hc. destruct fuel as [|fuel]; [lia|]. simpl.
  rewrite (decide_True (P := n < cnum)) by lia.
  by rewrite (decide_True (P := n < n + 1)) by lia.
Qed.

(** A scan of at most one cycle passes the cluster it started from at most
    once, so it does not log the "No clusters active" error; the cluster it
    settles on is one of the clusters. [d] counts the rounds since the
    starting cluster was passed. *)
Lemma scan_loop_quiet act n orig : ∀ fuel cnum lc d c e,
  1 ≤ cnum →
  (lc = 0 ∧ fuel ≤ n)
  ∨ (lc = 1 ∧ 1 ≤ d ∧ d + fuel ≤ n ∧ 1 ≤ orig ≤ n
     ∧ ((if decide (n < cnum) then 1 else cnum) = orig + d
        ∨ (if decide (n < cnum) then 1 else cnum) + n = orig + d)) →
  scan_loop fuel act n orig cnum lc 0 = Found c e →
  e = 0 ∧ 1 ≤ c ≤ n.
Proof.
  induction fuel as [|fuel IH]; intros cnum lc d c e Hc Hlc H; simpl in H;
    [done|].
  set (c0 := if decide (n < cnum) then 1 else cnum) in *.
  assert (0 < n) as Hn by (destruct Hlc as [[_ ?]|(_ & ? & ? & _)]; lia).
  assert (1 ≤ c0 ≤ n) as Hr
    by (unfold c0; destruct (decide (n < cnum)); lia).
  assert ((if decide (n < c0 + 1) then 1 else c0 + 1) = c0 + 1
          ∨ (c0 = n ∧ (if decide (n < c0 + 1) then 1 else c0 + 1) = 1))
    as Hnext by (destruct (decide (n < c0 + 1)); lia).
  destruct (getc act c0) as [a|]; [|done].
  destruct Hlc as [[-> Hf]|(-> & Hd & Hdf & Ho & Hpos)].
  - destruct (decide (c0 = orig)) as [Heq|Hne]; simpl in H;
      (destruct (decide (a = 1)); [simplify_eq; split; [done|lia]|]).
    + apply (IH _ _ 1) in H; [done|lia|]. right.
      split_and!; try done; lia.
    + apply (IH _ _ 0) in H; [done|lia|]. left. lia.
  - rewrite (decide_False (P := c0 = orig)) in H by lia. simpl in H.
    destruct (decide (a = 1)); [simplify_eq; split; [done|lia]|].
    apply (IH _ _ (d + 1)) in H; [done|lia|]. right.
    split_and!; try done; lia.
Qed.

(** So a scan of one full cycle is enough whenever some cluster is active:
    this is the fuel [select_cluster] gives the loop. *)
Lemma next_active_cluster_finds (s : IP) c0 :
  length (active s) = _clusterCount s →
  active s !! c0 = Some 1 →
  ∃ c, next_active_cluster (_clusterCount s) s = Found c 0
       ∧ 1 ≤ c ≤ _clusterCount s
       ∧ getc (active s) c = Some 1.
Proof.
  intros Hlen Hc0. unfold next_active_cluster.
  set (n := _clusterCount s) in *.
  assert (c0 < n) as Hlt by (rewrite <- Hlen; by eapply lookup_lt_Some).
  assert (∃ cnum, 1 ≤ cnum ≤ n + 1
            ∧ scan_loop n (active s) n (_current_cluster s)
                (_current_cluster s + 1) 0 0
              = scan_loop n (active s) n (_current_cluster s) cnum 0 0)
    as (cnum & Hcnum & ->).
  { destruct (decide (n < _current_cluster s + 1)).
    - exists (n + 1). split; [lia|]. apply scan_loop_wrap; lia.
    - exists (_current_cluster s + 1). split; [lia|done]. }
  set (m := (if decide (n < cnum) then 1 else cnum) - 1).
  assert (m < n) as Hm by (unfold m; case_decide; lia).
  destruct (scan_loop_finds_ahead n (active s) n (_current_cluster s)
              cnum 0 0 ((c0 + n - m) `mod` n)) as (c & e & Hf & Hact);
    [done|lia|by apply Nat.mod_upper_bound; lia| |].
  { fold m. rewrite Nat.Div0.add_mod_idemp_r.
    replace (m + (c0 + n - m)) with (c0 + 1 * n) by lia.
    by rewrite Nat.Div0.mod_add, Nat.mod_small. }
  destruct (scan_loop_quiet (active s) n (_current_cluster s) n cnum 0 0
              c e) as [-> Hc]; [lia|left; lia|exact Hf|].
  by exists c.
Qed.

(** ** The cluster transform *)

Lemma relabel_length a b l : length (relabel a b l) = length l.
Proof. apply length_fmap. Qed.

Lemma getc_relabel a b l x :
  getc (relabel a b l) x = (λ v, if decide (v = a) then b else v) <$> getc l x.
Proof.
  unfold getc. rewrite (pyix_length l) by apply relabel_length.
  apply list_lookup_fmap.
Qed.

Lemma getc_elem_of {A} (l : list A) c v : getc l c = Some v → v ∈ l.
Proof. apply list_elem_of_lookup_2. Qed.

Lemma relabel_subseteq a b l : b ∈ l → relabel a b l ⊆ l.
Proof.
  intros Hb x (v & -> & Hv)%list_elem_of_fmap. by case_decide.
Qed.

Lemma relabel_retires a b l : a ≠ b → a ∉ relabel a b l.
Proof.
  intros Hab (v & Hv & _)%list_elem_of_fmap. case_decide; congruence.
Qed.

Section Transform.
Variable I : Inputs.

Lemma merge_clusters_transform m s s' :
  merge_clusters I m s = Some s' →
  transform s' = relabel m (_current_cluster s) (transform s).
Proof. intros H. unfold merge_clusters in H. inv_opt; reflexivity. Qed.

Lemma invade_throat_transform s t s' :
  invade_throat I s = Some (t, s') → transform s' = transform s.
Proof. intros H. unfold invade_throat in H. inv_opt; reflexivity. Qed.

Lemma both_invaded_transform t p0 p1 s s' :
  both_invaded I t p0 p1 s = Some s' → transform s' ⊆ transform s.
Proof.
  intros H. unfold both_invaded in H. inv_opt; [|done].
  apply merge_clusters_transform in H. rewrite H. simpl.
  apply relabel_subseteq.
  destruct (Nat.min_spec n1 n2) as [[_ ->]|[_ ->]]; by eapply getc_elem_of.
Qed.

Lemma push_neighbors_transform ns : ∀ s s',
  push_neighbors I ns s = Some s' → transform s' = transform s.
Proof.
  induction ns as [|j ns IH]; intros s s' H; simpl in H; inv_opt;
    try done; by rewrite (IH _ _ H).
Qed.

Lemma invade_pore_transform t p0 p1 s s' :
  invade_pore I t p0 p1 s = Some s' → transform s' = transform s.
Proof.
  intros H. unfold invade_pore in H.
  inv_opt; by rewrite (push_neighbors_transform _ _ _ H).
Qed.

Lemma cleanup_loop_transform fuel : ∀ s s',
  cleanup_loop I fuel s = Some s' → transform s' = transform s.
Proof.
  induction fuel as [|fuel IH]; intros s s' H; simpl in H; inv_opt;
    try done; by rewrite (IH _ _ H).
Qed.

Lemma next_haines_transform s s' :
  next_haines I s = Some s' → transform s' = transform s.
Proof.
  intros H. unfold next_haines in H.
  inv_opt;
    repeat match goal with
    | H : cleanup_loop _ _ _ = Some _ |- _ =>
        apply cleanup_loop_transform in H
    end; simpl in *; congruence.
Qed.

Lemma select_cluster_transform s s' :
  select_cluster I s = Some s' → transform s' = transform s.
Proof. intros H. unfold select_cluster in H. inv_opt; reflexivity. Qed.

Lemma _condition_update_transform s s' :
  _condition_update I s = Some s' → transform s' = transform s.
Proof.
  intros H. unfold _condition_update in H.
  inv_opt; by repeat case_match.
Qed.

Lemma _do_one_inner_iteration_transform s s' :
  _do_one_inner_iteration I s = Some s' → transform s' ⊆ transform s.
Proof.
  intros H. unfold _do_one_inner_iteration in H. inv_opt.
  all: apply next_haines_transform in H; rewrite H.
  all: match goal with
       | H : invade_throat _ _ = Some _ |- _ =>
           apply invade_throat_transform in H; rewrite <- H
       end.
  - by eapply both_invaded_transform.
  - by erewrite invade_pore_transform.
Qed.

Lemma _do_one_outer_iteration_transform s s' :
  _do_one_outer_iteration I s = Some s' → transform s' ⊆ transform s.
Proof.
  intros H. unfold _do_one_outer_iteration, _do_inner_iteration_stage in H.
  inv_opt.
  repeat match goal with
  | H : select_cluster _ _ = Some _ |- _ =>
      apply select_cluster_transform in H
  | H : _do_one_inner_iteration _ _ = Some _ |- _ =>
      apply _do_one_inner_iteration_transform in H
  | H : _condition_update _ _ = Some _ |- _ =>
      apply _condition_update_transform in H
  end.
  simpl.
  case_match; simpl in *;
    match goal with
    | H1 : transform ?x = transform ?y, H2 : transform ?z = transform s
      |- transform ?x ⊆ _ => by rewrite H1, <- H2
    end.
Qed.

Lemma outer_loop_transform fuel : ∀ s s',
  outer_loop I fuel s = Some s' → transform s' ⊆ transform s.
Proof.
  induction fuel as [|fuel IH]; intros s s' H; simpl in H; inv_opt;
    try done.
  etrans; [by eapply IH|]. by apply _do_one_outer_iteration_transform.
Qed.

Lemma later_transform s s' : later I s s' → transform s' ⊆ transform s.
Proof.
  induction 1 as [|? ? ? H1 _ IH|? ? ? H1 _ IH|? ? ? H1 _ IH]; [done|..];
    (etrans; [exact IH|]).
  - by rewrite (next_haines_transform _ _ H1).
  - by rewrite (_condition_update_transform _ _ H1).
  - by apply _do_one_outer_iteration_transform.
Qed.
End Transform.

(** ** The saturation pass *)

Section Saturation.
Variable I : Inputs.
Variable np_sum : list float64 → float64.

Lemma sat_step_untouched pseq tseq i sat psat tsat sat' psat' tsat' :
  sat_step I np_sum pseq tseq i (sat, psat, tsat) = Some (sat', psat', tsat') →
  (∀ p, pseq !! p ≠ Some i → psat' !! p = psat !! p)
  ∧ (∀ t, tseq !! t ≠ Some i → tsat' !! t = tsat !! t).
Proof.
  intros H. unfold sat_step in H. inv_opt.
  split; intros j Hj; (eapply set_many_lookup_ne; [done|]);
    by rewrite where_eq_spec.
Qed.

Lemma sat_loop_cons pseq tseq i rng acc :
  sat_loop I np_sum pseq tseq (i :: rng) acc
  = sat_step I np_sum pseq tseq i acc ≫= sat_loop I np_sum pseq tseq rng.
Proof. reflexivity. Qed.

Lemma sat_loop_untouched pseq tseq rng : ∀ sat psat tsat sat' psat' tsat',
  sat_loop I np_sum pseq tseq rng (sat, psat, tsat)
  = Some (sat', psat', tsat') →
  (∀ p q, pseq !! p = Some q → q ∉ rng → psat' !! p = psat !! p)
  ∧ (∀ t q, tseq !! t = Some q → q ∉ rng → tsat' !! t = tsat !! t).
Proof.
  induction rng as [|i rng IH]; intros sat psat tsat sat' psat' tsat' H.
  - simpl in H. by simplify_eq.
  - rewrite sat_loop_cons in H.
    destruct (sat_step I np_sum pseq tseq i (sat, psat, tsat))
      as [[[sat1 psat1] tsat1]|] eqn:E; [simpl in H|done].
    apply sat_step_untouched in E as [Hp Ht].
    apply IH in H as [Hp' Ht'].
    split; intros j q Hj [Hi Hq]%not_elem_of_cons.
    + rewrite (Hp' _ _ Hj Hq). apply Hp. congruence.
    + rewrite (Ht' _ _ Hj Hq). apply Ht. congruence.
Qed.

Lemma sat_step_is_Some pseq tseq i sat psat tsat :
  length pseq ≤ length (pore_volumes I) → length pseq ≤ length psat →
  length tseq ≤ length (throat_volumes I) → length tseq ≤ length tsat →
  ∃ sat' psat' tsat',
    sat_step I np_sum pseq tseq i (sat, psat, tsat)
    = Some (sat', psat', tsat')
    ∧ length psat' = length psat ∧ length tsat' = length tsat.
Proof.
  intros Hpv Hps Htv Hts. unfold sat_step.
  destruct (get_many_is_Some (np_float64 <$> pore_volumes I)
              (where_eq i pseq)) as [pv ->].
  { eapply Forall_impl; [apply where_eq_lt|]. simpl. intros j Hj.
    rewrite length_fmap. lia. }
  destruct (get_many_is_Some (np_float64 <$> throat_volumes I)
              (where_eq i tseq)) as [tv ->].
  { eapply Forall_impl; [apply where_eq_lt|]. simpl. intros j Hj.
    rewrite length_fmap. lia. }
  simpl.
  edestruct (set_many_is_Some psat (where_eq i pseq)) as [psat' Hp].
  { eapply Forall_impl; [apply where_eq_lt|]. simpl. lia. }
  rewrite Hp. simpl.
  edestruct (set_many_is_Some tsat (where_eq i tseq)) as [tsat' Ht].
  { eapply Forall_impl; [apply where_eq_lt|]. simpl. lia. }
  rewrite Ht. simpl. do 3 eexists. split; [done|].
  split; by eapply set_many_length.
Qed.

Lemma sat_loop_is_Some pseq tseq rng : ∀ sat psat tsat,
  length pseq ≤ length (pore_volumes I) → length pseq ≤ length psat →
  length tseq ≤ length (throat_volumes I) → length tseq ≤ length tsat →
  ∃ sat' psat' tsat',
    sat_loop I np_sum pseq tseq rng (sat, psat, tsat)
    = Some (sat', psat', tsat')
    ∧ length psat' = length psat ∧ length tsat' = length tsat.
Proof.
  induction rng as [|i rng IH]; intros sat psat tsat Hpv Hps Htv Hts.
  - by do 3 eexists.
  - rewrite sat_loop_cons.
    destruct (sat_step_is_Some pseq tseq i sat psat tsat)
      as (sat' & psat' & tsat' & -> & Hp & Ht); [done..|].
    simpl. rewrite <- Hp, <- Ht. apply IH; lia.
Qed.

(** The pass runs to its end on arrays of the sizes the network gives, and
    leaves arrays of these sizes. *)
Lemma saturations_is_Some s :
  length (pore_IP_inv_seq s) = num_pores I →
  length (throat_IP_inv_seq s) = num_throats I →
  length (pore_volumes I) = num_pores I →
  length (throat_volumes I) = num_throats I →
  ∃ psat tsat, saturations I np_sum s = Some (psat, tsat)
               ∧ length psat = num_pores I ∧ length tsat = num_throats I.
Proof.
  intros Hp Ht Hpv Htv. unfold saturations.
  edestruct (sat_loop_is_Some (pore_IP_inv_seq s) (throat_IP_inv_seq s)
               (seq 1 (_tseq s))) as (sat & psat & tsat & -> & H1 & H2);
    [..|exists psat, tsat; split; [done|]; rewrite H1, H2];
    rewrite ?length_replicate; lia.
Qed.

(** C10. After the saturation pass every pore and every throat that was
    never invaded ([IP_inv_seq = 0]) carries [IP_inv_sat = 1.0], the value
    the arrays were created with. *)
Theorem uninvaded_saturation_is_one s :
  length (pore_IP_inv_seq s) = num_pores I →
  length (throat_IP_inv_seq s) = num_throats I →
  length (pore_volumes I) = num_pores I →
  length (throat_volumes I) = num_throats I →
  ∃ psat tsat,
    saturations I np_sum s = Some (psat, tsat)
    ∧ (∀ p, pore_IP_inv_seq s !! p = Some 0 → psat !! p = Some (f64_of_Z 1))
    ∧ (∀ t, throat_IP_inv_seq s !! t = Some 0 →
            tsat !! t = Some (f64_of_Z 1)).
Proof.
  intros Hp Ht Hpv Htv.
  destruct (saturations_is_Some s) as (psat & tsat & Hs & _); [done..|].
  exists psat, tsat. split; [done|].
  unfold saturations in Hs.
  destruct (sat_loop _ _ _ _ _ _) as [[[sat psat'] tsat']|] eqn:E;
    [simpl in Hs|done].
  simplify_eq. apply sat_loop_untouched in E as [Hpu Htu].
  assert (0 ∉ seq 1 (_tseq s)) as H0 by (rewrite elem_of_seq; lia).
  split; intros j Hj.
  - rewrite (Hpu _ _ Hj H0). apply lookup_replicate_2.
    rewrite <- Hp. by eapply lookup_lt_Some.
  - rewrite (Htu _ _ Hj H0). apply lookup_replicate_2.
    rewrite <- Ht. by eapply lookup_lt_Some.
Qed.
End Saturation.

(** ** The occupancy query at a saturation cutoff *)

Lemma Qsum_cons x l : Qsum (x :: l) = (x + Qsum l)%Q.
Proof. reflexivity. Qed.

Lemma select_elem_of {A} (mask : list bool) : ∀ (l : list A) q,
  q ∈ select mask l ↔ ∃ p, mask !! p = Some true ∧ l !! p = Some q.
Proof.
  induction mask as [|b mask IH]; intros [|y l] q; simpl.
  - rewrite elem_of_nil. split; [done|]. by intros (p & Hp & _).
  - rewrite elem_of_nil. split; [done|]. by intros (p & Hp & _).
  - rewrite elem_of_nil. split; [done|]. by intros ([|p] & _ & Hp).
  - assert (q ∈ select mask l
            ↔ ∃ p, (b :: mask) !! S p = Some true ∧ (y :: l) !! S p = Some q)
      as Htl by apply IH.
    destruct b.
    + rewrite elem_of_cons, Htl. split.
      * intros [->|(p & Hp)]; [by exists 0|by exists (S p)].
      * intros ([|p] & Hm & Hl); [left; simpl in Hl; congruence|].
        right. by exists p.
    + rewrite Htl. split.
      * intros (p & Hp). by exists (S p).
      * intros ([|p] & Hm & Hl); [done|]. by exists p.
Qed.

Lemma filter_true_length_0 (mask : list bool) :
  length (filter (λ b, b = true) mask) = 0 ↔ ∀ p, mask !! p ≠ Some true.
Proof.
  rewrite length_zero_iff_nil. split.
  - intros Hnil p Hp. apply list_elem_of_lookup_2 in Hp.
    assert (true ∈ filter (λ b, b = true) mask) as Hin
      by by apply list_elem_of_filter.
    rewrite Hnil in Hin. by apply elem_of_nil in Hin.
  - intros Hno. destruct (filter _ mask) as [|b l] eqn:E; [done|].
    assert (b ∈ filter (λ b, b = true) mask) as Hin
      by (rewrite E; by left).
    apply list_elem_of_filter in Hin as [-> (p & Hp)%list_elem_of_lookup_1].
    by destruct (Hno p).
Qed.

Lemma foldl_max_list x l : foldl Nat.max x l = x `max` max_list l.
Proof.
  revert x. induction l as [|y l IH]; intros x; simpl; [lia|].
  rewrite IH. lia.
Qed.

Lemma py_max_max_list x l : py_max (x :: l) = Some (max_list (x :: l)).
Proof. simpl. by rewrite foldl_max_list. Qed.

Lemma invaded_mask_ext n m l :
  Forall (λ q, q ≤ n) l → Forall (λ q, q ≤ m) l →
  invaded_mask n l = invaded_mask m l.
Proof.
  intros Hn Hm. unfold invaded_mask. apply list_eq. intros i.
  rewrite !list_lookup_fmap. destruct (l !! i) as [q|] eqn:E; [simpl|done].
  apply list_elem_of_lookup_2 in E.
  rewrite Forall_forall in Hn, Hm.
  by rewrite !(bool_decide_true (q ≤ _)) by auto.
Qed.

Lemma max_list_bound l : Forall (λ q, q ≤ max_list l) l.
Proof. apply Forall_forall. intros q. apply max_list_elem_of_le. Qed.

(** An element numbered above the cutoff is reported as not invaded; the
    cutoff [max_seq] reports every invaded element. *)
Lemma invaded_mask_above n m l j q :
  l !! j = Some q → n < q → q ≤ m →
  invaded_mask n l !! j = Some false ∧ invaded_mask m l !! j = Some true.
Proof.
  intros Hj Hn Hm. unfold invaded_mask. rewrite !list_lookup_fmap, Hj. simpl.
  rewrite (bool_decide_false (q ≤ n)) by lia.
  rewrite (bool_decide_true (0 < q)), (bool_decide_true (q ≤ m)) by lia.
  by rewrite andb_false_r.
Qed.

Section SaturationCutoff.
Variable s : IP.
Variable psat : list float64.
Variable x : float64.
Hypothesis psat_length : length psat = length (pore_IP_inv_seq s).

(** The sequence cutoff that stands for the saturation cutoff [x]: the
    largest sequence number of a pore whose stored saturation is at most
    [x], or 0. *)
Lemma cutoff_saturation :
  ∃ n, cutoff s psat None (Some x) = Some n
       ∧ (∀ p q v, pore_IP_inv_seq s !! p = Some q → psat !! p = Some v →
            f64_le v x = true → q ≤ n)
       ∧ (n = 0 ∨ ∃ p v, pore_IP_inv_seq s !! p = Some n
                         ∧ psat !! p = Some v ∧ f64_le v x = true).
Proof.
  unfold cutoff. set (sat_pores := (λ v, f64_le v x) <$> psat).
  assert (∀ p q v, pore_IP_inv_seq s !! p = Some q → psat !! p = Some v →
            f64_le v x = true → q ∈ select sat_pores (pore_IP_inv_seq s))
    as Hsel.
  { intros p q v Hq Hv Hle. apply select_elem_of. exists p. split; [|done].
    unfold sat_pores. by rewrite list_lookup_fmap, Hv; simpl; rewrite Hle. }
  case_decide as Hnone.
  - exists 0. split_and!; [done| |by left].
    intros p q v Hq Hv Hle. exfalso.
    apply (proj1 (filter_true_length_0 sat_pores) Hnone p).
    unfold sat_pores. by rewrite list_lookup_fmap, Hv; simpl; rewrite Hle.
  - destruct (select sat_pores (pore_IP_inv_seq s)) as [|q0 l] eqn:E.
    { exfalso. apply Hnone, filter_true_length_0. intros p Hp.
      unfold sat_pores in Hp. rewrite list_lookup_fmap in Hp.
      destruct (psat !! p) as [v|] eqn:Ev; [simpl in Hp|done].
      destruct (lookup_lt_is_Some_2 (pore_IP_inv_seq s) p) as [q Hq].
      { rewrite <- psat_length. by eapply lookup_lt_Some. }
      assert (f64_le v x = true) as Hle by congruence.
      pose proof (Hsel p q v Hq Ev Hle) as Hin.
      by apply elem_of_nil in Hin. }
    rewrite py_max_max_list. eexists. split_and!; [done| |right].
    + intros p q v Hq Hv Hle. apply max_list_elem_of_le. by eapply Hsel.
    + assert (max_list (q0 :: l) ∈ select sat_pores (pore_IP_inv_seq s))
        as Hin by (rewrite E; by apply max_list_elem_of).
      apply select_elem_of in Hin as (p & Hm & Hq).
      unfold sat_pores in Hm. rewrite list_lookup_fmap in Hm.
      destruct (psat !! p) as [v|] eqn:Ev; [simpl in Hm|done].
      exists p, v. split_and!; [done..|congruence].
Qed.

(** C5 (amended). The occupancy query at a saturation cutoff [x] (1.0
    included) answers with the masks of a sequence cutoff [n]: the largest
    sequence number of a pore whose stored saturation is at most [x]. This
    [n] is never beyond the number of the last invaded pore, so pores and
    throats numbered above it are reported as not invaded while the
    sequence cutoff [max_seq] reports them. When a pore that carries the
    largest pore number has a stored saturation of at most [x], the pore
    mask is the one of the cutoff [max_seq], and the two queries agree if
    no throat was invaded after the last pore. *)
Theorem occupancy_at_full_saturation :
  ∃ n,
    update_results s psat None (Some x)
    = Some (invaded_mask n (pore_IP_inv_seq s),
            invaded_mask n (throat_IP_inv_seq s))
    ∧ update_results s psat (Some (max_seq s)) None
      = Some (invaded_mask (max_seq s) (pore_IP_inv_seq s),
              invaded_mask (max_seq s) (throat_IP_inv_seq s))
    ∧ (∀ p q v, pore_IP_inv_seq s !! p = Some q → psat !! p = Some v →
         f64_le v x = true → q ≤ n)
    ∧ (n = 0 ∨ ∃ p v, pore_IP_inv_seq s !! p = Some n
                      ∧ psat !! p = Some v ∧ f64_le v x = true)
    ∧ n ≤ max_list (pore_IP_inv_seq s) ≤ max_seq s
    ∧ (∀ p q, pore_IP_inv_seq s !! p = Some q → n < q →
         invaded_mask n (pore_IP_inv_seq s) !! p = Some false
         ∧ invaded_mask (max_seq s) (pore_IP_inv_seq s) !! p = Some true)
    ∧ (∀ t q, throat_IP_inv_seq s !! t = Some q → n < q →
         invaded_mask n (throat_IP_inv_seq s) !! t = Some false
         ∧ invaded_mask (max_seq s) (throat_IP_inv_seq s) !! t = Some true)
    ∧ ((∃ p v, pore_IP_inv_seq s !! p = Some (max_list (pore_IP_inv_seq s))
               ∧ psat !! p = Some v ∧ f64_le v x = true) →
       n = max_list (pore_IP_inv_seq s)
       ∧ invaded_mask n (pore_IP_inv_seq s)
         = invaded_mask (max_seq s) (pore_IP_inv_seq s)
       ∧ (Forall (λ q, q ≤ max_list (pore_IP_inv_seq s))
            (throat_IP_inv_seq s) →
          update_results s psat None (Some x)
          = update_results s psat (Some (max_seq s)) None)).
Proof.
  destruct cutoff_saturation as (n & Hn & Hup & Hat).
  assert (Forall (λ q, q ≤ max_seq s) (pore_IP_inv_seq s)
          ∧ Forall (λ q, q ≤ max_seq s) (throat_IP_inv_seq s)) as [Hpm Htm].
  { pose proof (max_list_bound (pore_IP_inv_seq s ++ throat_IP_inv_seq s))
      as H. by apply Forall_app in H. }
  assert (n ≤ max_list (pore_IP_inv_seq s)) as Hle.
  { destruct Hat as [->|(p & v & Hq & _)]; [lia|].
    by eapply max_list_elem_of_le, list_elem_of_lookup_2. }
  assert (max_list (pore_IP_inv_seq s) ≤ max_seq s) as Hle'.
  { destruct (pore_IP_inv_seq s) as [|q l] eqn:E; [simpl; lia|].
    rewrite Forall_forall in Hpm. apply Hpm. rewrite <- E.
    apply max_list_elem_of. by rewrite E. }
  exists n. unfold update_results at 1 2. rewrite Hn. simpl.
  split_and!; [done..| | |].
  - intros p q Hq Hlt. eapply invaded_mask_above; [done..|].
    rewrite Forall_forall in Hpm. by eapply Hpm, list_elem_of_lookup_2.
  - intros t q Hq Hlt. eapply invaded_mask_above; [done..|].
    rewrite Forall_forall in Htm. by eapply Htm, list_elem_of_lookup_2.
  - intros (p & v & Hq & Hv & Hx).
    assert (n = max_list (pore_IP_inv_seq s)) as Heq.
    { pose proof (Hup _ _ _ Hq Hv Hx). lia. }
    split_and!; [done| |].
    + apply invaded_mask_ext; [|done]. rewrite Heq. apply max_list_bound.
    + intros Hlast. unfold update_results. rewrite Hn. simpl. do 2 f_equal.
      * apply invaded_mask_ext; [|done]. rewrite Heq. apply max_list_bound.
      * apply invaded_mask_ext; [|done]. by rewrite Heq.
Qed.
End SaturationCutoff.

(** ** [heapq]: the operations keep the entries *)

Lemma cons_insert_perm {A} (l : list A) : ∀ j x y,
  l !! j = Some y → y :: <[j := x]> l ≡ₚ x :: l.
Proof.
  induction l as [|a l IH]; intros [|j] x y H; simpl in *; try done.
  - simplify_eq. apply perm_swap.
  - rewrite perm_swap, (IH _ _ _ H). apply perm_swap.
Qed.

Lemma cons_insert_swap_perm {A} (l : list A) : ∀ i x y,
  i < length l → x :: <[i := y]> l ≡ₚ y :: <[i := x]> l.
Proof.
  induction l as [|a l IH]; intros [|i] x y H; simpl in *; try lia.
  - apply perm_swap.
  - rewrite perm_swap, (IH i x y) by lia. apply perm_swap.
Qed.

(** Moving [y] from position [j] into position [i] and putting [x] in its
    place is the same, up to order, as putting [x] at [i]. *)
Lemma insert_swap_perm {A} (l : list A) : ∀ i j x y,
  i ≠ j → i < length l → l !! j = Some y →
  <[j := x]> (<[i := y]> l) ≡ₚ <[i := x]> l.
Proof.
  induction l as [|a l IH]; intros [|i] [|j] x y Hij Hi Hj; simpl in *;
    try done; try lia.
  - by apply cons_insert_perm.
  - simplify_eq. apply cons_insert_swap_perm. lia.
  - f_equiv. apply IH; [lia|lia|done].
Qed.

Module heapq_facts.
Import heapq.

Lemma siftdown_loop_spec fuel : ∀ heap startpos pos newitem h p,
  pos < length heap →
  siftdown_loop fuel heap startpos pos newitem = (h, p) →
  <[p := newitem]> h ≡ₚ <[pos := newitem]> heap
  ∧ length h = length heap ∧ p < length h.
Proof.
  induction fuel as [|fuel IH]; intros heap startpos pos newitem h p Hpos H;
    cbn [siftdown_loop] in H.
  - by simplify_eq.
  - case_decide as Hlt; [|by simplify_eq].
    destruct (heap !! ((pos - 1) / 2)) as [parent|] eqn:Hpar;
      [|by simplify_eq].
    destruct (item_lt newitem parent); [|by simplify_eq].
    assert ((pos - 1) / 2 < pos) as Hpp.
    { pose proof (Nat.Div0.div_le_upper_bound (pos - 1) 2 (pos - 1)). lia. }
    apply IH in H as (Hperm & Hlen & Hp);
      [|rewrite length_insert; lia].
    rewrite length_insert in Hlen. split_and!; [|done|done].
    rewrite Hperm. apply insert_swap_perm; [lia|done..].
Qed.

Lemma _siftdown_perm heap startpos pos :
  _siftdown heap startpos pos ≡ₚ heap.
Proof.
  unfold _siftdown. destruct (heap !! pos) as [newitem|] eqn:Hn; [|done].
  destruct (siftdown_loop _ _ _ _ _) as [h p] eqn:E.
  apply siftdown_loop_spec in E as (-> & _ & _);
    [|by eapply lookup_lt_Some].
  by rewrite list_insert_id.
Qed.

Lemma siftup_loop_spec newitem fuel : ∀ heap pos h p,
  pos < length heap →
  siftup_loop fuel heap pos = (h, p) →
  <[p := newitem]> h ≡ₚ <[pos := newitem]> heap
  ∧ length h = length heap ∧ p < length h.
Proof.
  induction fuel as [|fuel IH]; intros heap pos h p Hpos H;
    cbn [siftup_loop] in H.
  - by simplify_eq.
  - cbv zeta in H. case_decide as Hlt; [|by simplify_eq].
    set (childpos :=
           match heap !! (2 * pos + 1), heap !! (2 * pos + 1 + 1) with
           | Some c, Some r =>
               if item_lt c r then 2 * pos + 1 else 2 * pos + 1 + 1
           | _, _ => 2 * pos + 1
           end) in *.
    destruct (heap !! childpos) as [c|] eqn:Hc; [|by simplify_eq].
    assert (pos < childpos) as Hcp.
    { unfold childpos. repeat case_match; lia. }
    apply IH in H as (Hperm & Hlen & Hp);
      [|rewrite length_insert; by eapply lookup_lt_Some].
    rewrite length_insert in Hlen. split_and!; [|done|done].
    rewrite Hperm. apply insert_swap_perm; [lia|done..].
Qed.

Lemma _siftup_perm heap pos : _siftup heap pos ≡ₚ heap.
Proof.
  unfold _siftup. destruct (heap !! pos) as [newitem|] eqn:Hn; [|done].
  destruct (siftup_loop _ _ _) as [h p] eqn:E.
  apply (siftup_loop_spec newitem) in E as (Hperm & _ & _);
    [|by eapply lookup_lt_Some].
  by rewrite _siftdown_perm, Hperm, list_insert_id.
Qed.

Lemma heappush_perm heap x : heappush heap x ≡ₚ x :: heap.
Proof.
  unfold heappush. rewrite _siftdown_perm. by rewrite Permutation_app_comm.
Qed.

(** [heappop] hands out the entry at index 0 and keeps the others. *)
Lemma heappop_spec heap x h' :
  heappop heap = Some (x, h') → heap !! 0 = Some x ∧ heap ≡ₚ x :: h'.
Proof.
  unfold heappop. destruct heap as [|top heap]; [done|].
  destruct (last (top :: heap)) as [lastelt|] eqn:Hlast; [|done].
  apply last_Some in Hlast as [rest Hrest].
  assert (length (top :: heap) - 1 = length rest) as ->.
  { rewrite Hrest, length_app. simpl. lia. }
  rewrite Hrest, take_app_length.
  destruct rest as [|r rest]; intros H; simplify_eq.
  - simpl in Hrest. by simplify_eq.
  - simpl in Hrest. simplify_eq. split; [done|].
    rewrite _siftup_perm. simpl. f_equiv.
    by rewrite Permutation_app_comm.
Qed.

Lemma heappop_is_Some heap : heap ≠ [] → is_Some (heappop heap).
Proof.
  intros Hne. destruct heap as [|top heap]; [done|]. unfold heappop.
  destruct (last (top :: heap)) as [lastelt|] eqn:Hlast.
  - destruct (take _ _); by eexists.
  - by apply last_None in Hlast.
Qed.

Lemma heappop_length heap x h' :
  heappop heap = Some (x, h') → length heap = S (length h').
Proof. intros [_ ->]%heappop_spec. done. Qed.

Lemma heapify_from_perm k : ∀ x, heapify_from k x ≡ₚ x.
Proof.
  induction k as [|k IH]; intros x; simpl; [done|].
  by rewrite IH, _siftup_perm.
Qed.

Lemma heapify_perm x : heapify x ≡ₚ x.
Proof. apply heapify_from_perm. Qed.

Lemma merge_perm a : ∀ b, merge a b ≡ₚ a ++ b.
Proof.
  induction a as [|x a IHa]; intros b.
  - by destruct b.
  - induction b as [|y b IHb].
    + by rewrite app_nil_r.
    + simpl. destruct (item_lt y x).
      * simpl in IHb. rewrite IHb.
        apply (Permutation_middle (x :: a) b y).
      * by rewrite IHa.
Qed.

(** The fuel the two sift loops get is enough: more fuel changes
    nothing. *)
Lemma siftdown_loop_fuel fuel : ∀ heap startpos pos newitem,
  pos ≤ fuel →
  siftdown_loop (S fuel) heap startpos pos newitem
  = siftdown_loop fuel heap startpos pos newitem.
Proof.
  induction fuel as [|fuel IH]; intros heap startpos pos newitem Hpos.
  - cbn [siftdown_loop]. by rewrite decide_False by lia.
  - change (siftdown_loop (S (S fuel)) heap startpos pos newitem)
      with (if decide (startpos < pos) then
              match heap !! ((pos - 1) / 2) with
              | Some parent =>
                  if item_lt newitem parent
                  then siftdown_loop (S fuel) (<[pos := parent]> heap)
                         startpos ((pos - 1) / 2) newitem
                  else (heap, pos)
              | None => (heap, pos)
              end
            else (heap, pos)).
    cbn [siftdown_loop]. case_decide; [|done].
    destruct (heap !! _); [|done]. destruct (item_lt _ _); [|done].
    apply IH.
    pose proof (Nat.Div0.div_le_upper_bound (pos - 1) 2 (pos - 1)). lia.
Qed.

Lemma siftup_loop_S fuel heap pos :
  siftup_loop (S fuel) heap pos
  = if decide (2 * pos + 1 < length heap) then
      let childpos :=
        match heap !! (2 * pos + 1), heap !! (2 * pos + 1 + 1) with
        | Some c, Some r =>
            if item_lt c r then 2 * pos + 1 else 2 * pos + 1 + 1
        | _, _ => 2 * pos + 1
        end in
      match heap !! childpos with
      | Some c => siftup_loop fuel (<[pos := c]> heap) childpos
      | None => (heap, pos)
      end
    else (heap, pos).
Proof. reflexivity. Qed.

Lemma siftup_loop_fuel fuel : ∀ heap pos,
  length heap - pos ≤ fuel →
  siftup_loop (S fuel) heap pos = siftup_loop fuel heap pos.
Proof.
  induction fuel as [|fuel IH]; intros heap pos Hpos.
  - rewrite siftup_loop_S. by rewrite decide_False by lia.
  - rewrite (siftup_loop_S (S fuel)), (siftup_loop_S fuel). cbv zeta.
    case_decide; [|done].
    set (childpos :=
           match heap !! (2 * pos + 1), heap !! (2 * pos + 1 + 1) with
           | Some c, Some r =>
               if item_lt c r then 2 * pos + 1 else 2 * pos + 1 + 1
           | _, _ => 2 * pos + 1
           end).
    destruct (heap !! childpos) as [c|] eqn:Hc; [|done].
    assert (pos < childpos) by (unfold childpos; repeat case_match; lia).
    apply lookup_lt_Some in Hc.
    apply IH. rewrite length_insert. lia.
Qed.
End heapq_facts.

(** ** The frontier cleanup *)

Section Cleanup.
Variable I : Inputs.

Lemma getc_setc_is_Some {A} (l : list A) c v :
  is_Some (getc l c) → is_Some (setc l c v).
Proof.
  intros [x Hx]. unfold setc. rewrite seti_is_Some; [by eexists|].
  by eapply lookup_lt_Some.
Qed.

Lemma cleanup_loop_cleans fuel : ∀ s h,
  getc (_tpoints s) (_current_cluster s) = Some h → h ≠ [] →
  length h ≤ fuel → cleanup_ready I s h →
  ∃ s' discarded h',
    cleanup_loop I fuel s = Some s' ∧ cleaned I s h s' discarded h'.
Proof.
  induction fuel as [|fuel IH]; intros s h Hh Hne Hlen (Hact & Hvc & Hall).
  { destruct h; [done|simpl in Hlen; lia]. }
  cbn [cleanup_loop]. rewrite Hh. cbn [mbind option_bind].
  destruct (h !! 0) as [top|] eqn:Htop; [|by destruct h].
  cbn [mbind option_bind].
  pose proof Hall as Hall'. rewrite Forall_forall in Hall'.
  destruct (Hall' top) as [[tf Htf] Htv];
    [by eapply list_elem_of_lookup_2|].
  rewrite Htf. cbn [mbind option_bind].
  case_decide as Hinv.
  2:{ (* the top entry is a throat not invaded yet *)
    exists s, [], h. split; [done|]. unfold cleaned.
    split_and!; [constructor|done|constructor| |
                 |done|done].
    - right. exists top. split; [done|]. rewrite Htf. f_equal. lia.
    - case_eq (timing I); intros Et; [|done].
      destruct (Hvc Et) as [vc Hvc'].
      exists vc, vc, []. split_and!; [done..|]. simpl. ring. }
  destruct (heapq_facts.heappop_is_Some h Hne) as [[x h1] Hpop].
  rewrite Hpop. cbn [mbind option_bind].
  pose proof (heapq_facts.heappop_spec _ _ _ Hpop) as [Hx Hperm].
  assert (Some x = Some top) as [= ->]
    by (etrans; [symmetry; exact Hx|exact Htop]).
  destruct (getc_setc_is_Some (_tpoints s) (_current_cluster s) h1)
    as [tp Htp]; [by eexists|].
  rewrite Htp. cbn [mbind option_bind].
  assert (Forall (λ it : item,
              is_Some (throat_IP_cluster_final s !! it.2)
              ∧ (timing I = true → is_Some (_Tvol_coef I !! it.2))) h1)
    as Hall1.
  { rewrite Hperm in Hall. by apply Forall_cons in Hall as [_ ?]. }
  case_eq (timing I); intros Et.
  - (* timing on *)
    destruct (Hvc Et) as [vc Hvc'].
    destruct (Htv Et) as [tv Htv'].
    simpl. rewrite Hvc'. cbn [mbind option_bind].
    rewrite Htv'. cbn [mbind option_bind].
    destruct (getc_setc_is_Some (vol_coef s) (_current_cluster s)
                (vc - tv)%Q) as [vl Hvl]; [by eexists|].
    rewrite Hvl. cbn [mbind option_bind]. simpl.
    rewrite (setc_getc _ _ _ _ Htp). cbn [mbind option_bind].
    case_decide as Hemp.
    + (* the heap ran empty: break *)
      destruct (getc_setc_is_Some (active s) (_current_cluster s) 0)
        as [al Hal]; [done|].
      rewrite Hal. cbn [mbind option_bind].
      eexists _, [top], []. split; [done|]. subst h1. unfold cleaned.
      simpl. rewrite Et.
      split_and!; [by repeat econstructor|by eapply setc_getc
                  |repeat constructor; eauto|by left| |done|done].
      exists vc, (vc - tv)%Q, [tv]. rewrite Htv'. simpl.
      split_and!; [done|by eapply setc_getc|done|ring].
    + set (s1 := set_vol_coef vl (set_tpoints tp s)).
      destruct (IH s1 h1) as (s' & ds & h' & Hrun & Hcl).
      * by eapply setc_getc.
      * done.
      * apply heapq_facts.heappop_length in Hpop. lia.
      * split_and!; simpl; [done| |done].
        intros _. erewrite setc_getc; [by eexists|done].
      * rewrite Hrun. exists s', (top :: ds), h'. split; [done|].
        destruct Hcl as (Hpops & Hget & Hds & Hend & Hvol & Htf' & Hcur).
        unfold cleaned. simpl in *. rewrite Et in *.
        split_and!; [by econstructor|done|constructor; eauto|done|
                     |done|done].
        destruct Hvol as (vc1 & vc' & tvs & Hvc1 & Hvc2 & Htvs & Heq).
        rewrite (setc_getc _ _ _ _ Hvl) in Hvc1. simplify_eq.
        exists vc, vc', (tv :: tvs).
        split_and!; [done|done| |rewrite Heq, Qsum_cons; ring].
        rewrite Htv'. cbn [mbind option_bind].
        unfold fmap in Htvs. by rewrite Htvs.
  - (* timing off *)
    simpl. rewrite (setc_getc _ _ _ _ Htp). cbn [mbind option_bind].
    case_decide as Hemp.
    + destruct (getc_setc_is_Some (active s) (_current_cluster s) 0)
        as [al Hal]; [done|].
      rewrite Hal. cbn [mbind option_bind].
      eexists _, [top], []. split; [done|]. subst h1. unfold cleaned.
      simpl. rewrite Et.
      split_and!; [by repeat econstructor|by eapply setc_getc
                  |repeat constructor; eauto|by left|done..].
    + set (s1 := set_tpoints tp s).
      destruct (IH s1 h1) as (s' & ds & h' & Hrun & Hcl).
      * by eapply setc_getc.
      * done.
      * apply heapq_facts.heappop_length in Hpop. lia.
      * split_and!; simpl; [done| |done]. intros; congruence.
      * rewrite Hrun. exists s', (top :: ds), h'. split; [done|].
        destruct Hcl as (Hpops & Hget & Hds & Hend & Hvol & Htf' & Hcur).
        unfold cleaned. simpl in *. rewrite Et in *.
        split_and!; [by econstructor|done|constructor; eauto|done..].
Qed.

(** C9. The cleanup after an event, on a heap that is not empty: entries
    whose throat is invaded already ([IP_cluster_final > 0], whichever the
    cluster) are popped one after the other until the entry on top is a
    throat not invaded yet or the heap is empty; with timing on, the
    volume coefficient of each discarded entry is subtracted from the
    [vol_coef] of the cluster that owns the heap. *)
Theorem cleanup_discards_invaded_throats s h :
  getc (_tpoints s) (_current_cluster s) = Some h → h ≠ [] →
  cleanup_ready I s h →
  ∃ s' discarded h',
    cleanup_loop I (length h) s = Some s' ∧ cleaned I s h s' discarded h'.
Proof. intros. by eapply cleanup_loop_cleans. Qed.
End Cleanup.

(** ** Inactive clusters stay inactive *)

Lemma setc_keeps {A} (l : list A) c d v l' :
  setc l c v = Some l' → getc l d = Some v → getc l' d = Some v.
Proof.
  intros H Hd. destruct (decide (pyix l c = pyix l d)) as [Heq|Hne].
  - unfold getc. rewrite (pyix_length l l' d) by by eapply setc_length.
    rewrite <- Heq. by eapply seti_lookup.
  - by rewrite (setc_getc_ne _ _ _ _ _ H Hne).
Qed.

Ltac getc_facts :=
  repeat match goal with
  | H : setc ?l ?c ?v = Some ?l' |- _ =>
      lazymatch goal with
      | _ : getc l' c = Some v |- _ => fail
      | _ => pose proof (setc_getc _ _ _ _ H)
      end
  end.

Ltac keeps :=
  simpl in *;
  repeat first
    [ eassumption
    | eapply setc_keeps; [eassumption|] ].

Section Inactive.
Variable I : Inputs.
Variable c : nat.

Local Abbreviation inactive s := (getc (active s) c = Some 0).

Lemma invade_throat_inactive s t s' :
  invade_throat I s = Some (t, s') → inactive s → inactive s'.
Proof. intros H H0. unfold invade_throat in H. inv_opt; keeps. Qed.

Lemma merge_clusters_inactive m s s' :
  merge_clusters I m s = Some s' → inactive s → inactive s'.
Proof. intros H H0. unfold merge_clusters in H. inv_opt; keeps. Qed.

Lemma both_invaded_inactive t p0 p1 s s' :
  both_invaded I t p0 p1 s = Some s' → inactive s → inactive s'.
Proof.
  intros H H0. unfold both_invaded in H. inv_opt; [|keeps].
  eapply merge_clusters_inactive; [exact H|keeps].
Qed.

Lemma push_neighbors_inactive ns : ∀ s s',
  push_neighbors I ns s = Some s' → inactive s → inactive s'.
Proof.
  induction ns as [|j ns IH]; intros s s' H H0; simpl in H; inv_opt;
    try done; (eapply IH; [exact H|keeps]).
Qed.

Lemma invade_pore_inactive t p0 p1 s s' :
  invade_pore I t p0 p1 s = Some s' → inactive s → inactive s'.
Proof.
  intros H H0. unfold invade_pore in H.
  inv_opt; (eapply push_neighbors_inactive; [exact H|keeps]).
Qed.

Lemma cleanup_loop_inactive fuel : ∀ s s',
  cleanup_loop I fuel s = Some s' → inactive s → inactive s'.
Proof.
  induction fuel as [|fuel IH]; intros s s' H H0; simpl in H; inv_opt;
    try (by keeps); (eapply IH; [exact H|keeps]).
Qed.

Lemma next_haines_inactive s s' :
  next_haines I s = Some s' → inactive s → inactive s'.
Proof.
  intros H H0. unfold next_haines in H.
  inv_opt;
    repeat match goal with
    | H : cleanup_loop _ _ _ = Some _ |- _ =>
        apply cleanup_loop_inactive in H; [|by keeps]
    end; keeps.
Qed.

Lemma _do_one_inner_iteration_inactive s s' :
  _do_one_inner_iteration I s = Some s' → inactive s → inactive s'.
Proof.
  intros H H0. unfold _do_one_inner_iteration in H. inv_opt.
  all: eapply next_haines_inactive; [exact H|].
  - eapply both_invaded_inactive; [eassumption|].
    by eapply invade_throat_inactive.
  - eapply invade_pore_inactive; [eassumption|].
    by eapply invade_throat_inactive.
Qed.

Lemma select_cluster_active s s' :
  select_cluster I s = Some s' → active s' = active s.
Proof. intros H. unfold select_cluster in H. inv_opt; reflexivity. Qed.

Lemma _condition_update_inactive s s' :
  _condition_update I s = Some s' → inactive s → inactive s'.
Proof.
  intros H H0. unfold _condition_update in H.
  inv_opt; repeat case_match; keeps.
Qed.

Lemma _do_one_outer_iteration_inactive s s' :
  _do_one_outer_iteration I s = Some s' → inactive s → inactive s'.
Proof.
  intros H H0. unfold _do_one_outer_iteration, _do_inner_iteration_stage in H.
  inv_opt. simpl.
  eapply _condition_update_inactive; [eassumption|].
  case_match; simpl;
    (eapply _do_one_inner_iteration_inactive; [eassumption|]);
    by erewrite select_cluster_active.
Qed.

Lemma later_inactive s s' : later I s s' → inactive s → inactive s'.
Proof.
  induction 1 as [|? ? ? ? ? IH|? ? ? ? ? IH|? ? ? ? ? IH]; intros Hc;
    [done|..]; apply IH.
  - by eapply next_haines_inactive.
  - by eapply _condition_update_inactive.
  - by eapply _do_one_outer_iteration_inactive.
Qed.

(** The untimed scan only ever settles on an active cluster. *)
Lemma scan_loop_Found fuel act n orig : ∀ cnum lc errs c' e,
  scan_loop fuel act n orig cnum lc errs = Found c' e →
  getc act c' = Some 1.
Proof.
  induction fuel as [|fuel IH]; intros cnum lc errs c' e H; simpl in H;
    [done|].
  destruct (getc act _) as [a|] eqn:Ha; [|done].
  case_decide; [|by eapply IH]. by simplify_eq.
Qed.

Lemma select_cluster_untimed s s' :
  timing I = false → select_cluster I s = Some s' →
  getc (active s) (_current_cluster s') = Some 1.
Proof.
  intros Ht H. unfold select_cluster in H. rewrite Ht in H.
  destruct (next_active_cluster _ _) as [c' e| |] eqn:E; [|done..].
  simplify_eq. simpl. by eapply scan_loop_Found.
Qed.
End Inactive.

(** ** The smallest pending time *)

Lemma foldl_min_le (l : list Q) : ∀ x,
  (foldl (λ m y, if Qlt_le_dec y m then y else m) x l <= x)%Q
  ∧ Forall (λ t, (foldl (λ m y, if Qlt_le_dec y m then y else m) x l <= t)%Q)
      l.
Proof.
  induction l as [|y l IH]; intros x; simpl.
  - split; [lra|constructor].
  - destruct (Qlt_le_dec y x) as [Hlt|Hle].
    + destruct (IH y) as [H1 H2]. split; [lra|]. by constructor.
    + destruct (IH x) as [H1 H2]. split; [done|]. constructor; [lra|done].
Qed.

Lemma foldl_min_ge (z : Q) (l : list Q) : ∀ x,
  (z <= x)%Q → Forall (λ t, (z <= t)%Q) l →
  (z <= foldl (λ m y, if Qlt_le_dec y m then y else m) x l)%Q.
Proof.
  induction l as [|y l IH]; intros x Hx Hl; simpl; [done|].
  apply Forall_cons in Hl as [Hy Hl].
  destruct (Qlt_le_dec y x); by apply IH.
Qed.

(** [min(l)] is a lower bound of [l], and the greatest one. *)
Lemma py_min_spec l m :
  py_min l = Some m →
  Forall (λ t, (m <= t)%Q) l
  ∧ ∀ z, Forall (λ t, (z <= t)%Q) l → (z <= m)%Q.
Proof.
  destruct l as [|x l]; [done|]. intros [= <-].
  destruct (foldl_min_le l x) as [H1 H2]. split.
  - by constructor.
  - intros z [Hx Hl]%Forall_cons. by apply foldl_min_ge.
Qed.

Lemma py_index_spec x l i :
  py_index x l = Some i → ∃ y, l !! i = Some y ∧ (y == x)%Q.
Proof.
  revert i. induction l as [|y l IH]; intros i H; simpl in H; [done|].
  destruct (Qeq_bool y x) eqn:E.
  - simplify_eq. exists y. split; [done|]. by apply Qeq_bool_iff.
  - destruct (py_index x l) as [j|]; [simpl in H|done]. simplify_eq.
    by apply IH.
Qed.

(** ** Merging with a finished cluster *)

Section MergeFinished.
Variable I : Inputs.

Lemma cleanup_loop_frame fuel : ∀ s s',
  cleanup_loop I fuel s = Some s' →
  haines_time s' = haines_time s ∧ _sim_time s' = _sim_time s
  ∧ _current_cluster s' = _current_cluster s
  ∧ pore_volume s' = pore_volume s ∧ flow_rate s' = flow_rate s.
Proof.
  induction fuel as [|fuel IH]; intros s s' H; simpl in H; inv_opt;
    try done; by apply IH in H.
Qed.

Lemma merge_clusters_finishes_current m s s1 :
  merge_clusters I m s = Some s1 → _current_cluster s1 = _current_cluster s.
Proof. intros H. unfold merge_clusters in H. inv_opt; reflexivity. Qed.

Lemma merge_clusters_finishes m s s1 am ac :
  getc (active s) m = Some am →
  getc (active s) (_current_cluster s) = Some ac →
  am + ac < 2 →
  merge_clusters I m s = Some s1 →
  _current_cluster s1 = _current_cluster s
  ∧ _sim_time s1 = _sim_time s
  ∧ getc (active s1) (_current_cluster s) = Some 0
  ∧ getc (active s1) m = Some 0
  ∧ (timing I = true →
     getc (haines_time s1) (_current_cluster s) = Some sentinel
     ∧ getc (haines_time s1) m = Some sentinel).
Proof.
  intros Ham Hac Hlt H. unfold merge_clusters in H.
  inv_opt; simpl in *; simplify_eq; try lia.
  all: split_and!; try done; try (intros; done).
  all: try (intros _; split).
  all: repeat first
         [ by eapply setc_getc
         | eapply setc_keeps; [eassumption|] ].
Qed.

Lemma next_haines_keeps_finished s s' :
  next_haines I s = Some s' →
  getc (active s) (_current_cluster s) = Some 0 →
  _current_cluster s' = _current_cluster s
  ∧ getc (active s') (_current_cluster s) = Some 0
  ∧ (timing I = true → (_sim_time s <= sentinel)%Q →
     getc (haines_time s) (_current_cluster s) = Some sentinel →
     getc (haines_time s') (_current_cluster s) = Some sentinel).
Proof.
  intros H Hact.
  pose proof (next_haines_inactive I _ _ _ H Hact) as Hact'.
  split_and!; [|done|].
  - unfold next_haines in H.
    inv_opt;
      repeat match goal with
      | H : cleanup_loop _ _ _ = Some _ |- _ =>
          apply cleanup_loop_frame in H as (_ & _ & H & _)
      end; simpl in *; congruence.
  - intros Ht Hsim Hsent. unfold next_haines in H. rewrite Ht in H.
    inv_opt.
    all: repeat match goal with
      | H : cleanup_loop _ _ _ = Some ?x |- _ =>
          let Hi := fresh "Hi" in
          assert (getc (active x) (_current_cluster s) = Some 0) as Hi
            by (eapply cleanup_loop_inactive; [exact H|done]);
          apply cleanup_loop_frame in H as (? & ? & ? & _)
      end.
    all: simpl in *.
    all: repeat match goal with
      | H : Qlt_le_dec _ _ = _ |- _ => clear H
      | H : _current_cluster ?x = _current_cluster _ |- _ =>
          rewrite !H in *; clear H
      | H : haines_time ?x = haines_time _ |- _ => rewrite !H in *; clear H
      | H : _sim_time ?x = _sim_time _ |- _ => rewrite !H in *; clear H
      end.
    all: getc_facts.
    all: try congruence.
    all: exfalso;
      match goal with
      | Hq : (?q < _sim_time _)%Q |- _ =>
          assert (q = sentinel) as -> by congruence; lra
      end.
Qed.

(** The cluster a timed iteration selects carries the smallest stored
    event time, whatever its active flag. *)
Lemma select_cluster_timed s s' :
  timing I = true → select_cluster I s = Some s' →
  ∃ u, getc (haines_time s) (_current_cluster s') = Some u
       ∧ Forall (λ t, (u <= t)%Q) (haines_time s).
Proof.
  intros Ht H. unfold select_cluster in H. rewrite Ht in H.
  destruct (py_min (haines_time s)) as [m|] eqn:Em; [simpl in H|done].
  destruct (py_index m (haines_time s)) as [i|] eqn:Ei; [simpl in H|done].
  simplify_eq. simpl.
  apply py_index_spec in Ei as (y & Hy & Heq).
  apply py_min_spec in Em as [Hmin _].
  exists y. split; [done|].
  eapply Forall_impl; [exact Hmin|]. simpl. intros t Hle. by rewrite Heq.
Qed.

End MergeFinished.

(** ** The survivor of a merge *)

Section MergeEvent.
Variable I : Inputs.

Lemma next_haines_current s s' :
  next_haines I s = Some s' → _current_cluster s' = _current_cluster s.
Proof.
  intros H. unfold next_haines in H.
  inv_opt;
    repeat match goal with
    | H : cleanup_loop _ _ _ = Some _ |- _ =>
        apply (cleanup_loop_frame I) in H as (_ & _ & H & _)
    end; simpl in *; congruence.
Qed.

(** The branch of [both_invaded] taken at a merge: the current cluster
    becomes the smaller of the two resolved ids, and the transform sends the
    larger one to it. *)
Lemma both_invaded_merges t p0 p1 s s' c0 c1 a b :
  pore_IP_cluster_final s !! p0 = Some c0 →
  pore_IP_cluster_final s !! p1 = Some c1 →
  c0 ≠ c1 →
  getc (transform s) c0 = Some a → getc (transform s) c1 = Some b →
  both_invaded I t p0 p1 s = Some s' →
  _current_cluster s' = a `min` b
  ∧ transform s' = relabel (a `max` b) (a `min` b) (transform s).
Proof.
  intros H0 H1 Hne Ha Hb H. unfold both_invaded in H. simpl in H.
  rewrite H0, H1 in H. simpl in H. rewrite Ha, Hb in H. simpl in H.
  destruct (seti _ _ _) as [tf|]; [simpl in H|done].
  rewrite decide_True in H by done.
  pose proof (merge_clusters_transform I _ _ _ H) as Htr.
  pose proof (merge_clusters_finishes_current I _ _ _ H) as Hcur.
  by simpl in *.
Qed.

(** C4. An event that merges the clusters of two pores labelled [c0] and
    [c1], which resolve to the distinct ids [a] and [b]: afterwards the
    current cluster is [min a b]; [c0], [c1] and every other id that
    resolved to [a] or to [b] resolve to [min a b]; the ids that resolved
    elsewhere are left alone; and no lookup in the transform returns the
    retired id [max a b], then or at any later point of the run. *)
Theorem merge_resolves_to_min s s' t s1 p0 p1 c0 c1 a b :
  invade_throat I s = Some (t, s1) →
  find_connected_pores I t = Some (p0, p1) →
  pore_IP_cluster_final s1 !! p0 = Some c0 →
  pore_IP_cluster_final s1 !! p1 = Some c1 →
  c0 ≠ 0 → c1 ≠ 0 → c0 ≠ c1 →
  getc (transform s) c0 = Some a → getc (transform s) c1 = Some b →
  a ≠ b →
  _do_one_inner_iteration I s = Some s' →
  _current_cluster s' = a `min` b
  ∧ getc (transform s') c0 = Some (a `min` b)
  ∧ getc (transform s') c1 = Some (a `min` b)
  ∧ (∀ x, getc (transform s) x = Some a ∨ getc (transform s) x = Some b →
          getc (transform s') x = Some (a `min` b))
  ∧ (∀ x y, getc (transform s) x = Some y → y ≠ a `max` b →
            getc (transform s') x = Some y)
  ∧ ∀ s2, later I s' s2 → ∀ x, getc (transform s2) x ≠ Some (a `max` b).
Proof.
  intros Hinv Hfind H0 H1 Hc0 Hc1 Hne Ha Hb Hab H.
  unfold _do_one_inner_iteration in H. rewrite Hinv in H. simpl in H.
  rewrite Hfind in H. simpl in H. rewrite H0, H1 in H.
  rewrite !bool_decide_true in H by done. simpl in H.
  destruct (both_invaded I t p0 p1 s1) as [s2|] eqn:E; [simpl in H|done].
  pose proof (invade_throat_transform I _ _ _ Hinv) as Ht1.
  rewrite <- Ht1 in Ha, Hb.
  destruct (both_invaded_merges _ _ _ _ _ _ _ _ _ H0 H1 Hne Ha Hb E)
    as [Hcur Htr].
  pose proof (next_haines_transform I _ _ H) as Ht2.
  pose proof (next_haines_current _ _ H) as Hcur2.
  rewrite Ht1 in Htr, Ha, Hb.
  assert (∀ x y, getc (transform s) x = Some y →
            getc (transform s') x
            = Some (if decide (y = a `max` b) then a `min` b else y)) as Hres.
  { intros x y Hx. by rewrite Ht2, Htr, getc_relabel, Hx. }
  split_and!.
  - congruence.
  - rewrite (Hres _ _ Ha). case_decide; f_equal; lia.
  - rewrite (Hres _ _ Hb). case_decide; f_equal; lia.
  - intros x [Hx|Hx]; rewrite (Hres _ _ Hx); case_decide; f_equal; lia.
  - intros x y Hx Hy. rewrite (Hres _ _ Hx). by rewrite decide_False.
  - intros s3 Hl x Hx%getc_elem_of.
    apply (later_transform I _ _ Hl) in Hx. rewrite Ht2, Htr in Hx.
    by apply relabel_retires in Hx; [|lia].
Qed.
End MergeEvent.

(** ** The log of sequence numbers *)

Lemma events_from_snoc k log k' es :
  events_from k log k' → event_entries k' es →
  events_from k (log ++ es) (S k').
Proof.
  induction 1 as [k|k es' log k' Hes _ IH]; intros He.
  - simpl. rewrite <- (app_nil_r es). apply events_cons; [done|constructor].
  - rewrite <- app_assoc. apply events_cons; [done|]. by apply IH.
Qed.

Lemma events_from_le k log k' : events_from k log k' → k ≤ k'.
Proof. induction 1; lia. Qed.

(** The numbers of the events: from [k] upwards, none skipped. *)
Lemma events_from_numbers k log k' :
  events_from k log k' →
  (∀ x, log.*2 !! 0 = Some x → x = k)
  ∧ (∀ i a b, log.*2 !! i = Some a → log.*2 !! S i = Some b →
       b = a ∨ b = S a)
  ∧ (∀ x, last (log.*2) = Some x → S x = k').
Proof.
  induction 1 as [k|k es log k' Hes Hev (IH0 & IH1 & IH2)].
  - split_and!; intros; simplify_eq.
  - assert (log = [] → k' = S k) as Hnil.
    { intros ->. inversion Hev as [|? ? ? ? He0]; [done|]. by destruct He0. }
    destruct Hes as [t|t p]; simpl.
    + split_and!.
      * intros x [= <-]. done.
      * intros [|i] a b Ha Hb; simpl in *; [|by eapply IH1].
        simplify_eq. right. by apply IH0.
      * destruct log as [|e log]; [|by apply IH2].
        simpl. intros x [= <-]. by rewrite Hnil.
    + split_and!.
      * intros x [= <-]. done.
      * intros [|[|i]] a b Ha Hb; simpl in *; [| |by eapply IH1].
        -- simplify_eq. by left.
        -- simplify_eq. right. by apply IH0.
      * destruct log as [|e log]; [|by apply IH2].
        simpl. intros x [= <-]. by rewrite Hnil.
Qed.

Section Log.
Variable I : Inputs.

Lemma select_cluster_log s s' :
  select_cluster I s = Some s' →
  seq_log s' = seq_log s ∧ _tseq s' = _tseq s.
Proof. intros H. unfold select_cluster in H. by inv_opt. Qed.

Lemma invade_throat_log s t s' :
  invade_throat I s = Some (t, s') →
  seq_log s' = seq_log s ++ [(Throat t, _tseq s)] ∧ _tseq s' = _tseq s.
Proof. intros H. unfold invade_throat in H. by inv_opt. Qed.

Lemma merge_clusters_log m s s' :
  merge_clusters I m s = Some s' →
  seq_log s' = seq_log s ∧ _tseq s' = _tseq s.
Proof. intros H. unfold merge_clusters in H. by inv_opt. Qed.

Lemma both_invaded_log t p0 p1 s s' :
  both_invaded I t p0 p1 s = Some s' →
  seq_log s' = seq_log s ∧ _tseq s' = _tseq s.
Proof.
  intros H. unfold both_invaded in H. inv_opt; [|done].
  by apply merge_clusters_log in H.
Qed.

Lemma push_neighbors_log ns : ∀ s s',
  push_neighbors I ns s = Some s' →
  seq_log s' = seq_log s ∧ _tseq s' = _tseq s.
Proof.
  induction ns as [|j ns IH]; intros s s' H; simpl in H; inv_opt;
    try done; by apply IH in H.
Qed.

Lemma invade_pore_log t p0 p1 s s' :
  invade_pore I t p0 p1 s = Some s' →
  ∃ p, seq_log s' = seq_log s ++ [(Pore p, _tseq s)] ∧ _tseq s' = _tseq s.
Proof.
  intros H. unfold invade_pore in H.
  inv_opt; apply push_neighbors_log in H as [H1 H2]; simpl in *;
    eexists; by rewrite H1, H2.
Qed.

Lemma cleanup_loop_log fuel : ∀ s s',
  cleanup_loop I fuel s = Some s' →
  seq_log s' = seq_log s ∧ _tseq s' = _tseq s.
Proof.
  induction fuel as [|fuel IH]; intros s s' H; simpl in H; inv_opt;
    try done; by apply IH in H.
Qed.

Lemma next_haines_log s s' :
  next_haines I s = Some s' →
  seq_log s' = seq_log s ∧ _tseq s' = _tseq s.
Proof.
  intros H. unfold next_haines in H.
  inv_opt;
    repeat match goal with
    | H : cleanup_loop _ _ _ = Some _ |- _ => apply cleanup_loop_log in H
    end; simpl in *; done.
Qed.

Lemma _condition_update_log s s' :
  _condition_update I s = Some s' →
  seq_log s' = seq_log s ∧ _tseq s' = _tseq s.
Proof.
  intros H. unfold _condition_update in H.
  inv_opt; by repeat case_match.
Qed.

(** One event: the throat gets the current sequence number, the pore
    invaded through it (if any) the same one, and the counter moves on. *)
Lemma _do_one_outer_iteration_log s s' :
  _do_one_outer_iteration I s = Some s' →
  ∃ es, event_entries (_tseq s) es
        ∧ seq_log s' = seq_log s ++ es ∧ _tseq s' = S (_tseq s).
Proof.
  intros H. unfold _do_one_outer_iteration, _do_inner_iteration_stage in H.
  inv_opt.
  match goal with
  | H : _do_one_inner_iteration _ _ = Some _ |- _ =>
      unfold _do_one_inner_iteration in H
  end.
  inv_opt.
  all: repeat match goal with
    | H : select_cluster _ _ = Some _ |- _ =>
        apply select_cluster_log in H as [? ?]
    | H : invade_throat _ _ = Some _ |- _ =>
        apply invade_throat_log in H as [? ?]
    | H : both_invaded _ _ _ _ _ = Some _ |- _ =>
        apply both_invaded_log in H as [? ?]
    | H : invade_pore _ _ _ _ _ = Some _ |- _ =>
        apply invade_pore_log in H as (? & ? & ?)
    | H : next_haines _ _ = Some _ |- _ =>
        apply next_haines_log in H as [? ?]
    | H : _condition_update _ _ = Some _ |- _ =>
        apply _condition_update_log in H as [? ?]
    end.
  all: destruct (decide _) in *; simpl in *.
  1,2: exists [(Throat n, _tseq s)].
  3,4: exists [(Throat n, _tseq s); (Pore x, _tseq s)].
  all: split; [constructor|]; split; [|lia].
  1,2: congruence.
  all: rewrite (assoc_L _ _ [_] [_] : _ ++ [_; _] = (_ ++ [_]) ++ [_]);
    congruence.
Qed.
End Log.

Lemma neighbor_scan_no_pores cs : ∀ t, neighbor_scan cs t [] = [].
Proof.
  induction cs as [|[a b] cs IH]; intros t; cbn [neighbor_scan]; [done|].
  rewrite bool_decide_false; [done|].
  intros [H|H]; by apply elem_of_nil in H.
Qed.

Lemma where_eq_from_replicate c n : ∀ i,
  c ≠ 0 → where_eq_from i c (replicate n 0) = [].
Proof.
  induction n as [|n IH]; intros i Hc; simpl; [done|].
  rewrite decide_False by done. by apply IH.
Qed.

Lemma fmap_replicate_const {A B} (f : A → B) (b : B) (l : list A) :
  (∀ x, f x = b) → f <$> l = replicate (length l) b.
Proof.
  intros Hf. induction l as [|x l IH]; [done|].
  rewrite fmap_cons, Hf, IH. done.
Qed.

Lemma climbing_log (n : nat) (l : list nat) :
  (l ≠ [] → 0 < n) →
  (∀ x, l !! 0 = Some x → x = 2) →
  (∀ i a b, l !! i = Some a → l !! S i = Some b → b = a ∨ b = S a) →
  climbing (replicate n 1 ++ l).
Proof.
  intros Hn H0 Hstep. split.
  - intros x Hx. destruct n as [|n]; simpl in Hx; [|by simplify_eq].
    destruct l; [done|]. specialize (Hn ltac:(done)). lia.
  - intros i a b Ha Hb.
    destruct (decide (S i < n)) as [Hlt|Hge].
    + rewrite lookup_app_l in Ha, Hb by (rewrite length_replicate; lia).
      apply lookup_replicate in Ha as [-> _].
      apply lookup_replicate in Hb as [-> _]. by left.
    + destruct (decide (S i = n)) as [Heq|Hne].
      * rewrite lookup_app_l in Ha by (rewrite length_replicate; lia).
        rewrite lookup_app_r in Hb by (rewrite length_replicate; lia).
        rewrite length_replicate in Hb.
        replace (S i - n) with 0 in Hb by lia.
        apply lookup_replicate in Ha as [-> _].
        apply H0 in Hb as ->. by right.
      * rewrite lookup_app_r in Ha, Hb by (rewrite length_replicate; lia).
        rewrite length_replicate in Ha, Hb.
        replace (S i - n) with (S (i - n)) in Hb by lia.
        by eapply Hstep.
Qed.

Section RunLog.
Variable I : Inputs.

Lemma setup_cluster_log cn i s s' :
  setup_cluster I cn i s = Some s' →
  seq_log s' = seq_log s ++ ((λ p, (Pore p, _tseq s)) <$> i)
  ∧ _tseq s' = _tseq s ∧ active s' = active s ∧ _NewPore s' = _NewPore s
  ∧ _condition s' = _condition s.
Proof. intros H. unfold setup_cluster in H. by inv_opt. Qed.

Lemma setup_clusters_log groups : ∀ cn s s',
  setup_clusters I cn groups s = Some s' →
  seq_log s' = seq_log s ++ ((λ p, (Pore p, _tseq s)) <$> concat groups)
  ∧ _tseq s' = _tseq s ∧ active s' = active s ∧ _NewPore s' = _NewPore s
  ∧ _condition s' = _condition s.
Proof.
  induction groups as [|i groups IH]; intros cn s s' H; simpl in H.
  - simplify_eq. by rewrite app_nil_r.
  - destruct (setup_cluster I cn i s) as [s1|] eqn:E; [simpl in H|done].
    apply setup_cluster_log in E as (E1 & E2 & E3 & E4 & E5).
    apply IH in H as (H1 & H2 & H3 & H4 & H5).
    cbn [concat]. rewrite H1, E1, E2, fmap_app, <- app_assoc.
    split_and!; congruence.
Qed.

Lemma setup_cluster_first i s :
  pore_IP_cluster_final s = replicate (num_pores I) 0 →
  is_Some (setup_cluster I 1 i s) → i ≠ [].
Proof.
  intros Hf [s' H] ->.
  assert (find_neighbor_throats I
            (where_eq 1 (replicate (num_pores I) 0)) = []) as Hnb.
  { unfold where_eq, find_neighbor_throats.
    rewrite where_eq_from_replicate by done. apply neighbor_scan_no_pores. }
  unfold setup_cluster in H. inv_opt.
  all: match goal with
       | Hz : heapq.heapify (zip ?ps (find_neighbor_throats I ?x)) !! 0
              = Some _ |- _ =>
           replace (find_neighbor_throats I x) with (@nil nat) in Hz
             by (simpl; by rewrite Hf, Hnb);
           by destruct ps
       end.
Qed.

Lemma _setup_for_IP_log s :
  _setup_for_IP I initial = Some s →
  seq_log s = (λ p, (Pore p, 1)) <$> concat (inlets I)
  ∧ _tseq s = 2
  ∧ active s = replicate (length (inlets I)) 1
  ∧ _NewPore s = None ∧ _condition s = true
  ∧ (inlets I ≠ [] → concat (inlets I) ≠ []).
Proof.
  intros H. unfold _setup_for_IP in H.
  destruct (setup_clusters I 1 (inlets I) _) as [s1|] eqn:E;
    [simpl in H|done].
  simplify_eq. simpl.
  pose proof E as Hfirst.
  apply setup_clusters_log in E as (E1 & E2 & E3 & E4 & E5).
  split_and!.
  - rewrite E1. by destruct (timing I).
  - rewrite E2. by destruct (timing I).
  - rewrite E3. by destruct (timing I).
  - rewrite E4. by destruct (timing I).
  - rewrite E5. by destruct (timing I).
  - destruct (inlets I) as [|i groups]; [done|]. intros _.
    simpl in Hfirst.
    destruct (setup_cluster I 1 i _) as [s2|] eqn:E0; [|done].
    assert (i ≠ []) as Hi.
    { eapply setup_cluster_first; [|by eexists]. by destruct (timing I). }
    simpl. by destruct i.
Qed.

Lemma outer_loop_log fuel : ∀ s s',
  outer_loop I fuel s = Some s' →
  ∃ evs, seq_log s' = seq_log s ++ evs
         ∧ events_from (_tseq s) evs (_tseq s')
         ∧ (_condition s = false → evs = []).
Proof.
  induction fuel as [|fuel IH]; intros s s' H; simpl in H.
  - simplify_eq. exists []. rewrite app_nil_r. split_and!; [done| |done].
    constructor.
  - destruct (_condition s) eqn:Ec.
    2:{ simplify_eq. exists []. rewrite app_nil_r.
        split_and!; [done| |done]. constructor. }
    destruct (_do_one_outer_iteration I s) as [s1|] eqn:E;
      [simpl in H|done].
    apply _do_one_outer_iteration_log in E as (es & Hes & Hl & Ht).
    apply IH in H as (evs & Hl' & Hev & _).
    exists (es ++ evs). rewrite Hl', Hl, <- app_assoc.
    split_and!; [done| |done].
    apply events_cons; [done|]. by rewrite <- Ht.
Qed.

(** C1 (amended). In assignment order the sequence numbers of a run are:
    1 for every inlet pore, then, for the events in turn, 2, 3, ... for
    the throat of the event and the same number again for the pore invaded
    through it, if there is one. So the numbers start at 1 and each one
    repeats the one before or is the next: no number is skipped, and
    numbers are shared. *)
Theorem inv_seq_in_assignment_order fuel s :
  run_events I fuel = Some s →
  ∃ evs,
    seq_log s = ((λ p, (Pore p, 1)) <$> concat (inlets I)) ++ evs
    ∧ events_from 2 evs (_tseq s)
    ∧ climbing (seq_numbers s).
Proof.
  intros H. unfold run_events in H.
  destruct (_setup_for_IP I initial) as [s0|] eqn:E0; [simpl in H|done].
  destruct (_condition_update I s0) as [s1|] eqn:E1; [simpl in H|done].
  apply _setup_for_IP_log in E0 as (Hl0 & Ht0 & Ha0 & Hn0 & Hc0 & Hin).
  pose proof (_condition_update_log I _ _ E1) as [Hl1 Ht1].
  apply outer_loop_log in H as (evs & Hl & Hev & Hstop).
  exists evs. rewrite Hl, Hl1, Hl0. rewrite Ht1, Ht0 in Hev.
  split_and!; [done..|].
  unfold seq_numbers. rewrite Hl, Hl1, Hl0, fmap_app, <- list_fmap_compose.
  rewrite (fmap_replicate_const _ 1) by done.
  destruct (events_from_numbers _ _ _ Hev) as (H0 & Hstep & _).
  apply climbing_log; [|done..].
  intros Hne. destruct (inlets I) as [|i groups] eqn:Ei.
  - (* no inlet: no cluster, and the loop is not entered *)
    exfalso. apply Hne. rewrite Hstop; [by destruct evs|].
    unfold _condition_update in E1. rewrite Hn0 in E1. simpl in E1.
    rewrite Ha0 in E1. simpl in E1. by simplify_eq.
  - specialize (Hin ltac:(done)). destruct (concat (i :: groups)); [done|].
    simpl. lia.
Qed.
End RunLog.

(** ** The active flags in a run *)

Lemma deactivated_refl l : deactivated l l.
Proof. split; [done|]. intros j a Hj. by right. Qed.

Lemma deactivated_trans l1 l2 l3 :
  deactivated l1 l2 → deactivated l2 l3 → deactivated l1 l3.
Proof.
  intros [Hl1 H1] [Hl2 H2]. split; [congruence|].
  intros j a Hj. destruct (H2 _ _ Hj) as [->|Hj']; [by left|by apply H1].
Qed.

Lemma setc_deactivated l c l' : setc l c 0 = Some l' → deactivated l l'.
Proof.
  intros [-> Hi]%seti_Some. split; [by rewrite length_insert|].
  intros j a Hj.
  apply list_lookup_insert_Some in Hj as [(_ & <- & _)|[_ Hj]];
    [by left|by right].
Qed.

Lemma deactivated_flags l l' :
  deactivated l l' → Forall (λ a, a = 0 ∨ a = 1) l →
  Forall (λ a, a = 0 ∨ a = 1) l'.
Proof.
  intros [_ H] Hl. apply Forall_forall. intros a (j & Hj)%list_elem_of_lookup_1.
  destruct (H _ _ Hj) as [->|Hj']; [by left|].
  rewrite Forall_forall in Hl. by eapply Hl, list_elem_of_lookup_2.
Qed.

Lemma sum_list_flags l :
  Forall (λ a, a = 0 ∨ a = 1) l → sum_list l ≠ 0 → ∃ j, l !! j = Some 1.
Proof.
  induction 1 as [|a l [->| ->] _ IH]; simpl; intros Hs; [done| |by exists 0].
  destruct (IH Hs) as [j Hj]. by exists (S j).
Qed.

Ltac deact :=
  simpl;
  repeat first
    [ apply deactivated_refl
    | eassumption
    | eapply deactivated_trans; [|eapply setc_deactivated; eassumption] ].

Section ActiveFlags.
Variable I : Inputs.

Local Abbreviation flags s s' :=
  (deactivated (active s) (active s')
   ∧ _clusterCount s' = _clusterCount s).

Lemma flags_trans (s1 s2 s3 : IP) : flags s1 s2 → flags s2 s3 → flags s1 s3.
Proof.
  intros [H1 E1] [H2 E2]. split; [by eapply deactivated_trans|congruence].
Qed.

Lemma invade_throat_flags s t s' :
  invade_throat I s = Some (t, s') → flags s s'.
Proof. intros H. unfold invade_throat in H. inv_opt; (split; [deact|done]). Qed.

Lemma merge_clusters_flags m s s' :
  merge_clusters I m s = Some s' → flags s s'.
Proof.
  intros H. unfold merge_clusters in H. inv_opt; (split; [deact|done]).
Qed.

Lemma both_invaded_flags t p0 p1 s s' :
  both_invaded I t p0 p1 s = Some s' → flags s s'.
Proof.
  intros H. unfold both_invaded in H. inv_opt; [|split; [deact|done]].
  by apply merge_clusters_flags in H.
Qed.

Lemma push_neighbors_flags ns : ∀ s s',
  push_neighbors I ns s = Some s' → flags s s'.
Proof.
  induction ns as [|j ns IH]; intros s s' H; simpl in H; inv_opt;
    try (split; [deact|done]); by apply IH in H.
Qed.

Lemma invade_pore_flags t p0 p1 s s' :
  invade_pore I t p0 p1 s = Some s' → flags s s'.
Proof.
  intros H. unfold invade_pore in H.
  inv_opt; by apply push_neighbors_flags in H.
Qed.

Lemma cleanup_loop_flags fuel : ∀ s s',
  cleanup_loop I fuel s = Some s' → flags s s'.
Proof.
  induction fuel as [|fuel IH]; intros s s' H; simpl in H; inv_opt;
    try (split; [deact|done]); by apply IH in H.
Qed.

Lemma next_haines_flags s s' : next_haines I s = Some s' → flags s s'.
Proof.
  intros H. unfold next_haines in H.
  inv_opt;
    repeat match goal with
    | H : cleanup_loop _ _ _ = Some _ |- _ =>
        apply cleanup_loop_flags in H as [? ?]
    end; simpl in *; (split; [deact|congruence]).
Qed.

Lemma _do_one_inner_iteration_flags s s' :
  _do_one_inner_iteration I s = Some s' → flags s s'.
Proof.
  intros H. unfold _do_one_inner_iteration in H. inv_opt.
  all: match goal with
       | H : invade_throat _ _ = Some _ |- _ =>
           apply invade_throat_flags in H
       end.
  all: apply next_haines_flags in H.
  - match goal with
    | H : both_invaded _ _ _ _ _ = Some _ |- _ =>
        apply both_invaded_flags in H
    end.
    eapply flags_trans; [|exact H]. by eapply flags_trans.
  - match goal with
    | H : invade_pore _ _ _ _ _ = Some _ |- _ =>
        apply invade_pore_flags in H
    end.
    eapply flags_trans; [|exact H]. by eapply flags_trans.
Qed.

Lemma select_cluster_flags s s' : select_cluster I s = Some s' → flags s s'.
Proof.
  intros H. unfold select_cluster in H. inv_opt; (split; [deact|done]).
Qed.

Lemma _condition_update_flags s s' :
  _condition_update I s = Some s' → flags s s'.
Proof.
  intros H. unfold _condition_update in H.
  inv_opt; repeat case_match; (split; [deact|done]).
Qed.

(** When the termination check leaves the loop condition on, some cluster
    is active. *)
Lemma _condition_update_condition s s' :
  _condition_update I s = Some s' →
  _condition s' = true → sum_list (active s') ≠ 0.
Proof.
  intros H. unfold _condition_update in H.
  destruct (match _NewPore s with Some _ => _ | None => _ end) as [s1|];
    [simpl in H|done].
  simplify_eq. by case_decide.
Qed.

Lemma flags_active_inv (s s' : IP) :
  flags s s' →
  length (active s) = _clusterCount s →
  Forall (λ a, a = 0 ∨ a = 1) (active s) →
  (_condition s' = true → sum_list (active s') ≠ 0) → active_inv s'.
Proof.
  intros [[Hlen Hd] Hc] Hl Hf Hs. split_and!; [congruence| |done].
  by eapply deactivated_flags.
Qed.

Lemma _do_one_outer_iteration_active_inv s s' :
  _do_one_outer_iteration I s = Some s' → active_inv s → active_inv s'.
Proof.
  intros H Hinv. unfold _do_one_outer_iteration in H.
  destruct (_do_inner_iteration_stage I s) as [s1|] eqn:E1;
    [simpl in H|done].
  destruct (_condition_update I s1) as [s2|] eqn:E2; [simpl in H|done].
  simplify_eq.
  pose proof (_condition_update_condition _ _ E2) as Hs.
  apply _condition_update_flags in E2.
  unfold _do_inner_iteration_stage in E1.
  destruct (select_cluster I s) as [s3|] eqn:E3; [simpl in E1|done].
  destruct (_do_one_inner_iteration I s3) as [s4|] eqn:E4;
    [simpl in E1|done].
  apply select_cluster_flags in E3.
  apply _do_one_inner_iteration_flags in E4.
  assert (flags s s1) as Hf.
  { eapply flags_trans; [exact E3|]. eapply flags_trans; [exact E4|].
    simplify_eq. case_decide; simpl; (split; [apply deactivated_refl|done]). }
  destruct Hinv as (Hl & Hfl & _).
  eapply (flags_active_inv s); [|done..].
  eapply flags_trans; [exact Hf|]. exact E2.
Qed.

Lemma outer_loop_active_inv fuel : ∀ s s',
  outer_loop I fuel s = Some s' → active_inv s → active_inv s'.
Proof.
  induction fuel as [|fuel IH]; intros s s' H Hinv; simpl in H.
  - by simplify_eq.
  - destruct (_condition s); [|by simplify_eq].
    destruct (_do_one_outer_iteration I s) as [s1|] eqn:E;
      [simpl in H|done].
    eapply IH; [exact H|]. by eapply _do_one_outer_iteration_active_inv.
Qed.

Lemma setup_cluster_clusterCount cn i s s' :
  setup_cluster I cn i s = Some s' → _clusterCount s' = _clusterCount s.
Proof. intros H. unfold setup_cluster in H. inv_opt; reflexivity. Qed.

Lemma setup_clusters_clusterCount groups : ∀ cn s s',
  setup_clusters I cn groups s = Some s' →
  _clusterCount s' = _clusterCount s.
Proof.
  induction groups as [|i groups IH]; intros cn s s' H; simpl in H.
  - by simplify_eq.
  - destruct (setup_cluster I cn i s) as [s1|] eqn:E; [simpl in H|done].
    apply IH in H. apply setup_cluster_clusterCount in E. congruence.
Qed.

Lemma run_events_active_inv fuel s :
  run_events I fuel = Some s → active_inv s.
Proof.
  intros H. unfold run_events in H.
  destruct (_setup_for_IP I initial) as [s0|] eqn:E0; [simpl in H|done].
  destruct (_condition_update I s0) as [s1|] eqn:E1; [simpl in H|done].
  eapply outer_loop_active_inv; [exact H|].
  pose proof (_setup_for_IP_log I _ E0) as (_ & _ & Ha0 & _).
  assert (_clusterCount s0 = length (inlets I)) as Hn0.
  { unfold _setup_for_IP in E0.
    destruct (setup_clusters I 1 (inlets I) _) as [s2|] eqn:E;
      [simpl in E0|done].
    simplify_eq. simpl. apply setup_clusters_clusterCount in E.
    rewrite E. by destruct (timing I). }
  eapply (flags_active_inv s0).
  - by apply _condition_update_flags.
  - by rewrite Ha0, length_replicate.
  - rewrite Ha0. apply Forall_replicate. by right.
  - by eapply _condition_update_condition.
Qed.

End ActiveFlags.

(** ** Throats in a frontier *)

Lemma frontier_inv_update s s' k tl' h' :
  _tlists s' = <[k := tl']> (_tlists s) →
  _tpoints s' = <[k := h']> (_tpoints s) →
  NoDup tl' → NoDup h'.*2 → h'.*2 ⊆ tl' →
  frontier_inv s → frontier_inv s'.
Proof.
  intros Htl Htp H1 H2 H3 [Hlen Hinv]. split.
  - by rewrite Htl, Htp, !length_insert.
  - intros i tl h. rewrite Htl, Htp.
    destruct (decide (k = i)) as [->|Hne].
    + intros Ha Hb.
      apply list_lookup_insert_Some in Ha as [(_ & <- & _)|[? _]]; [|done].
      apply list_lookup_insert_Some in Hb as [(_ & <- & _)|[? _]]; done.
    + rewrite !list_lookup_insert_ne by done. apply Hinv.
Qed.

Lemma frontier_inv_same s s' :
  _tlists s' = _tlists s → _tpoints s' = _tpoints s →
  frontier_inv s → frontier_inv s'.
Proof. intros Htl Htp. unfold frontier_inv. by rewrite Htl, Htp. Qed.

Lemma neighbor_scan_spec cs pores : ∀ t j,
  j ∈ neighbor_scan cs t pores → t ≤ j.
Proof.
  induction cs as [|[a b] cs IH]; intros t j; cbn [neighbor_scan].
  - by intros ?%elem_of_nil.
  - case_bool_decide.
    + intros [->|Hj]%elem_of_cons; [done|]. apply IH in Hj. lia.
    + intros Hj. apply IH in Hj. lia.
Qed.

Lemma neighbor_scan_NoDup cs pores : ∀ t, NoDup (neighbor_scan cs t pores).
Proof.
  induction cs as [|[a b] cs IH]; intros t; cbn [neighbor_scan].
  - constructor.
  - case_bool_decide; [|done]. constructor; [|done].
    intros Hj%neighbor_scan_spec. lia.
Qed.

Lemma get_many_length {A} (l : list A) idxs xs :
  get_many l idxs = Some xs → length xs = length idxs.
Proof.
  revert xs. induction idxs as [|i idxs IH]; intros xs H; simpl in H.
  - by simplify_eq.
  - inv_opt. simpl. f_equal. by apply IH.
Qed.

Lemma snd_zip_eq {A B} (a : list A) (b : list B) :
  length a = length b → (zip a b).*2 = b.
Proof. intros H. apply snd_zip. lia. Qed.

Section Frontier.
Variable I : Inputs.

Lemma invade_throat_frontier s t s' :
  invade_throat I s = Some (t, s') → frontier_inv s → frontier_inv s'.
Proof.
  intros H Hinv. unfold invade_throat in H.
  destruct (getc (_tpoints s) (_current_cluster s)) as [h|] eqn:Eh;
    [simpl in H|done].
  destruct (heapq.heappop h) as [[x h']|] eqn:Epop; [simpl in H|done].
  destruct (setc (_tpoints s) (_current_cluster s) h') as [tp|] eqn:Etp;
    [simpl in H|done].
  apply seti_Some in Etp as [-> Hk].
  set (k := pyix (_tpoints s) (_current_cluster s)) in *.
  destruct Hinv as [Hlen Hinv'].
  destruct (lookup_lt_is_Some_2 (_tlists s) k) as [tl Htl]; [lia|].
  destruct (Hinv' k tl h Htl Eh) as (Hn1 & Hn2 & Hsub).
  apply heapq_facts.heappop_spec in Epop as [_ Hperm].
  assert (NoDup h'.*2 ∧ h'.*2 ⊆ tl) as [Hn2' Hsub'].
  { rewrite Hperm in Hn2, Hsub. rewrite fmap_cons in Hn2, Hsub.
    apply NoDup_cons in Hn2 as [_ ?]. split; [done|].
    intros y Hy. apply Hsub. by apply list_elem_of_further. }
  eapply (frontier_inv_update s s' k tl h'); [| |done..|by split].
  - inv_opt; simpl; by rewrite list_insert_id.
  - by inv_opt.
Qed.

Lemma push_neighbors_frontier ns : ∀ s s',
  push_neighbors I ns s = Some s' → frontier_inv s → frontier_inv s'.
Proof.
  induction ns as [|j ns IH]; intros s s' H Hinv; simpl in H.
  { by simplify_eq. }
  destruct (getc (_tlists s) (_current_cluster s)) as [tl|] eqn:Etl;
    [simpl in H|done].
  case_decide as Hj; [|by eapply IH].
  destruct (getc (_tpoints s) (_current_cluster s)) as [h|] eqn:Eh;
    [simpl in H|done].
  destruct (Pc_entry I !! j) as [pc|] eqn:Epc; [simpl in H|done].
  destruct (setc (_tpoints s) _ _) as [tp|] eqn:Etp; [simpl in H|done].
  destruct (setc (_tlists s) _ _) as [tl'|] eqn:Etl'; [simpl in H|done].
  apply seti_Some in Etp as [-> Hk]. apply seti_Some in Etl' as [-> Hk'].
  pose proof Hinv as [Hlen Hinv'].
  assert (pyix (_tlists s) (_current_cluster s)
          = pyix (_tpoints s) (_current_cluster s)) as Hix.
  { destruct (_current_cluster s); simpl; congruence. }
  unfold getc in Etl, Eh. rewrite Hix in *.
  set (k := pyix (_tpoints s) (_current_cluster s)) in *.
  destruct (Hinv' k tl h Etl Eh) as (Hn1 & Hn2 & Hsub).
  assert (frontier_inv
            (set_tlists (<[k := tl ++ [j]]> (_tlists s))
               (set_tpoints (<[k := heapq.heappush h (pc, j)]> (_tpoints s))
                  s))) as Hinv1.
  { eapply (frontier_inv_update s _ k (tl ++ [j])
              (heapq.heappush h (pc, j))); [done|done| | | |done].
    - apply NoDup_app. split_and!; [done| |apply NoDup_singleton].
      intros x Hx ->%list_elem_of_singleton. done.
    - rewrite heapq_facts.heappush_perm, fmap_cons. simpl.
      apply NoDup_cons. split; [|done]. intros Hin. apply Hj. by apply Hsub.
    - rewrite heapq_facts.heappush_perm, fmap_cons. simpl.
      intros y [->|Hy]%elem_of_cons; apply elem_of_app;
        [right; by apply list_elem_of_singleton|left; by apply Hsub]. }
  destruct (timing I); simpl in H.
  - inv_opt. eapply IH; [exact H|].
    by eapply frontier_inv_same; [..|exact Hinv1].
  - by eapply IH.
Qed.

Lemma invade_pore_frontier t p0 p1 s s' :
  invade_pore I t p0 p1 s = Some s' → frontier_inv s → frontier_inv s'.
Proof.
  intros H Hinv. unfold invade_pore in H.
  inv_opt; (eapply push_neighbors_frontier; [exact H|]);
    by eapply frontier_inv_same; [..|exact Hinv].
Qed.

Lemma cleanup_loop_frontier fuel : ∀ s s',
  cleanup_loop I fuel s = Some s' → frontier_inv s → frontier_inv s'.
Proof.
  induction fuel as [|fuel IH]; intros s s' H Hinv; simpl in H; [done|].
  destruct (getc (_tpoints s) (_current_cluster s)) as [h|] eqn:Eh;
    [simpl in H|done].
  destruct (h !! 0) as [top|]; [simpl in H|done].
  destruct (throat_IP_cluster_final s !! top.2) as [tf|]; [simpl in H|done].
  case_decide; [|by simplify_eq].
  destruct (heapq.heappop h) as [[x h']|] eqn:Epop; [simpl in H|done].
  destruct (setc (_tpoints s) (_current_cluster s) h') as [tp|] eqn:Etp;
    [simpl in H|done].
  apply seti_Some in Etp as [-> Hk].
  set (k := pyix (_tpoints s) (_current_cluster s)) in *.
  pose proof Hinv as [Hlen Hinv'].
  destruct (lookup_lt_is_Some_2 (_tlists s) k) as [tl Htl]; [lia|].
  destruct (Hinv' k tl h Htl Eh) as (Hn1 & Hn2 & Hsub).
  apply heapq_facts.heappop_spec in Epop as [_ Hperm].
  assert (NoDup h'.*2 ∧ h'.*2 ⊆ tl) as [Hn2' Hsub'].
  { rewrite Hperm in Hn2, Hsub. rewrite fmap_cons in Hn2, Hsub.
    apply NoDup_cons in Hn2 as [_ ?]. split; [done|].
    intros y Hy. apply Hsub. by apply list_elem_of_further. }
  assert (frontier_inv (set_tpoints (<[k := h']> (_tpoints s)) s))
    as Hinv1.
  { eapply (frontier_inv_update s _ k tl h'); [|done..].
    simpl. by rewrite list_insert_id. }
  inv_opt; try (eapply IH; [exact H|]);
    by eapply frontier_inv_same; [..|exact Hinv1].
Qed.

Lemma next_haines_frontier s s' :
  next_haines I s = Some s' → frontier_inv s → frontier_inv s'.
Proof.
  intros H Hinv. unfold next_haines in H.
  inv_opt;
    repeat match goal with
    | H : cleanup_loop _ _ _ = Some _ |- _ =>
        apply cleanup_loop_frontier in H; [|done]
    end;
    match goal with
    | Hi : frontier_inv _ |- _ =>
        by (eapply frontier_inv_same; [..|exact Hi])
    end.
Qed.

Lemma frontier_inv_snoc s s' tl h :
  _tlists s' = _tlists s ++ [tl] → _tpoints s' = _tpoints s ++ [h] →
  NoDup tl → NoDup h.*2 → h.*2 ⊆ tl →
  frontier_inv s → frontier_inv s'.
Proof.
  intros Htl Htp H1 H2 H3 [Hlen Hinv]. split.
  - rewrite Htl, Htp, !length_app. simpl. lia.
  - intros i tl0 h0. rewrite Htl, Htp.
    destruct (decide (i < length (_tlists s))) as [Hlt|Hge].
    + rewrite (lookup_app_l (_tlists s)), (lookup_app_l (_tpoints s))
        by lia.
      apply Hinv.
    + rewrite (lookup_app_r (_tlists s)), (lookup_app_r (_tpoints s))
        by lia.
      rewrite <- Hlen.
      destruct (i - length (_tlists s)) as [|k]; simpl; [|done].
      by intros [= <-] [= <-].
Qed.

Lemma setup_cluster_frontier cn i s s' :
  setup_cluster I cn i s = Some s' → frontier_inv s → frontier_inv s'.
Proof.
  intros H Hinv. unfold setup_cluster in H. inv_opt.
  all: simpl in *.
  all: eapply frontier_inv_snoc; [reflexivity|reflexivity| | | |exact Hinv].
  all: simpl; try apply neighbor_scan_NoDup.
  all: rewrite heapq_facts.heapify_perm, snd_zip_eq
         by (by eapply get_many_length);
       [apply neighbor_scan_NoDup || done].
Qed.

Lemma setup_clusters_frontier groups : ∀ cn s s',
  setup_clusters I cn groups s = Some s' → frontier_inv s → frontier_inv s'.
Proof.
  induction groups as [|i groups IH]; intros cn s s' H Hinv; simpl in H.
  - by simplify_eq.
  - destruct (setup_cluster I cn i s) as [s1|] eqn:E; [simpl in H|done].
    eapply IH; [exact H|]. by eapply setup_cluster_frontier.
Qed.

Lemma _setup_for_IP_frontier s :
  _setup_for_IP I initial = Some s → frontier_inv s.
Proof.
  intros H. unfold _setup_for_IP in H.
  destruct (setup_clusters I 1 (inlets I) _) as [s1|] eqn:E;
    [simpl in H|done].
  simplify_eq. apply setup_clusters_frontier in E.
  - by eapply frontier_inv_same; [..|exact E].
  - split; simpl; [done|]. intros i tl h Hi. by rewrite lookup_nil in Hi.
Qed.

Lemma _do_one_inner_iteration_frontier s s' :
  _do_one_inner_iteration I s = Some s' →
  ¬ merge_event I s → frontier_inv s → frontier_inv s'.
Proof.
  intros H Hno Hinv. unfold _do_one_inner_iteration in H.
  destruct (invade_throat I s) as [[t s1]|] eqn:E1; [simpl in H|done].
  destruct (find_connected_pores I t) as [[p0 p1]|] eqn:E2;
    [simpl in H|done].
  pose proof (invade_throat_frontier _ _ _ E1 Hinv) as Hinv1.
  match type of H with
  | mbind _ (if ?b then _ else _) = _ => destruct b eqn:Eb
  end.
  - destruct (both_invaded I t p0 p1 s1) as [s2|] eqn:E3; [simpl in H|done].
    eapply next_haines_frontier; [exact H|].
    unfold both_invaded in E3.
    destruct (pore_IP_cluster_final _ !! p0) as [c0|] eqn:Ec0;
      [|done].
    destruct (pore_IP_cluster_final _ !! p1) as [c1|] eqn:Ec1;
      [|done].
    simpl in Ec0, Ec1.
    apply andb_true_iff in Eb as [Hc0%bool_decide_eq_true
                                    Hc1%bool_decide_eq_true].
    simpl in E3. inv_opt.
    + exfalso. apply Hno. by exists t, s1, p0, p1, c0, c1.
    + by eapply frontier_inv_same; [..|exact Hinv1].
  - destruct (invade_pore I t p0 p1 s1) as [s2|] eqn:E3; [simpl in H|done].
    eapply next_haines_frontier; [exact H|].
    by eapply invade_pore_frontier.
Qed.

Lemma merge_clusters_frontier m s s' l1 l2 h1 h2 :
  pyix (_tlists s) (_current_cluster s) ≠ pyix (_tlists s) m →
  length (_tlists s) = length (_tpoints s) →
  getc (_tlists s) (_current_cluster s) = Some l1 →
  getc (_tlists s) m = Some l2 →
  getc (_tpoints s) (_current_cluster s) = Some h1 →
  getc (_tpoints s) m = Some h2 →
  merge_clusters I m s = Some s' →
  getc (_tlists s') (_current_cluster s) = Some (l1 ++ l2)
  ∧ getc (_tpoints s') (_current_cluster s) = Some (heapq.merge h1 h2)
  ∧ heapq.merge h1 h2 ≡ₚ h1 ++ h2.
Proof.
  intros Hne Hlen Hl1 Hl2 Hh1 Hh2 H.
  assert (pyix (_tpoints s) (_current_cluster s) ≠ pyix (_tpoints s) m)
    as Hne'.
  { intros Heq. apply Hne. destruct (_current_cluster s), m; simpl in *;
      congruence. }
  unfold merge_clusters in H. simpl in H.
  rewrite Hl1, Hl2 in H. simpl in H.
  destruct (setc (_tlists s) (_current_cluster s) (l1 ++ l2)) as [tl1|]
    eqn:Et1; [simpl in H|done].
  destruct (setc tl1 m []) as [tl2|] eqn:Et2; [simpl in H|done].
  rewrite Hh1, Hh2 in H. simpl in H.
  destruct (setc (_tpoints s) (_current_cluster s) (heapq.merge h1 h2))
    as [tp1|] eqn:Ep1; [simpl in H|done].
  assert (getc tl2 (_current_cluster s) = Some (l1 ++ l2)) as Hr1.
  { rewrite (setc_getc_ne _ _ _ _ _ Et2); [by eapply setc_getc|].
    rewrite !(pyix_length (_tlists s) tl1) by by eapply setc_length.
    congruence. }
  assert (∀ tp2, setc tp1 m [] = Some tp2 →
            getc tp2 (_current_cluster s) = Some (heapq.merge h1 h2))
    as Hr2.
  { intros tp2 Ep2. rewrite (setc_getc_ne _ _ _ _ _ Ep2);
      [by eapply setc_getc|].
    rewrite !(pyix_length (_tpoints s) tp1) by by eapply setc_length.
    congruence. }
  split_and!; [| |apply heapq_facts.merge_perm].
  - inv_opt; simpl; done.
  - inv_opt; simpl;
      match goal with
      | Hs : setc ?tp _ [] = Some ?tp2 |- getc ?tp2 _ = _ => by apply Hr2
      end.
Qed.

Lemma select_cluster_frontier s s' :
  select_cluster I s = Some s' → frontier_inv s → frontier_inv s'.
Proof.
  intros H. unfold select_cluster in H. inv_opt; by apply frontier_inv_same.
Qed.

Lemma _condition_update_frontier s s' :
  _condition_update I s = Some s' → frontier_inv s → frontier_inv s'.
Proof.
  intros H. unfold _condition_update in H.
  inv_opt; repeat case_match; by apply frontier_inv_same.
Qed.

Lemma _do_one_outer_iteration_frontier s s' :
  _do_one_outer_iteration I s = Some s' →
  (∀ s1, select_cluster I s = Some s1 → ¬ merge_event I s1) →
  frontier_inv s → frontier_inv s'.
Proof.
  intros H Hno Hinv. unfold _do_one_outer_iteration in H.
  destruct (_do_inner_iteration_stage I s) as [s1|] eqn:E1;
    [simpl in H|done].
  destruct (_condition_update I s1) as [s2|] eqn:E2; [simpl in H|done].
  simplify_eq. apply (frontier_inv_same s2); [done..|].
  eapply _condition_update_frontier; [exact E2|].
  unfold _do_inner_iteration_stage in E1.
  destruct (select_cluster I s) as [s3|] eqn:E3; [simpl in E1|done].
  destruct (_do_one_inner_iteration I s3) as [s4|] eqn:E4;
    [simpl in E1|done].
  simplify_eq.
  assert (frontier_inv s4) as H4.
  { eapply _do_one_inner_iteration_frontier; [exact E4|by apply Hno|].
    by eapply select_cluster_frontier. }
  case_decide; by apply (frontier_inv_same s4).
Qed.

Lemma outer_loop_frontier fuel : ∀ s s',
  frontier_inv s → outer_loop I fuel s = Some s' →
  (∀ k sk sk', k < fuel → outer_loop I k s = Some sk →
     _condition sk = true → select_cluster I sk = Some sk' →
     ¬ merge_event I sk') →
  frontier_inv s'.
Proof.
  induction fuel as [|fuel IH]; intros s s' Hinv H Hno; simpl in H.
  - by simplify_eq.
  - destruct (_condition s) eqn:Ec; [|by simplify_eq].
    destruct (_do_one_outer_iteration I s) as [s1|] eqn:E;
      [simpl in H|done].
    apply (IH s1); [|done|].
    + eapply _do_one_outer_iteration_frontier; [exact E| |done].
      intros s2 Hs2. by apply (Hno 0 s); [lia|..].
    + intros k sk sk' Hk Hrun. apply (Hno (S k)); [lia|].
      simpl. by rewrite Ec, E.
Qed.

(** C3 (amended). Each throat is present at most once in every cluster's
    throat list and heap after the setup; an event that is not a merge
    keeps it so; hence it holds at every point of a run up to the first
    merge. A merge appends the throat list of the absorbed cluster to the
    survivor's and merges the two heaps entry for entry, so a throat that
    was in both frontiers is in the survivor's twice. *)
Theorem frontier_once_until_merge :
  (∀ s, _setup_for_IP I initial = Some s → frontier_inv s)
  ∧ (∀ s s', _do_one_inner_iteration I s = Some s' →
       ¬ merge_event I s → frontier_inv s → frontier_inv s')
  ∧ (∀ n s, run_events I n = Some s → no_merge_so_far I n → frontier_inv s)
  ∧ (∀ m s s' l1 l2 h1 h2 t,
       pyix (_tlists s) (_current_cluster s) ≠ pyix (_tlists s) m →
       length (_tlists s) = length (_tpoints s) →
       getc (_tlists s) (_current_cluster s) = Some l1 →
       getc (_tlists s) m = Some l2 →
       getc (_tpoints s) (_current_cluster s) = Some h1 →
       getc (_tpoints s) m = Some h2 →
       merge_clusters I m s = Some s' →
       t ∈ l1 → t ∈ l2 →
       ∃ h, getc (_tlists s') (_current_cluster s) = Some (l1 ++ l2)
            ∧ getc (_tpoints s') (_current_cluster s) = Some h
            ∧ h ≡ₚ h1 ++ h2
            ∧ ¬ NoDup (l1 ++ l2)).
Proof.
  split_and!.
  - apply _setup_for_IP_frontier.
  - apply _do_one_inner_iteration_frontier.
  - intros n s H Hno. unfold run_events in H.
    destruct (_setup_for_IP I initial) as [s0|] eqn:E0; [simpl in H|done].
    destruct (_condition_update I s0) as [s1|] eqn:E1; [simpl in H|done].
    eapply outer_loop_frontier; [|exact H|].
    + eapply _condition_update_frontier; [exact E1|].
      by apply _setup_for_IP_frontier.
    + intros k sk sk' Hk Hrun. apply (Hno k); [done|].
      unfold run_events. rewrite E0. simpl. by rewrite E1.
  - intros m s s' l1 l2 h1 h2 t Hne Hlen Hl1 Hl2 Hh1 Hh2 H Ht1 Ht2.
    destruct (merge_clusters_frontier _ _ _ _ _ _ _ Hne Hlen Hl1 Hl2 Hh1
                Hh2 H) as (Hr1 & Hr2 & Hperm).
    eexists. split_and!; [done..|].
    intros Hnd%NoDup_app. destruct Hnd as (_ & Hdis & _).
    by apply (Hdis t).
Qed.
End Frontier.

(** ** The clock of a timed run *)

Lemma setc_Forall {A} (P : A → Prop) l c v l' :
  setc l c v = Some l' → P v → Forall P l → Forall P l'.
Proof. intros [-> _]%seti_Some Hv Hl. by apply Forall_insert. Qed.

Lemma seti_Forall {A} (P : A → Prop) l i v l' :
  seti l i v = Some l' → P v → Forall P l → Forall P l'.
Proof. intros [-> _]%seti_Some Hv Hl. by apply Forall_insert. Qed.

Lemma setc_setc_Forall {A} (P : A → Prop) l c v w l1 l2 :
  setc l c v = Some l1 → setc l1 c w = Some l2 →
  P w → Forall P l → Forall P l2.
Proof.
  intros H1 H2 Hw Hl. pose proof (setc_length _ _ _ _ H1) as Hlen.
  unfold setc in *. rewrite (pyix_length l l1 c Hlen) in H2.
  apply seti_Some in H1 as [-> _]. apply seti_Some in H2 as [-> _].
  rewrite list_insert_insert_eq. by apply Forall_insert.
Qed.

Lemma getc_Forall {A} (P : A → Prop) (l : list A) c v :
  getc l c = Some v → Forall P l → P v.
Proof.
  intros H Hl. rewrite Forall_forall in Hl. apply Hl.
  by eapply getc_elem_of.
Qed.

Ltac good_value :=
  first
    [ lra
    | match goal with
      | Hq : (?a <= ?q)%Q |- (?a <= ?v)%Q =>
          assert (v = q) as -> by congruence; exact Hq
      end ].

Section Clock.
Variable I : Inputs.

(** Pending event times and the clock, function by function. [T] is the
    clock of the event. *)
Local Abbreviation pending T s :=
  (Forall (λ t, Qle T t) (haines_time s) ∧ _sim_time s = T%Q).

Lemma invade_throat_pending T s t s' :
  invade_throat I s = Some (t, s') → pending T s → pending T s'.
Proof. intros H Hp. unfold invade_throat in H. by inv_opt. Qed.

Lemma merge_clusters_pending T m s s' :
  (T <= sentinel)%Q →
  merge_clusters I m s = Some s' → pending T s → pending T s'.
Proof.
  intros HT H [Hp Hs]. unfold merge_clusters in H.
  inv_opt; simpl in *; try congruence.
  all: split; [|done].
  all: repeat (eapply setc_Forall; [eassumption|done|]); done.
Qed.

Lemma both_invaded_pending T t p0 p1 s s' :
  (T <= sentinel)%Q →
  both_invaded I t p0 p1 s = Some s' → pending T s → pending T s'.
Proof.
  intros HT H Hp. unfold both_invaded in H. inv_opt; [|done].
  by eapply merge_clusters_pending.
Qed.

Lemma push_neighbors_pending T ns : ∀ s s',
  push_neighbors I ns s = Some s' → pending T s → pending T s'.
Proof.
  induction ns as [|j ns IH]; intros s s' H Hp; simpl in H; inv_opt;
    try done; by eapply IH.
Qed.

Lemma invade_pore_pending T t p0 p1 s s' :
  invade_pore I t p0 p1 s = Some s' → pending T s → pending T s'.
Proof.
  intros H Hp. unfold invade_pore in H.
  inv_opt; by eapply push_neighbors_pending.
Qed.

Lemma next_haines_pending T s s' :
  timing I = true → (T <= sentinel)%Q →
  next_haines I s = Some s' → pending T s → pending T s'.
Proof.
  intros timed HT H [Hp Hs]. unfold next_haines in H. rewrite timed in H.
  inv_opt.
  all: repeat match goal with
    | H : cleanup_loop _ _ _ = Some ?x |- _ =>
        apply cleanup_loop_frame in H as (? & ? & ? & _)
    end.
  all: simpl in *.
  all: repeat match goal with
    | H : Qlt_le_dec _ _ = _ |- _ => clear H
    | H : haines_time ?x = haines_time _ |- _ => rewrite !H in *; clear H
    | H : _sim_time ?x = _sim_time _ |- _ => rewrite !H in *; clear H
    end.
  all: split; [|done].
  all: try subst T.
  all: getc_facts.
  all: repeat first
         [ exact Hp
         | eapply setc_setc_Forall; [|eassumption| |];
             [eassumption|good_value|]
         | eapply setc_Forall; [eassumption|good_value|] ].
Qed.

Lemma _condition_update_pending T s s' :
  (T <= sentinel)%Q →
  _condition_update I s = Some s' → pending T s → pending T s'.
Proof.
  intros HT H [Hp Hs]. unfold _condition_update in H.
  inv_opt; repeat case_match; simpl; split; try done.
  all: by (eapply setc_Forall; [eassumption|done|]).
Qed.

(** Time stamps written so far are not ahead of the clock [T] of the
    event. *)
Local Abbreviation stamped T s :=
  (Forall (λ t, Qle t T) (throat_IP_inv_time s)
   ∧ Forall (λ t, Qle t T) (pore_IP_inv_time s)).

Lemma invade_throat_stamped T s t s' :
  invade_throat I s = Some (t, s') → _sim_time s = T →
  stamped T s → stamped T s'.
Proof.
  intros H Hs [Ht Hp]. unfold invade_throat in H.
  inv_opt; simpl; split; try done.
  eapply seti_Forall; [eassumption|simpl; lra|done].
Qed.

Lemma merge_clusters_stamped T m s s' :
  merge_clusters I m s = Some s' → stamped T s → stamped T s'.
Proof. intros H Hp. unfold merge_clusters in H. by inv_opt. Qed.

Lemma both_invaded_stamped T t p0 p1 s s' :
  both_invaded I t p0 p1 s = Some s' → stamped T s → stamped T s'.
Proof.
  intros H Hp. unfold both_invaded in H. inv_opt; [|done].
  by eapply merge_clusters_stamped.
Qed.

Lemma push_neighbors_stamped T ns : ∀ s s',
  push_neighbors I ns s = Some s' → stamped T s → stamped T s'.
Proof.
  induction ns as [|j ns IH]; intros s s' H Hp; simpl in H; inv_opt;
    try done; by eapply IH.
Qed.

Lemma invade_pore_stamped T t p0 p1 s s' :
  invade_pore I t p0 p1 s = Some s' → _sim_time s = T →
  stamped T s → stamped T s'.
Proof.
  intros H Hs [Ht Hp]. unfold invade_pore in H.
  inv_opt; (eapply push_neighbors_stamped; [exact H|]); simpl;
    split; try done.
  all: eapply seti_Forall; [eassumption|simpl; lra|done].
Qed.

Lemma cleanup_loop_stamped T fuel : ∀ s s',
  cleanup_loop I fuel s = Some s' → stamped T s → stamped T s'.
Proof.
  induction fuel as [|fuel IH]; intros s s' H Hp; simpl in H; inv_opt;
    try done; by eapply IH.
Qed.

Lemma next_haines_stamped T s s' :
  next_haines I s = Some s' → stamped T s → stamped T s'.
Proof.
  intros H Hp. unfold next_haines in H.
  inv_opt;
    repeat match goal with
    | H : cleanup_loop _ _ _ = Some _ |- _ =>
        apply (cleanup_loop_stamped T) in H; [|done]
    end; done.
Qed.

Lemma _condition_update_stamped T s s' :
  _condition_update I s = Some s' → stamped T s → stamped T s'.
Proof.
  intros H Hp. unfold _condition_update in H.
  inv_opt; by repeat case_match.
Qed.

Lemma _do_one_inner_iteration_clock T s s' :
  timing I = true → (T <= sentinel)%Q →
  _do_one_inner_iteration I s = Some s' →
  pending T s → stamped T s → pending T s' ∧ stamped T s'.
Proof.
  intros timed HT H Hp Hst. unfold _do_one_inner_iteration in H.
  destruct (invade_throat I s) as [[t s1]|] eqn:E1; [simpl in H|done].
  destruct (find_connected_pores I t) as [[p0 p1]|] eqn:E2;
    [simpl in H|done].
  pose proof (invade_throat_pending _ _ _ _ E1 Hp) as Hp1.
  pose proof (invade_throat_stamped _ _ _ _ E1 (proj2 Hp) Hst) as Hst1.
  match type of H with
  | mbind _ (if ?b then _ else _) = _ => destruct b
  end.
  - destruct (both_invaded I t p0 p1 s1) as [s2|] eqn:E3; [simpl in H|done].
    split.
    + eapply next_haines_pending; [done..|].
      by eapply both_invaded_pending.
    + eapply next_haines_stamped; [done|].
      by eapply both_invaded_stamped.
  - destruct (invade_pore I t p0 p1 s1) as [s2|] eqn:E3; [simpl in H|done].
    split.
    + eapply next_haines_pending; [done..|].
      by eapply invade_pore_pending.
    + eapply next_haines_stamped; [done|].
      eapply invade_pore_stamped; [done|by destruct Hp1|done].
Qed.

Lemma select_cluster_clock s s' :
  timing I = true → select_cluster I s = Some s' →
  py_min (haines_time s) = Some (_sim_time s')
  ∧ haines_time s' = haines_time s
  ∧ throat_IP_inv_time s' = throat_IP_inv_time s
  ∧ pore_IP_inv_time s' = pore_IP_inv_time s.
Proof.
  intros timed H. unfold select_cluster in H. rewrite timed in H.
  by inv_opt.
Qed.

Lemma invade_throat_sim_time s t s' :
  invade_throat I s = Some (t, s') → _sim_time s' = _sim_time s.
Proof. intros H. unfold invade_throat in H. inv_opt; reflexivity. Qed.

Lemma merge_clusters_sim_time m s s' :
  merge_clusters I m s = Some s' → _sim_time s' = _sim_time s.
Proof. intros H. unfold merge_clusters in H. inv_opt; reflexivity. Qed.

Lemma both_invaded_sim_time t p0 p1 s s' :
  both_invaded I t p0 p1 s = Some s' → _sim_time s' = _sim_time s.
Proof.
  intros H. unfold both_invaded in H. inv_opt; [|done].
  by apply merge_clusters_sim_time in H.
Qed.

Lemma push_neighbors_sim_time ns : ∀ s s',
  push_neighbors I ns s = Some s' → _sim_time s' = _sim_time s.
Proof.
  induction ns as [|j ns IH]; intros s s' H; simpl in H; inv_opt;
    try done; by rewrite (IH _ _ H).
Qed.

Lemma invade_pore_sim_time t p0 p1 s s' :
  invade_pore I t p0 p1 s = Some s' → _sim_time s' = _sim_time s.
Proof.
  intros H. unfold invade_pore in H.
  inv_opt; by rewrite (push_neighbors_sim_time _ _ _ H).
Qed.

Lemma next_haines_sim_time s s' :
  next_haines I s = Some s' → _sim_time s' = _sim_time s.
Proof.
  intros H. unfold next_haines in H.
  inv_opt;
    repeat match goal with
    | H : cleanup_loop _ _ _ = Some _ |- _ =>
        apply cleanup_loop_frame in H as (_ & H & _)
    end; simpl in *; congruence.
Qed.

Lemma _do_one_inner_iteration_sim_time s s' :
  _do_one_inner_iteration I s = Some s' → _sim_time s' = _sim_time s.
Proof.
  intros H. unfold _do_one_inner_iteration in H. inv_opt.
  all: apply next_haines_sim_time in H; rewrite H.
  all: match goal with
       | H : invade_throat _ _ = Some _ |- _ =>
           apply invade_throat_sim_time in H; rewrite <- H
       end.
  - by eapply both_invaded_sim_time.
  - by eapply invade_pore_sim_time.
Qed.

Lemma _condition_update_sim_time s s' :
  _condition_update I s = Some s' → _sim_time s' = _sim_time s.
Proof.
  intros H. unfold _condition_update in H. inv_opt; by repeat case_match.
Qed.

(** One iteration of a timed run: the clock is set to the smallest pending
    event time, it does not go back, and as long as it has not passed the
    sentinel every pending time stays ahead of it. *)
Lemma _do_one_outer_iteration_clock s s' :
  timing I = true → clock_inv s →
  _do_one_outer_iteration I s = Some s' →
  py_min (haines_time s) = Some (_sim_time s')
  ∧ (_sim_time s <= _sim_time s')%Q
  ∧ ((_sim_time s' <= sentinel)%Q → clock_inv s').
Proof.
  intros timed (Hh & Hts & Hps) H.
  unfold _do_one_outer_iteration, _do_inner_iteration_stage in H.
  destruct (select_cluster I s) as [s1|] eqn:E1; [simpl in H|done].
  destruct (_do_one_inner_iteration I s1) as [s2|] eqn:E2;
    [simpl in H|done].
  match type of H with
  | mbind _ (_condition_update _ ?x) = _ => set (s3 := x) in *
  end.
  destruct (_condition_update I s3) as [s4|] eqn:E3; [simpl in H|done].
  simplify_eq. simpl.
  apply (select_cluster_clock _ _ timed) in E1 as (Hmin & Hh1 & Hts1 & Hps1).
  destruct (py_min_spec _ _ Hmin) as [Hlow Hgreat].
  assert (_sim_time s <= _sim_time s1)%Q as Hmono by by apply Hgreat.
  assert (haines_time s3 = haines_time s2
          ∧ throat_IP_inv_time s3 = throat_IP_inv_time s2
          ∧ pore_IP_inv_time s3 = pore_IP_inv_time s2
          ∧ _sim_time s3 = _sim_time s2) as (Hh3 & Hts3 & Hps3 & Hsim3)
    by (unfold s3; by case_match).
  assert (_sim_time s4 = _sim_time s1) as Hsim.
  { rewrite (_condition_update_sim_time _ _ E3), Hsim3.
    by apply _do_one_inner_iteration_sim_time. }
  rewrite Hsim. split_and!; [done..|].
  intros HT.
  destruct (_do_one_inner_iteration_clock (_sim_time s1) s1 s2)
    as [Hp2 Hst2]; [done..| | |].
  { split; [|done]. by rewrite Hh1. }
  { rewrite Hts1, Hps1. split.
    - eapply Forall_impl; [exact Hts|]. simpl. intros; lra.
    - eapply Forall_impl; [exact Hps|]. simpl. intros; lra. }
  destruct (_condition_update_pending (_sim_time s1) s3 s4) as [Hp4 _];
    [done..| |].
  { rewrite Hh3, Hsim3. done. }
  destruct (_condition_update_stamped (_sim_time s1) s3 s4) as [Ht4 Hq4];
    [done| |].
  { by rewrite Hts3, Hps3. }
  unfold clock_inv. simpl. rewrite Hsim. done.
Qed.

Lemma outer_loop_S fuel s :
  outer_loop I (S fuel) s
  = if _condition s then _do_one_outer_iteration I s ≫= outer_loop I fuel
    else Some s.
Proof. reflexivity. Qed.

Lemma outer_loop_clock fuel : ∀ s s',
  timing I = true → clock_inv s →
  outer_loop I fuel s = Some s' →
  (∀ k sk, k ≤ fuel → outer_loop I k s = Some sk →
           (_sim_time sk <= sentinel)%Q) →
  (_sim_time s <= _sim_time s')%Q ∧ clock_inv s'.
Proof.
  induction fuel as [|fuel IH]; intros s s' timed Hinv H Hb.
  - simpl in H. simplify_eq. split; [lra|done].
  - rewrite outer_loop_S in H. destruct (_condition s) eqn:Ec.
    2:{ simplify_eq. split; [lra|done]. }
    destruct (_do_one_outer_iteration I s) as [s1|] eqn:E1; [simpl in H|done].
    destruct (_do_one_outer_iteration_clock _ _ timed Hinv E1)
      as (_ & Hle & Hinv1).
    assert (_sim_time s1 <= sentinel)%Q as Hs1.
    { apply (Hb 1); [lia|]. rewrite outer_loop_S, Ec, E1. done. }
    destruct (IH s1 s' timed (Hinv1 Hs1) H) as [Hle' Hinv'].
    { intros k sk Hk Hsk. apply (Hb (S k)); [lia|].
      by rewrite outer_loop_S, Ec, E1. }
    split; [lra|done].
Qed.

Lemma setup_cluster_clock cn i s s' :
  setup_cluster I cn i s = Some s' →
  _sim_time s' = _sim_time s
  ∧ throat_IP_inv_time s' = throat_IP_inv_time s
  ∧ (Forall (λ t, (t <= _sim_time s)%Q) (pore_IP_inv_time s) →
     Forall (λ t, (t <= _sim_time s)%Q) (pore_IP_inv_time s')).
Proof.
  intros H. unfold setup_cluster in H. inv_opt; simpl.
  all: split_and!; try done.
  intros Hp. eapply set_many_Forall; [eassumption|simpl; lra|done].
Qed.

Lemma setup_clusters_clock groups : ∀ cn s s',
  setup_clusters I cn groups s = Some s' →
  _sim_time s' = _sim_time s
  ∧ throat_IP_inv_time s' = throat_IP_inv_time s
  ∧ (Forall (λ t, (t <= _sim_time s)%Q) (pore_IP_inv_time s) →
     Forall (λ t, (t <= _sim_time s)%Q) (pore_IP_inv_time s')).
Proof.
  induction groups as [|i groups IH]; intros cn s s' H; simpl in H.
  - by simplify_eq.
  - destruct (setup_cluster I cn i s) as [s1|] eqn:E; [simpl in H|done].
    apply setup_cluster_clock in E as (E1 & E2 & E3).
    apply IH in H as (H1 & H2 & H3). rewrite E1 in *.
    split_and!; [congruence..|]. intros Hp. by apply H3, E3.
Qed.

(** After the setup the clock is 0 and every stamp is 0 or -1. *)
Lemma _setup_for_IP_clock s0 :
  _setup_for_IP I initial = Some s0 →
  Forall (λ t, (0 <= t)%Q) (haines_time s0) → clock_inv s0.
Proof.
  intros H Hh. unfold _setup_for_IP in H.
  destruct (setup_clusters I 1 (inlets I) _) as [s1|] eqn:E;
    [simpl in H|done].
  simplify_eq. apply setup_clusters_clock in E as (E1 & E2 & E3).
  simpl in Hh. unfold clock_inv. simpl. rewrite E1, E2.
  assert (∀ n, Forall (λ t, (t <= 0)%Q) (replicate n (-1)%Q)) as Hrep.
  { intros n. apply Forall_replicate. lra. }
  destruct (timing I); simpl in *; split_and!; try done.
  all: first [apply Hrep|apply E3; first [apply Hrep|constructor]].
Qed.

(** C8 (amended). In a timed run every iteration sets the clock to the
    smallest pending event time, and a recomputed event time below the clock
    is raised to the clock. The clock starts at 0 and does not go back, and
    no stamp is ahead of it, provided the setup's event times are not
    negative and the clock has not passed the sentinel (the finite time
    stored for finished clusters, which enters the minimum like any other
    event time). *)
Theorem clock_does_not_go_back :
  timing I = true →
  (∀ s0 s1, _setup_for_IP I initial = Some s0 →
            Forall (λ t, (0 <= t)%Q) (haines_time s0) →
            _condition_update I s0 = Some s1 →
            _sim_time s1 = 0%Q ∧ clock_inv s1)
  ∧ (∀ s s', clock_inv s → _do_one_outer_iteration I s = Some s' →
       py_min (haines_time s) = Some (_sim_time s')
       ∧ (_sim_time s <= _sim_time s')%Q
       ∧ ((_sim_time s' <= sentinel)%Q → clock_inv s'))
  ∧ (∀ fuel s s', clock_inv s → outer_loop I fuel s = Some s' →
       (∀ k sk, k ≤ fuel → outer_loop I k s = Some sk →
                (_sim_time sk <= sentinel)%Q) →
       (_sim_time s <= _sim_time s')%Q ∧ clock_inv s').
Proof.
  intros timed. split_and!.
  - intros s0 s1 H0 Hh H1.
    pose proof (_setup_for_IP_clock _ H0 Hh) as (Ha & Hb & Hc).
    assert (_sim_time s0 = 0%Q) as Hs0.
    { unfold _setup_for_IP in H0.
      destruct (setup_clusters I 1 (inlets I) _) as [s2|] eqn:E;
        [simpl in H0|done].
      simplify_eq. apply setup_clusters_clock in E as (E & _).
      simpl. rewrite E. by destruct (timing I). }
    pose proof (_setup_for_IP_log I _ H0) as (_ & _ & _ & Hn & _).
    pose proof (_condition_update_sim_time _ _ H1) as Hs1.
    split; [congruence|].
    unfold _condition_update in H1. rewrite Hn in H1. simpl in H1.
    simplify_eq. unfold clock_inv. by case_match.
  - intros s s' Hinv H. by apply _do_one_outer_iteration_clock.
  - intros fuel s s' Hinv H Hb. by eapply outer_loop_clock.
Qed.
End Clock.

(** ** Progress with coinciding inlet and outlet centroids *)

(** C6 (amended). With [initial_distance] zero the setup divides by it all
    the same: [(initial - current) / initial] is 0/0, and the progress
    percentage is not a number from the start. No pore is nearer to the
    outlets than distance 0, so no breakthrough update recomputes it, and
    the progress tracking prints no line beyond the initial 0 %. *)
Theorem zero_initial_distance_progress (d0 incr : Q) (dists : list Q) :
  (d0 == 0)%Q → Forall (λ d, (0 <= d)%Q) dists →
  Progress._percent_complete (Progress.setup d0) = Progress.NaN
  ∧ foldl (λ st d, Progress.condition_update incr d st) (Progress.setup d0)
      dists
    = Progress.setup d0.
Proof.
  intros Hd Hdists.
  assert (Progress._percent_complete (Progress.setup d0) = Progress.NaN)
    as Hnan.
  { unfold Progress.setup, Progress.np_divide. simpl.
    assert (Qeq_bool d0 0 = true) as -> by by apply Qeq_bool_iff.
    assert (Qeq_bool (d0 - d0) 0 = true) as ->; [|done].
    apply Qeq_bool_iff. ring. }
  split; [done|].
  induction Hdists as [|d dists Hd0 _ IH]; [done|]. simpl.
  assert (Progress.condition_update incr d (Progress.setup d0)
          = Progress.setup d0) as ->; [|done].
  unfold Progress.condition_update.
  destruct (Qlt_le_dec d _) as [Hlt|_].
  { simpl in Hlt. lra. }
  rewrite Hnan. done.
Qed.

Lemma zero_initial_distance_progress_witness :
  Progress._percent_complete (Progress.setup 0) = Progress.NaN
  ∧ foldl (λ st d, Progress.condition_update 20 d st) (Progress.setup 0)
      [1; 0; 3 # 2]%Q
    = Progress.setup 0.
Proof.
  apply (zero_initial_distance_progress 0 20 [1; 0; 3 # 2]%Q).
  - reflexivity.
  - repeat constructor; by vm_compute.
Defined.

(** C6, as stated, fails: with [initial_distance = 0] the percentage the
    setup computes is the result of 0/0, not 100. *)
Lemma zero_initial_distance_divides :
  Progress.np_divide (0 - 0) 0 = Progress.NaN
  ∧ Progress._percent_complete (Progress.setup 0) = Progress.NaN
  ∧ Progress._percent_complete (Progress.setup 0)
    ≠ Progress.Fin (100 # 1)
  ∧ Progress.reports
      (Progress.condition_update 20 0 (Progress.setup 0))
    = [Progress.Fin 0].
Proof. split_and!; try done. Qed.

(** ** Counterexamples *)

(** C1, as stated, fails: in the timed run on the triangle the two inlet
    pores share number 1, and throat 0 shares number 2 with pore 2, invaded
    through it. *)
Lemma inv_seq_numbers_are_shared :
  run_events (triangle true total) 10 = Some triangle_total_end
  ∧ _condition triangle_total_end = false
  ∧ seq_log triangle_total_end
    = [(Pore 0, 1); (Pore 1, 1); (Throat 0, 2); (Pore 2, 2);
       (Throat 1, 3); (Throat 2, 4)]
  ∧ seq_numbers triangle_total_end
    ≠ seq 1 (length (seq_numbers triangle_total_end))
  ∧ ¬ NoDup (seq_numbers triangle_total_end).
Proof.
  split_and!; [by vm_compute..| |].
  - by vm_compute.
  - vm_compute. intros H. inversion H as [|? ? Hin _]. apply Hin. by left.
Qed.

(** C3, as stated, fails: the second event of the timed run on the
    triangle merges cluster 2 into cluster 1; afterwards the surviving
    cluster's throat list holds throats 1 and 2 twice and its heap holds
    throat 2, not invaded yet, twice. *)
Lemma merged_frontier_has_duplicates :
  ∃ s, run_events (triangle true total) 2 = Some s
       ∧ transform s = [1; 1]
       ∧ _tlists s !! 0 = Some [0; 2; 1; 1; 2]
       ∧ _tpoints s !! 0 = Some [((3 # 1)%Q, 2); ((3 # 1)%Q, 2)]
       ∧ throat_IP_cluster_final s !! 2 = Some 0
       ∧ ¬ frontier_inv s.
Proof.
  eexists. split_and!; [by vm_compute..|].
  intros [_ H]. destruct (H 0 _ _ eq_refl eq_refl) as [Hnd _].
  apply NoDup_cons in Hnd as [_ Hnd]. apply NoDup_cons in Hnd as [_ Hnd].
  apply NoDup_cons in Hnd as [Hin _]. apply Hin. by left.
Qed.

(** C5, as stated, fails, in two ways. After the complete timed run on the
    triangle the largest sequence number is 4, that of a pore is 2: the
    query with sequence cutoff 4 reports all three throats invaded, the
    query with saturation cutoff 1.0 only throat 0. After the complete run
    on the chain with pore volumes 0.2, 0.3, 0.2 the saturation stored for
    the last pore is 1.0000000000000002: the query with saturation cutoff
    1.0 leaves that pore and the throat before it out. *)
Lemma full_saturation_cutoff_differs :
  (run_events (triangle true total) 10 = Some triangle_total_end
   ∧ _condition triangle_total_end = false
   ∧ saturations (triangle true total) py_sum triangle_total_end
     = Some triangle_total_sat
   ∧ max_seq triangle_total_end = 4
   ∧ update_results triangle_total_end triangle_total_sat.1
       (Some (max_seq triangle_total_end)) None
     = Some ([true; true; true], [true; true; true])
   ∧ update_results triangle_total_end triangle_total_sat.1 None
       (Some (f64_of_Z 1))
     = Some ([true; true; true], [true; false; false]))
  ∧ (run_events decimal_chain 10 = Some decimal_chain_end
     ∧ _condition decimal_chain_end = false
     ∧ saturations decimal_chain py_sum decimal_chain_end
       = Some decimal_chain_sat
     ∧ decimal_chain_sat.1 !! 2
       = Some (S754_finite false 4503599627370497 (-52))
     ∧ f64_le (S754_finite false 4503599627370497 (-52)) (f64_of_Z 1) = false
     ∧ max_seq decimal_chain_end = 3
     ∧ update_results decimal_chain_end decimal_chain_sat.1
         (Some (max_seq decimal_chain_end)) None
       = Some ([true; true; true], [true; true])
     ∧ update_results decimal_chain_end decimal_chain_sat.1 None
         (Some (f64_of_Z 1))
       = Some ([true; true; false], [true; false])).
Proof. split; split_and!; by vm_compute. Qed.


(** C8, as stated, fails: on the chain the first event fires at time
    [huge], above the sentinel; the breakthrough then stores the sentinel
    for cluster 1, the next iteration takes it as the smallest pending time
    and sets the clock back, and throat 1, invaded second, is stamped
    earlier than throat 0. *)
Lemma clock_goes_back_to_sentinel :
  ∃ s1 s2 t0 t1,
    run_events chain 1 = Some s1 ∧ run_events chain 2 = Some s2
    ∧ (_sim_time s1 == huge)%Q ∧ (_sim_time s2 == sentinel)%Q
    ∧ (_sim_time s2 < _sim_time s1)%Q
    ∧ throat_IP_inv_seq s2 = [2; 3; 0]
    ∧ throat_IP_inv_time s2 = [t0; t1; (-1)%Q]
    ∧ (t0 == huge)%Q ∧ (t1 == sentinel)%Q ∧ (t1 < t0)%Q
    ∧ active s1 = [0; 1] ∧ _current_cluster s2 = 1.
Proof. do 4 eexists. split_and!; by vm_compute. Qed.

(** ** The theorems at work on the examples *)


Lemma merge_resolves_to_min_witness :
  _current_cluster triangle_merged = 2 `min` 1
  ∧ getc (transform triangle_merged) 2 = Some (2 `min` 1)
  ∧ getc (transform triangle_merged) 1 = Some (2 `min` 1)
  ∧ (∀ x, getc (transform triangle_before_merge) x = Some 2
          ∨ getc (transform triangle_before_merge) x = Some 1 →
          getc (transform triangle_merged) x = Some (2 `min` 1))
  ∧ (∀ x y, getc (transform triangle_before_merge) x = Some y →
            y ≠ 2 `max` 1 → getc (transform triangle_merged) x = Some y)
  ∧ ∀ s2, later (triangle true total) triangle_merged s2 →
      ∀ x, getc (transform s2) x ≠ Some (2 `max` 1).
Proof.
  eapply (merge_resolves_to_min (triangle true total) triangle_before_merge
            triangle_merged 1 _ 1 2 2 1 2 1);
    [by vm_compute..|lia|by vm_compute].
Defined.


Lemma cleanup_discards_invaded_throats_witness :
  ∃ s' discarded h',
    cleanup_loop (triangle true breakthrough) 3 triangle_after_merge = Some s'
    ∧ cleaned (triangle true breakthrough) triangle_after_merge
        [((2 # 1)%Q, 1); ((3 # 1)%Q, 2); ((3 # 1)%Q, 2)] s' discarded h'.
Proof.
  apply (cleanup_discards_invaded_throats (triangle true breakthrough)
           triangle_after_merge [((2 # 1)%Q, 1); ((3 # 1)%Q, 2); ((3 # 1)%Q, 2)]).
  - by vm_compute.
  - done.
  - split_and!.
    + by eexists.
    + intros _. by eexists.
    + repeat constructor; by eexists.
Defined.

Lemma uninvaded_saturation_is_one_witness :
  ∃ psat tsat,
    saturations (triangle true breakthrough) py_sum triangle_breakthrough_end
    = Some (psat, tsat)
    ∧ (∀ p, pore_IP_inv_seq triangle_breakthrough_end !! p = Some 0 →
            psat !! p = Some (f64_of_Z 1))
    ∧ (∀ t, throat_IP_inv_seq triangle_breakthrough_end !! t = Some 0 →
            tsat !! t = Some (f64_of_Z 1)).
Proof.
  apply (uninvaded_saturation_is_one (triangle true breakthrough) py_sum
           triangle_breakthrough_end); by vm_compute.
Defined.

Lemma occupancy_at_full_saturation_witness :
  update_results triangle_total_end triangle_total_sat.1 None
    (Some (f64_of_Z 1))
  = Some (invaded_mask (max_seq triangle_total_end)
            (pore_IP_inv_seq triangle_total_end),
          invaded_mask (max_list (pore_IP_inv_seq triangle_total_end))
            (throat_IP_inv_seq triangle_total_end)).
Proof.
  destruct (occupancy_at_full_saturation triangle_total_end
              triangle_total_sat.1 (f64_of_Z 1))
    as (n & H & _ & _ & _ & _ & _ & _ & Hlast); [by vm_compute|].
  destruct Hlast as (Hn & Hp & _).
  { exists 2, (f64_of_Z 1). by vm_compute. }
  by rewrite H, Hp, Hn.
Defined.

Lemma inv_seq_in_assignment_order_witness :
  ∃ evs,
    seq_log triangle_total_end
    = ((λ p, (Pore p, 1)) <$> concat (inlets (triangle true total))) ++ evs
    ∧ events_from 2 evs (_tseq triangle_total_end)
    ∧ climbing (seq_numbers triangle_total_end).
Proof.
  apply (inv_seq_in_assignment_order (triangle true total) 10).
  by vm_compute.
Defined.

Lemma clock_does_not_go_back_witness :
  (_sim_time triangle_timed_start = 0%Q ∧ clock_inv triangle_timed_start)
  ∧ py_min (haines_time triangle_timed_start)
    = Some (_sim_time triangle_timed_first)
  ∧ (_sim_time triangle_timed_start <= _sim_time triangle_timed_first)%Q
  ∧ clock_inv triangle_timed_first.
Proof.
  destruct (clock_does_not_go_back (triangle true total)) as (H0 & H & _);
    [reflexivity|].
  assert (_sim_time triangle_timed_start = 0%Q
          ∧ clock_inv triangle_timed_start) as Hstart.
  { apply (H0 triangle_timed_setup).
    - by vm_compute.
    - repeat constructor; by vm_compute.
    - by vm_compute. }
  split; [exact Hstart|].
  destruct (H triangle_timed_start triangle_timed_first)
    as (H1 & H2 & H3); [apply Hstart|by vm_compute|].
  split_and!; [exact H1|exact H2|]. apply H3. by vm_compute.
Defined.

(** The first event of the timed run on the triangle is not a merge, so
    every frontier is free of duplicates before the second event. *)
Lemma frontier_once_until_merge_witness :
  frontier_inv triangle_timed_setup ∧ frontier_inv triangle_timed_first.
Proof.
  destruct (frontier_once_until_merge (triangle true total))
    as (H1 & _ & H3 & _).
  split; [apply H1; by vm_compute|].
  apply (H3 1); [by vm_compute|].
  intros k sk sk' Hk Hrun Hcond Hsel (t & s1 & p0 & p1 & c0 & c1 & Hpop
    & Hfind & Hc0 & Hc1 & Hn0 & Hn1 & Hne).
  assert (k = 0) as -> by lia.
  assert (Some sk = Some triangle_timed_start) as [= ->]
    by (rewrite <- Hrun; by vm_compute).
  assert (Some sk' = Some triangle_timed_selected) as [= ->]
    by (rewrite <- Hsel; by vm_compute).
  assert (Some (t, s1) = Some (0, triangle_timed_popped)) as [= -> ->]
    by (rewrite <- Hpop; by vm_compute).
  assert (Some (p0, p1) = Some (0, 2)) as [= -> ->]
    by (rewrite <- Hfind; by vm_compute).
  assert (Some c1 = Some 0) as [= ->] by (rewrite <- Hc1; by vm_compute).
  exact (Hn1 eq_refl).
Defined.
